(** * libcerializer: the dynamic-message model and its binary codec

    A shallow embedding of the C sources [cerializer.c], [hashmap.c],
    [dynmessage.c] and [dynmessage_cerializer.c], and the properties the
    specification states about them.

    C data model.  The widths are those of an LP64 platform (Linux x86_64,
    one of the platforms the README lists): [char] 8, [short] 16, [int] 32,
    [long], [long long] and [size_t] 64 bits.  A value of an integer type is
    a [Z]; every conversion the C code performs implicitly is written out
    with [wrap] (conversion to an unsigned type) or [sext] (conversion to a
    signed type).  A byte ([unsigned char]) is a [Z] in [0, 256). *)

From Stdlib Require Import String Ascii.
From Stdlib Require Import ZArith List Bool Lia Permutation SpecFloat.
Import ListNotations.

Local Open Scope Z_scope.

(** ** C integer conversions *)

(** Conversion to the unsigned type of [w] bits. *)
Definition wrap (w x : Z) : Z := x mod 2 ^ w.

(** Conversion to the signed type of [w] bits (two's complement). *)
Definition sext (w x : Z) : Z := (x + 2 ^ (w - 1)) mod 2 ^ w - 2 ^ (w - 1).

(** Store into an [unsigned char]. *)
Definition uchar (x : Z) : Z := wrap 8 x.

(** [x << n] in the unsigned type of [w] bits. *)
Definition shl (w x n : Z) : Z := wrap w (Z.shiftl x n).

(** [buf[k]]; the callers below guard the length of [buf]. *)
Definition byte_at (buf : list Z) (k : nat) : Z := nth k buf 0.

(** ** cerializer.c: the primitive integer codec *)

Module Cerializer.

(** [packi16(buf, unsigned int i)]: the two bytes written at [buf]. *)
Definition packi16 (i : Z) : list Z :=
  [uchar (Z.shiftr i 8); uchar i].

(** [packi32(buf, unsigned long int i)]. *)
Definition packi32 (i : Z) : list Z :=
  [uchar (Z.shiftr i 24); uchar (Z.shiftr i 16);
   uchar (Z.shiftr i 8); uchar i].

(** [packi64(buf, unsigned long long int i)]. *)
Definition packi64 (i : Z) : list Z :=
  [uchar (Z.shiftr i 56); uchar (Z.shiftr i 48);
   uchar (Z.shiftr i 40); uchar (Z.shiftr i 32);
   uchar (Z.shiftr i 24); uchar (Z.shiftr i 16);
   uchar (Z.shiftr i 8); uchar i].

(** [unpacku16]: [((unsigned int)buf[0]<<8) | buf[1]]. *)
Definition unpacku16 (buf : list Z) : Z :=
  Z.lor (shl 32 (byte_at buf 0) 8) (byte_at buf 1).

(** [unpacki16]: the unsigned decode, then
    [if (i2 <= 0x7fffu) i = i2; else i = -1 - (unsigned int)(0xffffu - i2);]
    The subtraction is done in [unsigned int] and the result converted
    back to [int]. *)
Definition unpacki16 (buf : list Z) : Z :=
  let i2 := unpacku16 buf in
  if i2 <=? 0x7fff then sext 32 i2
  else sext 32 (wrap 32 (wrap 32 (-1) - wrap 32 (0xffff - i2))).

(** [unpacku32], in [unsigned long]. *)
Definition unpacku32 (buf : list Z) : Z :=
  Z.lor (Z.lor (Z.lor (shl 64 (byte_at buf 0) 24)
                      (shl 64 (byte_at buf 1) 16))
               (shl 64 (byte_at buf 2) 8))
        (byte_at buf 3).

(** [unpacki32]:
    [if (i2 <= 0x7fffffffu) i = i2; else i = -1 - (long int)(0xffffffffu - i2);] *)
Definition unpacki32 (buf : list Z) : Z :=
  let i2 := unpacku32 buf in
  if i2 <=? 0x7fffffff then sext 64 i2
  else sext 64 (-1 - sext 64 (wrap 64 (0xffffffff - i2))).

(** [unpacku64], in [unsigned long long]. *)
Definition unpacku64 (buf : list Z) : Z :=
  Z.lor (Z.lor (Z.lor (Z.lor (Z.lor (Z.lor (Z.lor
    (shl 64 (byte_at buf 0) 56)
    (shl 64 (byte_at buf 1) 48))
    (shl 64 (byte_at buf 2) 40))
    (shl 64 (byte_at buf 3) 32))
    (shl 64 (byte_at buf 4) 24))
    (shl 64 (byte_at buf 5) 16))
    (shl 64 (byte_at buf 6) 8))
    (byte_at buf 7).

(** [unpacki64]:
    [if (i2 <= 0x7fffffffffffffffu) i = i2;
     else i = -1 -(long long int)(0xffffffffffffffffu - i2);] *)
Definition unpacki64 (buf : list Z) : Z :=
  let i2 := unpacku64 buf in
  if i2 <=? 0x7fffffffffffffff then sext 64 i2
  else sext 64 (-1 - sext 64 (wrap 64 (0xffffffffffffffff - i2))).

(** The exported wrappers.  The parameter of [serialize_int16] is an
    [unsigned int], that of [serialize_int32] an [unsigned long] and that
    of [serialize_int64] an [unsigned long long]: the argument is
    converted at the call. *)
Definition serialize_int16 (i : Z) : list Z := packi16 (wrap 32 i).
Definition serialize_int32 (i : Z) : list Z := packi32 (wrap 64 i).
Definition serialize_int64 (i : Z) : list Z := packi64 (wrap 64 i).

Definition deserialize_int16 (buf : list Z) : Z := unpacki16 buf.
Definition deserialize_uint16 (buf : list Z) : Z := unpacku16 buf.
Definition deserialize_int32 (buf : list Z) : Z := unpacki32 buf.
Definition deserialize_uint32 (buf : list Z) : Z := unpacku32 buf.
Definition deserialize_int64 (buf : list Z) : Z := unpacki64 buf.
Definition deserialize_uint64 (buf : list Z) : Z := unpacku64 buf.

End Cerializer.

(** ** Undefined behaviour

    A C operation with no defined result (a read or write outside an
    object, a [NULL] dereference, a signed overflow, ...) is a fault; the
    functions that can reach one return an [outcome]. *)

Inductive fault : Type :=
| NullDeref        (* a NULL pointer is dereferenced *)
| OutOfBounds      (* an access outside the object pointed to *)
| BadAccess        (* an object read through a type it does not hold *)
| SignedOverflow   (* overflow of a signed integer operation *)
| BadShift         (* a shift of a negative value or past the width *)
| BadConversion    (* a floating value converted out of range *)
| Diverges.        (* the calls or the loop need more than the fuel given *)

Inductive outcome (A : Type) : Type :=
| Ok (a : A)
| Undef (f : fault).

Arguments Ok {A} a.
Arguments Undef {A} f.

Definition bind {A B : Type} (x : outcome A) (k : A -> outcome B)
  : outcome B :=
  match x with
  | Ok a => k a
  | Undef f => Undef f
  end.

Notation "x <- c1 ;; c2" := (bind c1 (fun x => c2))
  (at level 61, c1 at next level, right associativity).

Notation "' pat <- c1 ;; c2" :=
  (bind c1 (fun x => match x with pat => c2 end))
  (at level 61, pat pattern, c1 at next level, right associativity).

(** A pointer that must not be [NULL] when dereferenced. *)
Definition deref {A : Type} (p : option A) : outcome A :=
  match p with
  | Some a => Ok a
  | None => Undef NullDeref
  end.

(** The result of a call that is bounded by fuel. *)
Definition terminated {A : Type} (r : option A) : outcome A :=
  match r with
  | Some a => Ok a
  | None => Undef Diverges
  end.

Definition INT_MAX : Z := 2147483647.

(** ** cerializer.c: the floating-point codec

    Floating-point values are [spec_float]s, the specification of
    IEEE 754 arithmetic of the Standard Library, in their canonical
    form for the format: [float] is binary32, [double] binary64 and
    [long double] the x87 extended format (64 bits of significand). *)

Module Float754.

Definition float_prec : Z := 24.
Definition float_emax : Z := 128.
Definition double_prec : Z := 53.
Definition double_emax : Z := 1024.
Definition ldouble_prec : Z := 64.
Definition ldouble_emax : Z := 16384.

(** Conversion of a floating value to the format [(prec, emax)]. *)
Definition convert (prec emax : Z) (f : spec_float) : spec_float :=
  match f with
  | S754_finite s m e =>
      binary_normalize prec emax (cond_Zopp s (Zpos m)) e s
  | _ => f
  end.

Definition to_float : spec_float -> spec_float :=
  convert float_prec float_emax.
Definition to_double : spec_float -> spec_float :=
  convert double_prec double_emax.
Definition to_ldouble : spec_float -> spec_float :=
  convert ldouble_prec ldouble_emax.

(** Conversion of an integer to [long double] and to [float]. *)
Definition ldouble_of_Z (z : Z) : spec_float :=
  binary_normalize ldouble_prec ldouble_emax z 0 false.
Definition float_of_Z (z : Z) : spec_float :=
  binary_normalize float_prec float_emax z 0 false.

(** [long double] arithmetic and comparisons. *)
Definition ld_mul := SFmul ldouble_prec ldouble_emax.
Definition ld_div := SFdiv ldouble_prec ldouble_emax.
Definition ld_add := SFadd ldouble_prec ldouble_emax.
Definition ld_sub := SFsub ldouble_prec ldouble_emax.

Definition ld_zero : spec_float := S754_zero false.
Definition ld_one : spec_float := ldouble_of_Z 1.
Definition ld_two : spec_float := ldouble_of_Z 2.

(** The constant [0.5f]. *)
Definition float_half : spec_float :=
  binary_normalize float_prec float_emax 1 (-1) false.

(** Conversion of a [long double] to [long long]: the fraction is
    discarded; undefined when the result is not representable. *)
Definition llong_of_ldouble (x : spec_float) : outcome Z :=
  match x with
  | S754_zero _ => Ok 0
  | S754_finite s m e =>
      let magnitude :=
        if 0 <=? e then Zpos m * 2 ^ e else Zpos m / 2 ^ (- e) in
      let v := cond_Zopp s magnitude in
      if (- 2 ^ 63 <=? v) && (v <? 2 ^ 63) then Ok v
      else Undef BadConversion
  | _ => Undef BadConversion
  end.

(** [while(fnorm >= 2.0) { fnorm /= 2.0; shift++; }] *)
Fixpoint normalize_down (fuel : nat) (fnorm : spec_float) (shift : Z)
  : outcome (spec_float * Z) :=
  if SFleb ld_two fnorm then
    match fuel with
    | O => Undef Diverges
    | S fuel' => normalize_down fuel' (ld_div fnorm ld_two) (shift + 1)
    end
  else Ok (fnorm, shift).

(** [while(fnorm < 1.0) { fnorm *= 2.0; shift--; }] *)
Fixpoint normalize_up (fuel : nat) (fnorm : spec_float) (shift : Z)
  : outcome (spec_float * Z) :=
  if SFltb fnorm ld_one then
    match fuel with
    | O => Undef Diverges
    | S fuel' => normalize_up fuel' (ld_mul fnorm ld_two) (shift - 1)
    end
  else Ok (fnorm, shift).

(** More iterations than either loop takes on a finite [long double]. *)
Definition loop_fuel : nat := Z.to_nat 40000.

(** [pack754(f, bits, expbits)].  The shifts of [long long] values are
    those of the two's complement representation. *)
Definition pack754 (f : spec_float) (bits expbits : Z) : outcome Z :=
  let significandbits := bits - expbits - 1 in
  if SFeqb f ld_zero then Ok 0
  else
    let '(sign, fnorm) :=
      if SFltb f ld_zero then (1, SFopp f) else (0, f) in
    '(fnorm, shift) <- normalize_down loop_fuel fnorm 0 ;;
    '(fnorm, shift) <- normalize_up loop_fuel fnorm shift ;;
    let fnorm := ld_sub fnorm ld_one in
    let scale :=
      SFadd float_prec float_emax
        (float_of_Z (Z.shiftl 1 significandbits)) float_half in
    significand <- llong_of_ldouble (ld_mul fnorm (to_ldouble scale)) ;;
    let exp := shift + (Z.shiftl 1 (expbits - 1) - 1) in
    Ok (wrap 64
          (Z.lor (Z.lor (sext 64 (Z.shiftl sign (bits - 1)))
                        (sext 64 (Z.shiftl exp (bits - expbits - 1))))
                 significand)).

(** [unpack754(i, bits, expbits)]. *)
Definition unpack754 (i : Z) (bits expbits : Z) : spec_float :=
  let significandbits := bits - expbits - 1 in
  if i =? 0 then ld_zero
  else
    let result :=
      ldouble_of_Z (Z.land i (Z.shiftl 1 significandbits - 1)) in
    let result := ld_div result (ldouble_of_Z (Z.shiftl 1 significandbits)) in
    let result := ld_add result (to_ldouble (float_of_Z 1)) in
    let bias := Z.shiftl 1 (expbits - 1) - 1 in
    let shift :=
      sext 64 (wrap 64
        (Z.land (Z.shiftr i significandbits) (Z.shiftl 1 expbits - 1)
         - bias)) in
    let result :=
      Nat.iter (Z.to_nat shift) (fun r => ld_mul r ld_two) result in
    let result :=
      Nat.iter (Z.to_nat (- shift)) (fun r => ld_div r ld_two) result in
    ld_mul result
      (if Z.land (Z.shiftr i (bits - 1)) 1 =? 0
       then ldouble_of_Z 1 else ldouble_of_Z (-1)).

Definition pack754_32 (f : spec_float) : outcome Z := pack754 f 32 8.
Definition pack754_64 (f : spec_float) : outcome Z := pack754 f 64 11.
Definition unpack754_32 (i : Z) : spec_float := unpack754 i 32 8.
Definition unpack754_64 (i : Z) : spec_float := unpack754 i 64 11.

(** [serialize_float32(buf, float f)]: the four bytes written. *)
Definition serialize_float32 (f : spec_float) : outcome (list Z) :=
  fhold <- pack754_32 (to_ldouble f) ;;
  Ok (Cerializer.packi32 fhold).

(** [deserialize_float32], a [long double]. *)
Definition deserialize_float32 (buf : list Z) : spec_float :=
  unpack754_32 (Cerializer.unpacku32 buf).

Definition serialize_float64 (f : spec_float) : outcome (list Z) :=
  fhold <- pack754_64 (to_ldouble f) ;;
  Ok (Cerializer.packi64 fhold).

(** [deserialize_float64], converted to [double] on return. *)
Definition deserialize_float64 (buf : list Z) : spec_float :=
  to_double (unpack754_64 (Cerializer.unpacku64 buf)).

End Float754.

(** The big-endian value of a byte sequence (most significant byte
    first), the reference the decoders are compared with. *)
Fixpoint be_value (bs : list Z) : Z :=
  match bs with
  | [] => 0
  | b :: r => b * 256 ^ Z.of_nat (length r) + be_value r
  end.

(** ** Strings

    A [string] stands for the characters of a C string before its
    terminating NUL; [strlen] is its length, [strdup] a copy and
    [strcmp(l, r) == 0] equality of the characters. *)

Definition strlen (s : string) : Z := Z.of_nat (String.length s).

Definition strdup (s : string) : string := s.

(** string_util.c: [test_string_equal], that is [strcmp(l, r) == 0]. *)
Definition test_string_equal (l r : string) : bool := String.eqb l r.

(** The bytes of a string. *)
Definition bytes_of_string (s : string) : list Z :=
  map (fun c => Z.of_nat (nat_of_ascii c)) (list_ascii_of_string s).

(** The C string held by a buffer of [bs] followed by a NUL: the
    characters before the first zero byte. *)
Fixpoint cstring_of_bytes (bs : list Z) : string :=
  match bs with
  | [] => EmptyString
  | b :: r =>
      if b =? 0 then EmptyString
      else String (ascii_of_nat (Z.to_nat b)) (cstring_of_bytes r)
  end.

(** The value of a sequence of bytes read as an unsigned integer, least
    significant byte first. *)
Fixpoint le_value (bs : list Z) : Z :=
  match bs with
  | [] => 0
  | b :: r => b + 256 * le_value r
  end.

(** The [size_t] found at the address of a string, as
    [default_hash_func] reads it through the key pointer cast to a
    pointer to [size_t]: eight bytes, least significant first.  For a
    string of seven characters or more these are bytes of the string
    itself: its first eight characters, or its seven characters and the
    terminator.  For a shorter string the read goes past the
    terminator, to bytes that are not part of the string: the caller's
    buffer and the copy [strdup] makes need not agree there, and the
    read is undefined in C.  [string_word] takes these bytes as zero,
    so it says what the code reads only for strings of seven characters
    or more; what is proved about names that are hashed is stated for
    such names ([word_sized] below). *)
Definition string_word (s : string) : Z :=
  le_value (firstn 8 (bytes_of_string s)).

(** ** hashmap.c: a hash map of chained buckets *)

Module Hashmap.

Section Defs.
Context {K V : Type}.

(** The [size_t] word at the address of a key, which the default
    hash and the default key comparison read. *)
Variable deref_size_t : K -> Z.

Record hashmap_entry : Type := { key : K; value : V }.

(** A slot of [table] is [NULL] or a linked list of entries, head
    first.  [capacity] and [size] are [size_t] counters; an allocation
    of [capacity] slots fails, and ends the process, long before they
    could wrap. *)
Record hashmap : Type := {
  capacity : Z;
  size : Z;
  table : list (option (list hashmap_entry));
  key_equal : K -> K -> bool;
  hash_func : K -> Z
}.

Definition hashmap_default_key_equal (l r : K) : bool :=
  wrap 64 (deref_size_t l - deref_size_t r) =? 0.

(** [default_hash_func], Bob Jenkins' mix in [size_t] arithmetic. *)
Definition default_hash_func (k : K) : Z :=
  let a := deref_size_t k in
  let a := wrap 64 (a - shl 64 a 6) in
  let a := Z.lxor a (Z.shiftr a 17) in
  let a := wrap 64 (a - shl 64 a 9) in
  let a := Z.lxor a (shl 64 a 4) in
  let a := wrap 64 (a - shl 64 a 3) in
  let a := Z.lxor a (shl 64 a 10) in
  let a := Z.lxor a (Z.shiftr a 15) in
  a.

(** [map->table[offset]]. *)
Definition table_at (map : hashmap) (offset : Z)
  : option (list hashmap_entry) :=
  nth (Z.to_nat offset) (table map) None.

Fixpoint set_nth {A : Type} (n : nat) (x : A) (l : list A) : list A :=
  match l, n with
  | [], _ => []
  | _ :: r, O => x :: r
  | y :: r, S n' => y :: set_nth n' x r
  end.

(** [map->table[offset] = list]. *)
Definition set_table_at (map : hashmap) (offset : Z)
    (slot : option (list hashmap_entry)) : hashmap :=
  {| capacity := capacity map; size := size map;
     table := set_nth (Z.to_nat offset) slot (table map);
     key_equal := key_equal map; hash_func := hash_func map |}.

Definition set_size (map : hashmap) (n : Z) : hashmap :=
  {| capacity := capacity map; size := n; table := table map;
     key_equal := key_equal map; hash_func := hash_func map |}.

(** The slots [0 .. capacity-1], as the loops over the table visit
    them. *)
Definition slots (map : hashmap) : list (option (list hashmap_entry)) :=
  firstn (Z.to_nat (capacity map)) (table map).

Definition slot_entries (slot : option (list hashmap_entry))
  : list hashmap_entry :=
  match slot with Some l => l | None => [] end.

Definition hashmap_rehash_required (map : hashmap) (k : K) : Z :=
  let offset := hash_func map k mod capacity map in
  match table_at map offset with
  | None => 0
  | Some bucket =>
      let new_key_offset := hash_func map k mod (2 * capacity map) in
      fold_left
        (fun rehash entry =>
           let present_key_offset :=
             hash_func map (key entry) mod (2 * capacity map) in
           if negb (new_key_offset =? present_key_offset)
              && (capacity map =? size map)
           then rehash + 1 else rehash)
        bucket 0
  end.

Definition hashmap_init (map : hashmap) (capacity' : Z)
    (key_equal' : option (K -> K -> bool))
    (hash_func' : option (K -> Z)) : hashmap :=
  let cap := if sext 32 capacity' <=? 0 then capacity map else capacity' in
  {| capacity := cap;
     size := 0;
     table := repeat None (Z.to_nat cap);
     key_equal := match key_equal' with
                  | Some f => f
                  | None => hashmap_default_key_equal
                  end;
     hash_func := match hash_func' with
                  | Some f => f
                  | None => default_hash_func
                  end |}.

Definition hashmap_empty (map : hashmap) : bool := size map =? 0.

Definition hashmap_clear (map : hashmap) : hashmap :=
  {| capacity := capacity map; size := 0;
     table := List.map (fun _ => None) (slots map)
              ++ skipn (Z.to_nat (capacity map)) (table map);
     key_equal := key_equal map; hash_func := hash_func map |}.

(** The first entry of a bucket whose key equals [k]. *)
Fixpoint find_entry (eqb : K -> K -> bool) (k : K)
    (bucket : list hashmap_entry) : option hashmap_entry :=
  match bucket with
  | [] => None
  | entry :: next =>
      if eqb (key entry) k then Some entry else find_entry eqb k next
  end.

Definition hashmap_get (map : hashmap) (k : K) : option V :=
  if hashmap_empty map then None
  else
    match table_at map (hash_func map k mod capacity map) with
    | None => None
    | Some bucket =>
        match find_entry (key_equal map) k bucket with
        | Some entry => Some (value entry)
        | None => None
        end
    end.

(** [hashmap_entries], [hashmap_keys], [hashmap_values]: [NULL] for an
    empty map, else the entries of the slots in table order. *)
Definition hashmap_entries (map : hashmap) : option (list hashmap_entry) :=
  if hashmap_empty map then None
  else Some (concat (List.map slot_entries (slots map))).

Definition hashmap_keys (map : hashmap) : option (list K) :=
  if hashmap_empty map then None
  else Some (List.map key (concat (List.map slot_entries (slots map)))).

Definition hashmap_values (map : hashmap) : option (list V) :=
  if hashmap_empty map then None
  else Some (List.map value (concat (List.map slot_entries (slots map)))).

(** The loop of [hashmap_put] over a bucket: the first entry with an
    equal key gets the new value. *)
Fixpoint update_entry (eqb : K -> K -> bool) (k : K) (v : V)
    (bucket : list hashmap_entry) : option (list hashmap_entry) :=
  match bucket with
  | [] => None
  | entry :: next =>
      if eqb (key entry) k
      then Some ({| key := key entry; value := v |} :: next)
      else match update_entry eqb k v next with
           | Some next' => Some (entry :: next')
           | None => None
           end
  end.

(** [hashmap_rehash], over the [hashmap_put] it calls back.  [None]:
    the saved entry list is [NULL] and is dereferenced, or a nested
    call gave no result. *)
Definition hashmap_rehash
    (put : hashmap -> K -> V -> option hashmap)
    (map : hashmap) (capacity' : Z) : option hashmap :=
  match hashmap_entries map with
  | None => None
  | Some entries =>
      let map' :=
        {| capacity := capacity'; size := 0;
           table := repeat None (Z.to_nat capacity');
           key_equal := key_equal map; hash_func := hash_func map |} in
      fold_left
        (fun acc entry =>
           match acc with
           | Some m => put m (key entry) (value entry)
           | None => None
           end)
        entries (Some map')
  end.

(** [hashmap_put].  It calls [hashmap_rehash], which calls it back for
    every saved entry: [fuel] bounds the depth of these calls, and
    [None] is a call that needed more. *)
Fixpoint hashmap_put_fuel (fuel : nat) (map : hashmap) (k : K) (v : V)
  : option hashmap :=
  match fuel with
  | O => None
  | S fuel' =>
      let offset := hash_func map k mod capacity map in
      match table_at map offset with
      | None =>
          Some (set_size
                  (set_table_at map offset
                     (Some [{| key := k; value := v |}]))
                  (size map + 1))
      | Some bucket =>
          match update_entry (key_equal map) k v bucket with
          | Some bucket' => Some (set_table_at map offset (Some bucket'))
          | None =>
              if negb (hashmap_rehash_required map k =? 0) then
                match hashmap_rehash (hashmap_put_fuel fuel') map
                        (2 * capacity map) with
                | Some map' => hashmap_put_fuel fuel' map' k v
                | None => None
                end
              else
                Some (set_size
                        (set_table_at map offset
                           (Some ({| key := k; value := v |} :: bucket)))
                        (size map + 1))
          end
      end
  end.

Definition hashmap_contains_key (map : hashmap) (k : K) : bool :=
  match table_at map (hash_func map k mod capacity map) with
  | None => false
  | Some bucket =>
      match find_entry (key_equal map) k bucket with
      | Some _ => true
      | None => false
      end
  end.

(** The loop of [hashmap_remove] over a bucket: the first entry whose
    key equals [k], and the bucket without it. *)
Fixpoint unlink_entry (eqb : K -> K -> bool) (k : K)
    (bucket : list hashmap_entry)
  : option (hashmap_entry * list hashmap_entry) :=
  match bucket with
  | [] => None
  | entry :: next =>
      if eqb (key entry) k then Some (entry, next)
      else match unlink_entry eqb k next with
           | Some (found, next') => Some (found, entry :: next')
           | None => None
           end
  end.

(** [hashmap_remove]: the entry returned ([None] for [NULL]) and the
    map it leaves.  The loop reads [current_node->data] of the head of
    the bucket before any test: a bucket that is a list without nodes
    makes it dereference [NULL]. *)
Definition hashmap_remove (map : hashmap) (k : K)
  : outcome (option hashmap_entry * hashmap) :=
  if hashmap_empty map then Ok (None, map)
  else
    let offset := hash_func map k mod capacity map in
    match table_at map offset with
    | None => Ok (None, map)
    | Some [] => Undef NullDeref
    | Some bucket =>
        match unlink_entry (key_equal map) k bucket with
        | None => Ok (None, map)
        | Some (del_entry, bucket') =>
            Ok (Some del_entry,
                set_size (set_table_at map offset (Some bucket'))
                  (size map - 1))
        end
    end.

(** [hashmap_init_default]: it passes [default_hash_func], whatever
    its [hash_func] argument is. *)
Definition hashmap_init_default (map : hashmap) (capacity' : Z)
    (key_equal' : option (K -> K -> bool))
    (hash_func' : option (K -> Z)) : hashmap :=
  hashmap_init map capacity' key_equal' (Some default_hash_func).

End Defs.

Arguments hashmap_entry : clear implicits.
Arguments hashmap : clear implicits.

(** A rehash empties a table that was full and doubles it before it
    calls [hashmap_put] again, so the calls nest two deep at most. *)
Definition hashmap_put {K V : Type} (map : hashmap K V) (k : K) (v : V)
  : option (hashmap K V) :=
  hashmap_put_fuel 2 map k v.

End Hashmap.

(** ** The objects a [void *] argument points to

    [dynmessage_put_field_and_value] reads its [value] argument through a
    pointer type chosen by the type of the field.  The object behind the
    pointer is an integer object of some size in bytes, a [float], a
    [double] or a NUL-terminated character array; a read through a
    pointer to a type of another size or kind is undefined. *)

Inductive c_object : Type :=
| Obj_int (nbytes : Z) (bits : Z)
| Obj_float (f : spec_float)
| Obj_double (f : spec_float)
| Obj_chars (s : string).

Definition load_uint (nbytes : Z) (o : c_object) : outcome Z :=
  match o with
  | Obj_int n bits =>
      if n =? nbytes then Ok (wrap (8 * nbytes) bits) else Undef BadAccess
  | Obj_chars s =>
      if nbytes =? 1 then Ok (byte_at (bytes_of_string s) 0)
      else Undef BadAccess
  | _ => Undef BadAccess
  end.

Definition load_sint (nbytes : Z) (o : c_object) : outcome Z :=
  v <- load_uint nbytes o ;; Ok (sext (8 * nbytes) v).

Definition load_float (o : c_object) : outcome spec_float :=
  match o with Obj_float f => Ok f | _ => Undef BadAccess end.

Definition load_double (o : c_object) : outcome spec_float :=
  match o with Obj_double f => Ok f | _ => Undef BadAccess end.

Definition load_chars (o : c_object) : outcome string :=
  match o with Obj_chars s => Ok s | _ => Undef BadAccess end.

(** ** dynmessage.h, dynmessage.c: the dynamic message *)

Module Dynmessage.

(** [dyn_field_type]; a variable of the enumeration type holds any
    [int], and the decoder stores what it reads from the frame. *)
Definition dyn_field_type : Type := Z.

Definition ENUMERATION_TYPE : dyn_field_type := 0.
Definition INT8_TYPE : dyn_field_type := 1.
Definition UNSIGNED_INT8_TYPE : dyn_field_type := 2.
Definition INT16_TYPE : dyn_field_type := 3.
Definition UNSIGNED_INT16_TYPE : dyn_field_type := 4.
Definition INT32_TYPE : dyn_field_type := 5.
Definition UNSIGNED_INT32_TYPE : dyn_field_type := 6.
Definition INT64_TYPE : dyn_field_type := 7.
Definition UNSIGNED_INT64_TYPE : dyn_field_type := 8.
Definition FLOAT32_TYPE : dyn_field_type := 9.
Definition FLOAT64_TYPE : dyn_field_type := 10.
Definition STRING_TYPE : dyn_field_type := 11.
Definition NO_TYPE : dyn_field_type := 12.

Definition DYN_FIELD_TYPE_LEN : Z := 13.

(** A [switch] over a field type: the first case whose label equals
    [ty], else [default] (no case taken). *)
Fixpoint switch {A : Type} (ty : dyn_field_type)
    (cases : list (dyn_field_type * A)) (default : A) : A :=
  match cases with
  | [] => default
  | (label, body) :: rest =>
      if ty =? label then body else switch ty rest default
  end.

(** [dyn_field_value]: the union, as the member last written.
    [no_value] is a union freshly allocated, no member of which was
    written. *)
Inductive dyn_field_value : Type :=
| enum_value (v : Z)            (* unsigned int *)
| int8_value (v : Z)            (* char *)
| uint8_value (v : Z)           (* unsigned char *)
| int16_value (v : Z)           (* int *)
| uint16_value (v : Z)          (* unsigned int *)
| int32_value (v : Z)           (* long *)
| uint32_value (v : Z)          (* unsigned long *)
| int64_value (v : Z)           (* long long *)
| uint64_value (v : Z)          (* unsigned long long *)
| float32_value (f : spec_float)
| float64_value (f : spec_float)
| string_value (s : string)
| no_value.

Record dyn_field : Type := {
  name : option string;            (* char *name *)
  type : dyn_field_type;
  value : option dyn_field_value;  (* dyn_field_value *value *)
  seq : Z
}.

(** [dyn_field_list]; a slot of the array that was never assigned is
    [None]. *)
Record dyn_field_list : Type := {
  list_ : list (option dyn_field);
  list_length : Z
}.

Record dynamicmessage : Type := {
  message_name : option string;                        (* char *name *)
  fields_info : option (Hashmap.hashmap string dyn_field);
  field_count : Z
}.

Definition dynmessage_initialized (message : dynamicmessage) : bool :=
  match fields_info message with
  | Some _ => true
  | None => false
  end.

(** The value [update_field_value] stores for a field of type [ty]
    from the object [obj]: one read through the pointer type of the
    case. *)
Definition read_value (ty : dyn_field_type) (obj : c_object)
    (value_to_store : dyn_field_value) : outcome dyn_field_value :=
  switch ty
    [ (ENUMERATION_TYPE, v <- load_uint 4 obj ;; Ok (enum_value v));
      (INT8_TYPE, v <- load_sint 1 obj ;; Ok (int8_value v));
      (UNSIGNED_INT8_TYPE, v <- load_uint 1 obj ;; Ok (uint8_value v));
      (INT16_TYPE, v <- load_sint 4 obj ;; Ok (int16_value v));
      (UNSIGNED_INT16_TYPE, v <- load_uint 4 obj ;; Ok (uint16_value v));
      (INT32_TYPE, v <- load_sint 8 obj ;; Ok (int32_value v));
      (UNSIGNED_INT32_TYPE, v <- load_uint 8 obj ;; Ok (uint32_value v));
      (INT64_TYPE, v <- load_sint 8 obj ;; Ok (int64_value v));
      (UNSIGNED_INT64_TYPE, v <- load_uint 8 obj ;; Ok (uint64_value v));
      (FLOAT32_TYPE, f <- load_float obj ;; Ok (float32_value f));
      (FLOAT64_TYPE, f <- load_double obj ;; Ok (float64_value f));
      (STRING_TYPE, s <- load_chars obj ;; Ok (string_value (strdup s)));
      (NO_TYPE, Ok value_to_store) ]
    (Ok value_to_store).

Definition set_fields_info (message : dynamicmessage)
    (h : Hashmap.hashmap string dyn_field) : dynamicmessage :=
  {| message_name := message_name message;
     fields_info := Some h;
     field_count := field_count message |}.

Definition update_field_value (message : dynamicmessage) (name' : string)
    (obj : c_object) : outcome dynamicmessage :=
  fields_info' <- deref (fields_info message) ;;
  field <- deref (Hashmap.hashmap_get fields_info' name') ;;
  let value_to_store :=
    match value field with
    | None => no_value        (* SAFE_MALLOC(sizeof(dyn_field_value)) *)
    | Some v => v
    end in
  new_value <- read_value (type field) obj value_to_store ;;
  let field' :=
    {| name := name field; type := type field;
       value := Some new_value; seq := seq field |} in
  h <- terminated (Hashmap.hashmap_put fields_info' name' field') ;;
  Ok (set_fields_info message h).

Definition dynmessage_create : dynamicmessage :=
  {| message_name := None; fields_info := None; field_count := 0 |}.

(** The [hashmap] that [dynmessage_init] allocates, before
    [hashmap_init] fills it. *)
Definition fresh_hashmap : Hashmap.hashmap string dyn_field :=
  {| Hashmap.capacity := 0; Hashmap.size := 0; Hashmap.table := [];
     Hashmap.key_equal := fun _ _ => false;
     Hashmap.hash_func := fun _ => 0 |}.

Definition dynmessage_init (message : dynamicmessage)
    (name' : option string) : dynamicmessage :=
  match name' with
  | Some n =>
      {| message_name := Some (strdup n);
         fields_info :=
           Some (Hashmap.hashmap_init string_word fresh_hashmap 17
                   (Some test_string_equal) None);
         field_count := 0 |}
  | None => message
  end.

Definition dynmessage_put_field_and_value (message : dynamicmessage)
    (name' : option string) (type' : dyn_field_type)
    (value' : option c_object) : outcome dynamicmessage :=
  match fields_info message, name', value' with
  | Some field_info, Some n, Some _ =>
      if (type' <? ENUMERATION_TYPE) || (type' >? STRING_TYPE)
      then Ok message
      else
        message1 <-
          (if negb (Hashmap.hashmap_contains_key field_info n) then
             if field_count message =? INT_MAX then Undef SignedOverflow
             else
               let field :=
                 {| name := Some (strdup n); type := type';
                    value := None; seq := field_count message + 1 |} in
               h <- terminated
                      (Hashmap.hashmap_put field_info (strdup n) field) ;;
               Ok {| message_name := message_name message;
                     fields_info := Some h;
                     field_count := field_count message + 1 |}
           else Ok message) ;;
        match value' with
        | Some obj' => update_field_value message1 n obj'
        | None => Ok message1
        end
  | _, _, _ => Ok message
  end.

(** The macro [dynmessage_put_field(message, name, type)]. *)
Definition dynmessage_put_field (message : dynamicmessage)
    (name' : option string) (type' : dyn_field_type)
  : outcome dynamicmessage :=
  dynmessage_put_field_and_value message name' type' None.

(** [dynmessage_get_field]: the descriptor written through [value]. *)
Definition dynmessage_get_field (message : dynamicmessage)
    (name' : option string) : dyn_field :=
  let field :=
    match fields_info message, name' with
    | Some fields_info', Some n => Hashmap.hashmap_get fields_info' n
    | _, _ => None
    end in
  match field with
  | None => {| name := None; type := NO_TYPE; value := None; seq := -1 |}
  | Some f =>
      {| name := name'; type := type f; value := value f; seq := seq f |}
  end.

(** [temp_array[i] = field;] *)
Definition store_at {A : Type} (array : list (option A)) (i : Z) (x : A)
  : outcome (list (option A)) :=
  if (0 <=? i) && (i <? Z.of_nat (length array))
  then Ok (Hashmap.set_nth (Z.to_nat i) (Some x) array)
  else Undef OutOfBounds.

Definition dynmessage_get_fields (message : dynamicmessage)
  : outcome dyn_field_list :=
  match fields_info message with
  | Some fields_info' =>
      if field_count message >? 0 then
        let temp_array := repeat None (Z.to_nat (field_count message)) in
        field_keys <- deref (Hashmap.hashmap_keys fields_info') ;;
        array <-
          fold_left
            (fun acc n =>
               temp <- acc ;;
               let field := dynmessage_get_field message (Some n) in
               store_at temp (seq field - 1) field)
            field_keys (Ok temp_array) ;;
        Ok {| list_ := array; list_length := field_count message |}
      else Ok {| list_ := []; list_length := 0 |}
  | None => Ok {| list_ := []; list_length := 0 |}
  end.

End Dynmessage.

(** ** cerializer.h, cerializer.c: buffers *)

(** [serialized_data_info]; [ser_data] is [None] for a pointer that
    holds no buffer. *)
Record serialized_data_info : Type := {
  ser_data : option (list Z);
  ser_data_len : Z
}.

(** [strslice(dest, src, start_idx, n)]: the [n] bytes copied, read
    from [src[start_idx .. start_idx + n - 1]]. *)
Definition strslice (src : list Z) (start_idx n : Z) : outcome (list Z) :=
  if (0 <=? start_idx) && (0 <=? n)
     && (start_idx + n <=? Z.of_nat (length src))
  then Ok (firstn (Z.to_nat n) (skipn (Z.to_nat start_idx) src))
  else Undef OutOfBounds.

(** The [n] bytes a decoder reads at the start of [buf]. *)
Definition read_prefix (buf : list Z) (n : Z) : outcome (list Z) :=
  strslice buf 0 n.

(** A write of [bytes] into the buffer [data] at offset [at_]. *)
Definition write_at (data : list Z) (at_ : Z) (bytes : list Z)
  : outcome (list Z) :=
  if (0 <=? at_) && (at_ + Z.of_nat (length bytes) <=? Z.of_nat (length data))
  then Ok (firstn (Z.to_nat at_) data ++ bytes
           ++ skipn (Z.to_nat at_ + length bytes) data)
  else Undef OutOfBounds.

(** [SAFE_MALLOC(n)] of bytes: a block whose content is whatever the
    heap holds, [heap k] at offset [k]. *)
Definition malloc_bytes (heap : nat -> Z) (n : Z) : list Z :=
  List.map heap (seq 0 (Z.to_nat n)).

(** ** dynmessage_cerializer.c: the framed codec *)

Module DynmessageCerializer.

Import Dynmessage.

Definition DYN_MESSAGE_FIXED_LEN : Z := 16.
Definition DYN_FIELD_FIXED_LEN : Z := 16.
Definition DYN_MSG_MIN_LEN : Z := 32.
Definition DYN_MSG_START : Z := 1044266557.
Definition BYTES_4 : Z := 4.
Definition BYTES_8 : Z := 8.

(** The array [DYN_FIELD_TYPE_SER_SIZE[DYN_FIELD_TYPE_LEN]]: eleven
    initialisers in the order of the source, the remaining two elements
    zero. *)
Definition DYN_FIELD_TYPE_SER_SIZE : list Z :=
  [ 4;      (* ENUMERATION_TYPE        *)
    2;      (* SHORT_INT_TYPE          *)
    2;      (* UNSIGNED_SHORT_INT_TYPE *)
    4;      (* INT_TYPE                *)
    4;      (* UNSIGNED_INT_TYPE       *)
    8;      (* LONG_INT_TYPE           *)
    8;      (* UNSIGNED_LONG_INT_TYPE  *)
    4;      (* FLOAT_TYPE              *)
    8;      (* DOUBLE_TYPE             *)
    0;      (* STRING_TYPE             *)
    0       (* NO_TYPE                 *)
  ] ++ repeat 0 (Z.to_nat (DYN_FIELD_TYPE_LEN - 11)).

(** [DYN_FIELD_TYPE_SER_SIZE[ty]]. *)
Definition ser_size (ty : dyn_field_type) : outcome Z :=
  if (0 <=? ty) && (ty <? DYN_FIELD_TYPE_LEN)
  then Ok (nth (Z.to_nat ty) DYN_FIELD_TYPE_SER_SIZE 0)
  else Undef OutOfBounds.

(** [a + b] in [int]. *)
Definition int_add (a b : Z) : outcome Z :=
  if (- INT_MAX - 1 <=? a + b) && (a + b <=? INT_MAX) then Ok (a + b)
  else Undef SignedOverflow.

(** [field->value->string_value]. *)
Definition string_member (field : dyn_field) : outcome string :=
  v <- deref (value field) ;;
  match v with
  | string_value s => Ok s
  | _ => Undef BadAccess
  end.

(** The body of the loop of [calc_dynmessage_serialized_len]. *)
Definition add_field_length (result : Z) (slot : option dyn_field)
  : outcome Z :=
  field <- deref slot ;;
  field_name <- deref (name field) ;;
  size <- ser_size (type field) ;;
  let field_length :=
    sext 32 (wrap 64 (DYN_FIELD_FIXED_LEN + strlen field_name + size)) in
  field_length <-
    (if type field =? STRING_TYPE then
       s <- string_member field ;;
       Ok (sext 32 (wrap 64 (field_length + strlen s)))
     else Ok field_length) ;;
  int_add result field_length.

Definition calc_dynmessage_serialized_len (message : dynamicmessage)
  : outcome Z :=
  field_list <- dynmessage_get_fields message ;;
  if list_length field_list >? 0 then
    message_name' <- deref (message_name message) ;;
    let result :=
      sext 32 (wrap 64 (DYN_MESSAGE_FIXED_LEN + strlen message_name')) in
    fold_left
      (fun acc slot => result <- acc ;; add_field_length result slot)
      (firstn (Z.to_nat (list_length field_list)) (list_ field_list))
      (Ok result)
  else Ok 0.

Definition verify_dynmessage_start (data : option (list Z)) (data_len : Z)
  : outcome bool :=
  match data with
  | Some bytes =>
      if data_len >=? BYTES_4 then
        buf <- read_prefix bytes 4 ;;
        let dynmessage_start := sext 32 (Cerializer.deserialize_int32 buf) in
        Ok (dynmessage_start =? DYN_MSG_START)
      else Ok false
  | None => Ok false
  end.

Definition get_encoded_dynmessage_length (data : option (list Z))
    (data_len : Z) : outcome Z :=
  match data with
  | Some bytes =>
      if data_len >=? BYTES_8 then
        buffer <- strslice bytes BYTES_4 BYTES_4 ;;
        Ok (sext 32 (Cerializer.deserialize_int32 buffer))
      else Ok 0
  | None => Ok 0
  end.

Definition verify_full_dynmessage (data : option (list Z)) (data_len : Z)
  : outcome bool :=
  started <- verify_dynmessage_start data data_len ;;
  if started then
    dynmessage_length <- get_encoded_dynmessage_length data data_len ;;
    Ok (dynmessage_length <=? data_len)
  else Ok false.

(** The four bytes at [start_idx], decoded as [(int)deserialize_int32]. *)
Definition read_int32 (data : list Z) (start_idx : Z) : outcome Z :=
  buffer4 <- strslice data start_idx BYTES_4 ;;
  Ok (sext 32 (Cerializer.deserialize_int32 buffer4)).

(** The [switch] of the decoder over the type of the field: the one
    [dynmessage_put_..._field_value] call of the case taken. *)
Definition put_decoded_value (dyn_message : dynamicmessage)
    (field_name : string) (field_type : dyn_field_type)
    (field_value_buffer : list Z) (len : Z) : outcome dynamicmessage :=
  let put ty nbytes decode :=
    buf <- read_prefix field_value_buffer nbytes ;;
    dynmessage_put_field_and_value dyn_message (Some field_name) ty
      (Some (decode buf)) in
  switch field_type
    [ (ENUMERATION_TYPE,
       put ENUMERATION_TYPE 4 (fun buf =>
         let int_value := sext 32 (Cerializer.deserialize_int32 buf) in
         Obj_int 4 (wrap 32 int_value)));
      (INT16_TYPE,
       put INT16_TYPE 2 (fun buf =>
         let short_value := sext 16 (Cerializer.deserialize_int16 buf) in
         Obj_int 2 (wrap 16 short_value)));
      (UNSIGNED_INT16_TYPE,
       put UNSIGNED_INT16_TYPE 2 (fun buf =>
         let int_value := sext 32 (Cerializer.deserialize_uint16 buf) in
         Obj_int 4 (wrap 32 int_value)));
      (INT32_TYPE,
       put INT32_TYPE 4 (fun buf =>
         let long_value := Cerializer.deserialize_int32 buf in
         Obj_int 8 (wrap 64 long_value)));
      (UNSIGNED_INT32_TYPE,
       put UNSIGNED_INT32_TYPE 4 (fun buf =>
         let long_value := sext 64 (Cerializer.deserialize_uint32 buf) in
         Obj_int 8 (wrap 64 long_value)));
      (INT64_TYPE,
       put INT64_TYPE 8 (fun buf =>
         let long_long_value := Cerializer.deserialize_int64 buf in
         Obj_int 8 (wrap 64 long_long_value)));
      (UNSIGNED_INT64_TYPE,
       put UNSIGNED_INT64_TYPE 8 (fun buf =>
         let ulong_long_value := Cerializer.deserialize_uint64 buf in
         Obj_int 8 ulong_long_value));
      (FLOAT32_TYPE,
       put FLOAT32_TYPE 4 (fun buf =>
         Obj_float (Float754.to_float (Float754.deserialize_float32 buf))));
      (FLOAT64_TYPE,
       put FLOAT64_TYPE 8 (fun buf =>
         Obj_double (Float754.deserialize_float64 buf)));
      (STRING_TYPE,
       string_value' <- strslice field_value_buffer 0 len ;;
       dynmessage_put_field_and_value dyn_message (Some field_name)
         STRING_TYPE (Some (Obj_chars (cstring_of_bytes string_value'))));
      (NO_TYPE, Ok dyn_message) ]
    (Ok dyn_message).

(** One turn of the loop over the field sub-frames: the message and
    [start_idx] after it. *)
Definition deserialize_field (data : list Z)
    (state : dynamicmessage * Z) : outcome (dynamicmessage * Z) :=
  let '(dyn_message, start_idx) := state in
  field_length <- read_int32 data start_idx ;;
  let start_idx := start_idx + BYTES_4 in
  len <- read_int32 data start_idx ;;
  let start_idx := start_idx + BYTES_4 in
  field_name <- strslice data start_idx len ;;
  let field_name := cstring_of_bytes field_name in
  let start_idx := start_idx + len in
  field_type <- read_int32 data start_idx ;;
  let start_idx := start_idx + BYTES_4 in
  len <- read_int32 data start_idx ;;
  dyn_message <- dynmessage_put_field dyn_message (Some field_name) field_type ;;
  let start_idx := start_idx + BYTES_4 in
  field_value_buffer <- strslice data start_idx len ;;
  dyn_message <-
    put_decoded_value dyn_message field_name field_type
      field_value_buffer len ;;
  Ok (dyn_message, start_idx + len).

(** [dynmessage_deserialize_bin]: [Ok None] is the [NULL] result. *)
Definition dynmessage_deserialize_bin (data : option (list Z))
    (data_len : Z) : outcome (option dynamicmessage) :=
  verified <- verify_full_dynmessage data data_len ;;
  if verified then
    bytes <- deref data ;;
    let start_idx := BYTES_8 in
    len <- read_int32 bytes start_idx ;;
    let start_idx := start_idx + BYTES_4 in
    message_name' <- strslice bytes start_idx len ;;
    let dyn_message :=
      dynmessage_init dynmessage_create
        (Some (cstring_of_bytes message_name')) in
    let start_idx := start_idx + len in
    field_count' <- read_int32 bytes start_idx ;;
    let start_idx := start_idx + BYTES_4 in
    if field_count' >? 0 then
      '(dyn_message, _) <-
        Nat.iter (Z.to_nat field_count')
          (fun acc => state <- acc ;; deserialize_field bytes state)
          (Ok (dyn_message, start_idx)) ;;
      Ok (Some dyn_message)
    else
      (* log_error_format(..., message_name) after SAFE_FREE(message_name) *)
      Undef BadAccess
  else Ok None.

(** The bytes of the value of a field, as the [switch] of the
    serializer writes them. *)
Definition value_bytes (field : dyn_field) (value_size : Z)
  : outcome (list Z) :=
  let member (pick : dyn_field_value -> option (outcome (list Z))) :=
    v <- deref (value field) ;;
    match pick v with
    | Some bytes => bytes
    | None => Undef BadAccess
    end in
  switch (type field)
    [ (ENUMERATION_TYPE,
       member (fun v => match v with
         | enum_value x => Some (Ok (Cerializer.serialize_int32 x))
         | _ => None end));
      (INT16_TYPE,
       member (fun v => match v with
         | int16_value x => Some (Ok (Cerializer.serialize_int16 x))
         | _ => None end));
      (UNSIGNED_INT16_TYPE,
       member (fun v => match v with
         | uint16_value x => Some (Ok (Cerializer.serialize_int16 x))
         | _ => None end));
      (INT32_TYPE,
       member (fun v => match v with
         | int32_value x => Some (Ok (Cerializer.serialize_int32 x))
         | _ => None end));
      (UNSIGNED_INT32_TYPE,
       member (fun v => match v with
         | uint32_value x => Some (Ok (Cerializer.serialize_int32 x))
         | _ => None end));
      (INT64_TYPE,
       member (fun v => match v with
         | int64_value x => Some (Ok (Cerializer.serialize_int64 x))
         | _ => None end));
      (UNSIGNED_INT64_TYPE,
       member (fun v => match v with
         | uint64_value x => Some (Ok (Cerializer.serialize_int64 x))
         | _ => None end));
      (FLOAT32_TYPE,
       member (fun v => match v with
         | float32_value f => Some (Float754.serialize_float32 f)
         | _ => None end));
      (FLOAT64_TYPE,
       member (fun v => match v with
         | float64_value f => Some (Float754.serialize_float64 f)
         | _ => None end));
      (STRING_TYPE,
       s <- string_member field ;;
       read_prefix (bytes_of_string s) value_size);
      (NO_TYPE, Ok []) ]
    (Ok []).

(** One turn of the loop of the serializer over the field list: the
    buffer and the offset of [data] in it. *)
Definition serialize_field (state : list Z * Z) (slot : option dyn_field)
  : outcome (list Z * Z) :=
  let '(buffer, data) := state in
  field <- deref slot ;;
  field_name <- deref (name field) ;;
  value_size <- ser_size (type field) ;;
  value_size <-
    (if type field =? STRING_TYPE then
       s <- string_member field ;; Ok (sext 32 (wrap 64 (strlen s)))
     else Ok (sext 32 value_size)) ;;
  let len :=
    sext 32 (wrap 64 (DYN_FIELD_FIXED_LEN + strlen field_name + value_size)) in
  buffer <- write_at buffer data (Cerializer.serialize_int32 len) ;;
  let data := data + BYTES_4 in
  let len := sext 32 (strlen field_name) in
  buffer <- write_at buffer data (Cerializer.serialize_int32 len) ;;
  let data := data + BYTES_4 in
  name_bytes <- read_prefix (bytes_of_string field_name) len ;;
  buffer <- write_at buffer data name_bytes ;;
  let data := data + len in
  buffer <- write_at buffer data (Cerializer.serialize_int32 (type field)) ;;
  let data := data + BYTES_4 in
  buffer <- write_at buffer data (Cerializer.serialize_int32 value_size) ;;
  let data := data + BYTES_4 in
  bytes <- value_bytes field value_size ;;
  buffer <- write_at buffer data bytes ;;
  Ok (buffer, data + value_size).

(** [dynmessage_serialize_bin(object, serdi)]: the [serdi] it leaves.
    [heap] is the content of the block the buffer is allocated in. *)
Definition dynmessage_serialize_bin (heap : nat -> Z)
    (message : dynamicmessage) (serdi : serialized_data_info)
  : outcome serialized_data_info :=
  message_length <- calc_dynmessage_serialized_len message ;;
  if message_length >? DYN_MSG_MIN_LEN then
    let buffer := malloc_bytes heap message_length in
    let data := 0 in
    buffer <- write_at buffer data (Cerializer.serialize_int32 DYN_MSG_START) ;;
    let data := data + BYTES_4 in
    buffer <- write_at buffer data (Cerializer.serialize_int32 message_length) ;;
    let data := data + BYTES_4 in
    message_name' <- deref (message_name message) ;;
    let len := sext 32 (strlen message_name') in
    buffer <- write_at buffer data (Cerializer.serialize_int32 len) ;;
    let data := data + BYTES_4 in
    name_bytes <- read_prefix (bytes_of_string message_name') len ;;
    buffer <- write_at buffer data name_bytes ;;
    let data := data + len in
    buffer <- write_at buffer data
                (Cerializer.serialize_int32 (field_count message)) ;;
    let data := data + BYTES_4 in
    field_list <- dynmessage_get_fields message ;;
    '(buffer, _) <-
      fold_left
        (fun acc slot => state <- acc ;; serialize_field state slot)
        (firstn (Z.to_nat (list_length field_list)) (list_ field_list))
        (Ok (buffer, data)) ;;
    Ok {| ser_data := Some buffer; ser_data_len := message_length |}
  else Ok serdi.

End DynmessageCerializer.

(** ** slinkedlist.h, slinkedlist.c: a singly linked list

    The nodes reachable from [head] through [next] are a list of their
    [data]; [head] is [NULL] when it is empty.  [tail] is a pointer of
    its own: it is [NULL], or it points to the node at some position of
    the chain, or to a node that was freed.  [size] is a [size_t]
    counter of nodes that were each allocated, so it does not wrap. *)

Module Slinkedlist.

Inductive node_ptr : Type :=
| Null
| Node (i : nat)
| Freed.

Section Defs.
Context {A : Type}.

Record slinkedlist : Type := {
  nodes : list A;
  size : Z;
  tail : node_ptr
}.

Definition slinkedlist_empty (list : slinkedlist) : bool := size list =? 0.

(** [slinkedlist_init]: what it writes into the list. *)
Definition slinkedlist_init : slinkedlist :=
  {| nodes := []; size := 0; tail := Null |}.

Definition slinkedlist_create : slinkedlist := slinkedlist_init.

(** [slinkedlist_append]: on a list with a head the new node is linked
    after the node [tail] points to, whichever that is. *)
Definition slinkedlist_append (list : slinkedlist) (data : A)
  : outcome slinkedlist :=
  match nodes list with
  | [] => Ok {| nodes := [data]; size := size list + 1; tail := Node 0 |}
  | _ :: _ =>
      match tail list with
      | Null => Undef NullDeref
      | Freed => Undef BadAccess
      | Node i =>
          if (i <? length (nodes list))%nat then
            Ok {| nodes := firstn (S i) (nodes list) ++ [data];
                  size := size list + 1;
                  tail := Node (S i) |}
          else Undef BadAccess
      end
  end.

(** [slinkedlist_prepend]: it does not write [tail]. *)
Definition slinkedlist_prepend (list : slinkedlist) (data : A)
  : slinkedlist :=
  {| nodes := data :: nodes list;
     size := size list + 1;
     tail := match tail list with
             | Node i => Node (S i)
             | other => other
             end |}.

(** [slinkedlist_contains]; [eqb] is the comparison [it->data == data]
    of the two references. *)
Definition slinkedlist_contains (eqb : A -> A -> bool)
    (list : slinkedlist) (data : A) : Z :=
  if slinkedlist_empty list then 0
  else if existsb (fun d => eqb d data) (nodes list) then 1 else 0.

(** [slinkedlist_delete_head]: the data returned ([None] for [NULL])
    and the list it leaves. *)
Definition slinkedlist_delete_head (list : slinkedlist)
  : outcome (option A * slinkedlist) :=
  if slinkedlist_empty list then Ok (None, list)
  else
    match nodes list with
    | [] => Undef NullDeref
    | data :: rest =>
        let size' := size list - 1 in
        Ok (Some data,
            {| nodes := rest; size := size';
               tail := if size' =? 0 then Null
                       else match tail list with
                            | Node O => Freed
                            | Node (S i) => Node i
                            | other => other
                            end |})
    end.

(** [slinkedlist_delete_tail]. *)
Definition slinkedlist_delete_tail (list : slinkedlist)
  : outcome (option A * slinkedlist) :=
  if slinkedlist_empty list then Ok (None, list)
  else
    match nodes list with
    | [] => Undef NullDeref
    | [data] =>
        Ok (Some data, {| nodes := []; size := size list - 1; tail := Null |})
    | data :: rest =>
        Ok (Some (last rest data),
            {| nodes := removelast (data :: rest);
               size := size list - 1;
               tail := Node (length rest - 1) |})
    end.

(** The position of the first node whose data is [data]. *)
Fixpoint find_node (eqb : A -> A -> bool) (data : A) (chain : list A)
  : option nat :=
  match chain with
  | [] => None
  | d :: rest =>
      if eqb d data then Some O
      else match find_node eqb data rest with
           | Some j => Some (S j)
           | None => None
           end
  end.

(** The chain without its node at position [j]. *)
Fixpoint unlink (j : nat) (chain : list A) : list A :=
  match chain, j with
  | [], _ => []
  | _ :: rest, O => rest
  | d :: rest, S j' => d :: unlink j' rest
  end.

(** [slinkedlist_delete_data]: the result and the list it leaves. *)
Definition slinkedlist_delete_data (eqb : A -> A -> bool)
    (list : slinkedlist) (data : A) : outcome (Z * slinkedlist) :=
  if slinkedlist_empty list then Ok (0, list)
  else
    match nodes list with
    | [] => Undef NullDeref
    | _ :: _ =>
        match find_node eqb data (nodes list) with
        | None => Ok (0, list)
        | Some j =>
            Ok (1,
                {| nodes := unlink j (nodes list);
                   size := size list - 1;
                   tail := match tail list with
                           | Node i =>
                               if (i =? j)%nat then
                                 match j with
                                 | O => Null
                                 | S j' => Node j'
                                 end
                               else if (j <? i)%nat then Node (i - 1)
                               else Node i
                           | other => other
                           end |})
        end
    end.

(** [slinkedlist_reverse]: [tail] becomes the old head. *)
Definition slinkedlist_reverse (list : slinkedlist) : slinkedlist :=
  if slinkedlist_empty list then list
  else
    {| nodes := rev (nodes list);
       size := size list;
       tail := match nodes list with
               | [] => Null
               | _ :: _ => Node (length (nodes list) - 1)
               end |}.

(** [slinkedlist_to_array]: [None] for [NULL]; the array has [size]
    slots and the loop fills one for each node. *)
Definition slinkedlist_to_array (list : slinkedlist)
  : outcome (option (Datatypes.list (option A))) :=
  if slinkedlist_empty list then Ok None
  else if (length (nodes list) <=? Z.to_nat (size list))%nat then
    Ok (Some (List.map Some (nodes list)
              ++ repeat None (Z.to_nat (size list) - length (nodes list))))
  else Undef OutOfBounds.

(** [slinkedlist_free]: the list it leaves. *)
Definition slinkedlist_free (list : slinkedlist) : outcome slinkedlist :=
  if slinkedlist_empty list then Ok slinkedlist_init
  else
    match nodes list with
    | [] => Undef NullDeref
    | _ :: _ => Ok slinkedlist_init
    end.

End Defs.

Arguments slinkedlist : clear implicits.

End Slinkedlist.

(** * Specification vocabulary *)

(** ** Integer kinds of the primitive codec *)

Inductive int_kind : Type := I16 | U16 | I32 | U32 | I64 | U64.

Definition kind_bits (k : int_kind) : Z :=
  match k with
  | I16 | U16 => 16
  | I32 | U32 => 32
  | I64 | U64 => 64
  end.

Definition kind_signed (k : int_kind) : bool :=
  match k with
  | I16 | I32 | I64 => true
  | U16 | U32 | U64 => false
  end.

(** The representable range of a kind. *)
Definition in_range (k : int_kind) (x : Z) : Prop :=
  if kind_signed k
  then - 2 ^ (kind_bits k - 1) <= x < 2 ^ (kind_bits k - 1)
  else 0 <= x < 2 ^ kind_bits k.

(** The [serialize_...] and [deserialize_...] function of a kind. *)
Definition pack (k : int_kind) (x : Z) : list Z :=
  match k with
  | I16 | U16 => Cerializer.serialize_int16 x
  | I32 | U32 => Cerializer.serialize_int32 x
  | I64 | U64 => Cerializer.serialize_int64 x
  end.

Definition unpack (k : int_kind) (buf : list Z) : Z :=
  match k with
  | I16 => Cerializer.deserialize_int16 buf
  | U16 => Cerializer.deserialize_uint16 buf
  | I32 => Cerializer.deserialize_int32 buf
  | U32 => Cerializer.deserialize_uint32 buf
  | I64 => Cerializer.deserialize_int64 buf
  | U64 => Cerializer.deserialize_uint64 buf
  end.

Definition is_byte (b : Z) : Prop := 0 <= b < 256.

(** A buffer that holds a value of kind [k]: its bytes, and no more. *)
Definition is_field (k : int_kind) (buf : list Z) : Prop :=
  Z.of_nat (length buf) * 8 = kind_bits k /\ Forall is_byte buf.

(** The integer a big-endian field of kind [k] stands for: the
    two's-complement sign extension for a signed kind. *)
Definition field_value (k : int_kind) (buf : list Z) : Z :=
  if kind_signed k then sext (kind_bits k) (be_value buf) else be_value buf.

(** ** Well-formed hash maps *)

Section HashmapVocabulary.
Context {K V : Type}.
Implicit Types (h : Hashmap.hashmap K V) (k : K) (v : V).

(** The entries of a map, in table order. *)
Definition entries h : list (Hashmap.hashmap_entry K V) :=
  concat (List.map Hashmap.slot_entries (Hashmap.slots h)).

Definition keys h : list K := List.map Hashmap.key (entries h).

(** The representation invariant of [hashmap]: the table has
    [capacity] slots, [size] counts the entries, an entry is in the
    bucket its hash selects, no key occurs twice, and [key_equal]
    decides equality of keys. *)
Record wf h : Prop := {
  wf_cap : 0 < Hashmap.capacity h;
  wf_len : length (Hashmap.table h) = Z.to_nat (Hashmap.capacity h);
  wf_size : Hashmap.size h = Z.of_nat (length (entries h));
  wf_slot : forall i e,
    In e (Hashmap.slot_entries (nth i (Hashmap.table h) None)) ->
    Hashmap.hash_func h (Hashmap.key e) mod Hashmap.capacity h = Z.of_nat i;
  wf_nodup : NoDup (keys h);
  wf_eq : forall k1 k2, Hashmap.key_equal h k1 k2 = true <-> k1 = k2
}.

(** The map after [k] is linked in front of its bucket. *)
Definition linked h k v : Hashmap.hashmap K V :=
  let offset := Hashmap.hash_func h k mod Hashmap.capacity h in
  Hashmap.set_size
    (Hashmap.set_table_at h offset
       (Some ({| Hashmap.key := k; Hashmap.value := v |}
              :: Hashmap.slot_entries (Hashmap.table_at h offset))))
    (Hashmap.size h + 1).

(** The empty table of [capacity'] slots a rehash starts from. *)
Definition emptied h (capacity' : Z) : Hashmap.hashmap K V :=
  {| Hashmap.capacity := capacity'; Hashmap.size := 0;
     Hashmap.table := repeat None (Z.to_nat capacity');
     Hashmap.key_equal := Hashmap.key_equal h;
     Hashmap.hash_func := Hashmap.hash_func h |}.

(** The loop of [hashmap_rehash] over the saved entries. *)
Definition put_all
    (put : Hashmap.hashmap K V -> K -> V -> option (Hashmap.hashmap K V))
    (es : list (Hashmap.hashmap_entry K V))
    (start : option (Hashmap.hashmap K V)) : option (Hashmap.hashmap K V) :=
  fold_left
    (fun acc entry =>
       match acc with
       | Some m => put m (Hashmap.key entry) (Hashmap.value entry)
       | None => None
       end) es start.

End HashmapVocabulary.

(** ** Messages built by the public operations *)

Import Dynmessage.

(** The entries of the field table of a message. *)
Definition stored (m : dynamicmessage)
  : list (Hashmap.hashmap_entry string dyn_field) :=
  match fields_info m with
  | Some h => entries h
  | None => []
  end.

(** The fields a message holds, as [hashmap_values] lists them. *)
Definition fields (m : dynamicmessage) : list dyn_field :=
  match fields_info m with
  | Some h =>
      match Hashmap.hashmap_values h with
      | Some l => l
      | None => []
      end
  | None => []
  end.

(** The range test of [dynmessage_put_field_and_value]. *)
Definition valid_type (ty : dyn_field_type) : Prop :=
  ENUMERATION_TYPE <= ty <= STRING_TYPE.

(** The union [update_field_value] writes into. *)
Definition value_to_store (f : dyn_field) : dyn_field_value :=
  match value f with
  | Some v => v
  | None => no_value
  end.

Definition with_value (f : dyn_field) (v : dyn_field_value) : dyn_field :=
  {| name := name f; type := type f; value := Some v; seq := seq f |}.

(** The list [1; 2; ...; n]. *)
Definition seq_range (n : nat) : list Z := List.map Z.of_nat (List.seq 1 n).

(** A message is reachable when [dynmessage_init] and then any number
    of [dynmessage_put_field_and_value] calls (the [dynmessage_put_...]
    macros are such calls) produce it.  The readers do not change a
    message; [dynmessage_free] and [dynmessage_destroy] end its life. *)
Inductive reachable : dynamicmessage -> Prop :=
| reach_init (m : dynamicmessage) (n : string) :
    reachable (dynmessage_init m (Some n))
| reach_put (m m' : dynamicmessage) (n : option string)
    (ty : dyn_field_type) (v : option c_object) :
    reachable m ->
    dynmessage_put_field_and_value m n ty v = Ok m' ->
    reachable m'.

(** A name of seven characters or more: the eight bytes
    [default_hash_func] reads at its address are bytes of the string,
    the same ones at the caller's pointer and in the copy the table
    keeps as key.  For a shorter name the read leaves the string; the
    call is undefined in C, and what it finds is no function of the
    name. *)
Definition word_sized (n : string) : Prop := 7 <= strlen n.

(** The messages [dynmessage_init] and then any number of
    [dynmessage_put_field_and_value] calls with word-sized names
    produce.  A call that returns at the sanity check or at the range
    test of the type hashes nothing and leaves the message as it is, so
    with any name it leads to no other message than these.  *)
Inductive built : dynamicmessage -> Prop :=
| built_init (m : dynamicmessage) (n : string) :
    built (dynmessage_init m (Some n))
| built_put (m m' : dynamicmessage) (n : string)
    (ty : dyn_field_type) (v : option c_object) :
    built m ->
    word_sized n ->
    dynmessage_put_field_and_value m (Some n) ty v = Ok m' ->
    built m'.

(** The invariant of reachable messages. *)
Record msg_inv (m : dynamicmessage) : Prop := {
  inv_map : exists h, fields_info m = Some h /\ wf h;
  inv_count : field_count m = Z.of_nat (length (stored m));
  inv_bound : field_count m <= INT_MAX;
  inv_field : forall e, In e (stored m) ->
      name (Hashmap.value e) = Some (Hashmap.key e) /\
      valid_type (type (Hashmap.value e)) /\
      exists v, value (Hashmap.value e) = Some v;
  inv_seq : Permutation (List.map (fun e => seq (Hashmap.value e)) (stored m))
              (seq_range (length (stored m)))
}.

(** What one [dynmessage_put_field_and_value] that changes the message
    does to the entries it stores. *)
Inductive put_effect (m m' : dynamicmessage) (n : string)
    (ty : dyn_field_type) : Prop :=
| put_new (nv : dyn_field_value) :
    ~ In n (List.map Hashmap.key (stored m)) ->
    field_count m' = field_count m + 1 ->
    field_count m < INT_MAX ->
    Permutation (stored m')
      ({| Hashmap.key := n;
          Hashmap.value := {| name := Some n; type := ty; value := Some nv;
                              seq := field_count m + 1 |} |} :: stored m) ->
    put_effect m m' n ty
| put_replace (f : dyn_field) (nv : dyn_field_value)
    (es : list (Hashmap.hashmap_entry string dyn_field)) :
    field_count m' = field_count m ->
    Permutation (stored m) ({| Hashmap.key := n; Hashmap.value := f |} :: es) ->
    Permutation (stored m')
      ({| Hashmap.key := n; Hashmap.value := with_value f nv |} :: es) ->
    put_effect m m' n ty.

(** The loop of [dynmessage_get_fields] over the descriptors. *)
Definition fill (fs : list dyn_field)
    (temp : outcome (list (option dyn_field)))
  : outcome (list (option dyn_field)) :=
  fold_left
    (fun acc field => temp <- acc ;; store_at temp (seq field - 1) field)
    fs temp.

(** ** The length formula of the specification *)

(** Following the specification: [fixed_size: ENUM=4, I16=2, U16=2,
    I32=4, U32=4, I64=8, U64=8, F32=4, F64=8], and 0 for the others. *)
Definition spec_fixed_size (ty : dyn_field_type) : Z :=
  switch ty
    [ (ENUMERATION_TYPE, 4); (INT16_TYPE, 2); (UNSIGNED_INT16_TYPE, 2);
      (INT32_TYPE, 4); (UNSIGNED_INT32_TYPE, 4); (INT64_TYPE, 8);
      (UNSIGNED_INT64_TYPE, 8); (FLOAT32_TYPE, 4); (FLOAT64_TYPE, 8) ]
    0.

(** Following the specification: [value_size(f)] is the fixed size of
    the type, or the length of the string for a STRING field. *)
Definition spec_value_size (f : dyn_field) : Z :=
  if type f =? STRING_TYPE then
    match value f with
    | Some (string_value s) => strlen s
    | _ => 0
    end
  else spec_fixed_size (type f).

Definition spec_field_length (f : dyn_field) : Z :=
  16 + match name f with Some n => strlen n | None => 0 end
  + spec_value_size f.

(** Following the specification:
    [calc_serialized_len(msg) = 16 + len(msg.name) + sum of field_length]. *)
Definition spec_serialized_len (m : dynamicmessage) : Z :=
  16 + match message_name m with Some n => strlen n | None => 0 end
  + fold_right (fun f acc => spec_field_length f + acc) 0 (fields m).

(** ** Sample messages and frames *)

Definition unset_serdi : serialized_data_info :=
  {| ser_data := None; ser_data_len := 0 |}.

Definition zero_heap : nat -> Z := fun _ => 0.

(** The messages the calls
    [dynmessage_init(m, name); dynmessage_put_field_and_value(m, ...); ...]
    build. *)
Definition build (message_name' : string)
    (puts : list (string * dyn_field_type * c_object))
  : outcome dynamicmessage :=
  fold_left
    (fun acc p =>
       m <- acc ;;
       dynmessage_put_field_and_value m (Some (fst (fst p))) (snd (fst p))
         (Some (snd p)))
    puts (Ok (dynmessage_init dynmessage_create (Some message_name'))).

(** [dynmessage_serialize_bin] into an unset [serialized_data_info],
    then [dynmessage_deserialize_bin] of what it holds. *)
Definition roundtrip (heap : nat -> Z) (m : dynamicmessage)
  : outcome (option dynamicmessage) :=
  serdi <- DynmessageCerializer.dynmessage_serialize_bin heap m unset_serdi ;;
  DynmessageCerializer.dynmessage_deserialize_bin
    (ser_data serdi) (ser_data_len serdi).

(** The magic constant alone: a four-byte input. *)
Definition magic_only : list Z := [0x3E; 0x3E; 0x3E; 0x3D].

(** A frame of the message ["m"] with one sub-frame: a field ["a"] of
    type ordinal 1 ([INT8_TYPE]) and one value byte. *)
Definition int8_frame : list Z :=
  [0x3E; 0x3E; 0x3E; 0x3D;  0; 0; 0; 35;  0; 0; 0; 1;  109;  0; 0; 0; 1;
   0; 0; 0; 18;  0; 0; 0; 1;  97;  0; 0; 0; 1;  0; 0; 0; 1;  5].

(** A frame of the message ["m"] with two sub-frames: a field
    ["reserved"] of the unknown type ordinal 99 with three value bytes,
    then a field ["sequence"] of type ordinal 5 ([INT32_TYPE]) with the
    value 7. *)
Definition unknown_type_frame : list Z :=
  [0x3E; 0x3E; 0x3E; 0x3D;  0; 0; 0; 72;  0; 0; 0; 1;  109;  0; 0; 0; 2;
   0; 0; 0; 27;  0; 0; 0; 8;  114; 101; 115; 101; 114; 118; 101; 100;
   0; 0; 0; 99;  0; 0; 0; 3;  1; 2; 3;
   0; 0; 0; 28;  0; 0; 0; 8;  115; 101; 113; 117; 101; 110; 99; 101;
   0; 0; 0; 5;  0; 0; 0; 4;  0; 0; 0; 7].

(** What a test reads off a decoded message: its name, its
    [field_count] and its field list. *)
Definition observe (r : option dynamicmessage)
  : outcome (option (option string * Z * list (option dyn_field))) :=
  match r with
  | None => Ok None
  | Some m =>
      l <- dynmessage_get_fields m ;;
      Ok (Some (message_name m, field_count m, list_ l))
  end.

(** The message of an outcome that is known to be defined. *)
Definition from_ok (r : outcome dynamicmessage) : dynamicmessage :=
  match r with
  | Ok m => m
  | Undef _ => dynmessage_create
  end.

(** The values 1.25 as a [float] and 2.375 as a [double]. *)
Definition float_1_25 : spec_float :=
  binary_normalize Float754.float_prec Float754.float_emax 5 (-2) false.
Definition double_2_375 : spec_float :=
  binary_normalize Float754.double_prec Float754.double_emax 19 (-3) false.


(** The message of examples/heartbeat_message.c, with the time stamps
    of the scenario of the specification.  The fields are given here as
    objects of the type each field reads ([long] for an INT32 field). *)
Definition heartbeat : outcome dynamicmessage :=
  build "Heartbeat"
    [ ("message_source", INT32_TYPE, Obj_int 8 1);
      ("message_destination", INT32_TYPE, Obj_int 8 0);
      ("message_id", INT32_TYPE, Obj_int 8 6);
      ("message_name", STRING_TYPE, Obj_chars "Heartbeat");
      ("message_counter", INT32_TYPE, Obj_int 8 1);
      ("time_stamp", UNSIGNED_INT32_TYPE, Obj_int 8 1700000000);
      ("time_stamp_us", UNSIGNED_INT32_TYPE, Obj_int 8 123456);
      ("message_version", FLOAT32_TYPE, Obj_float float_1_25);
      ("system_version", FLOAT64_TYPE, Obj_double double_2_375) ]%string.

(** A message with one INT16 field, and one with an INT64 field
    followed by an INT32 field. *)
Definition int16_message : outcome dynamicmessage :=
  build "m" [("a", INT16_TYPE, Obj_int 4 5)]%string.

Definition int64_message : outcome dynamicmessage :=
  build "m" [("a", INT64_TYPE, Obj_int 8 1);
             ("b", INT32_TYPE, Obj_int 8 7)]%string.

(** A message with one INT32 field ["f"] of value 7. *)
Definition sample_message : dynamicmessage :=
  from_ok (build "m" [("f", INT32_TYPE, Obj_int 8 7)]%string).

(** A message with three fields whose names have eight characters: an
    INT32 field of value 7, a 16-bit unsigned field of value 300 and a
    string field. *)
Definition sized_message : dynamicmessage :=
  from_ok (build "telemetry"
             [ ("velocity", INT32_TYPE, Obj_int 8 7);
               ("altitude", UNSIGNED_INT16_TYPE, Obj_int 4 300);
               ("callsign", STRING_TYPE, Obj_chars "kestrel") ]%string).

(** Whether an outcome is defined. *)
Definition is_ok {A : Type} (r : outcome A) : bool :=
  match r with
  | Ok _ => true
  | Undef _ => false
  end.

Definition sized_table : Hashmap.hashmap string dyn_field :=
  match fields_info sized_message with
  | Some h => h
  | None => fresh_hashmap
  end.

(** ** Linked lists in a consistent state *)

Section SlinkedlistVocabulary.
Context {A : Type}.

(** [size] counts the nodes and [tail] points to the last one ([NULL]
    when there is none). *)
Definition proper (l : Slinkedlist.slinkedlist A) : Prop :=
  Slinkedlist.size l = Z.of_nat (length (Slinkedlist.nodes l)) /\
  Slinkedlist.tail l =
    match Slinkedlist.nodes l with
    | [] => Slinkedlist.Null
    | _ :: _ => Slinkedlist.Node (length (Slinkedlist.nodes l) - 1)
    end.

(** [slinkedlist_append] of each element of [xs] in turn, on a list
    just created. *)
Definition appended (xs : list A) : outcome (Slinkedlist.slinkedlist A) :=
  fold_left
    (fun acc x => l <- acc ;; Slinkedlist.slinkedlist_append l x)
    xs (Ok Slinkedlist.slinkedlist_create).

End SlinkedlistVocabulary.

(** ** Frames the decoder lets in *)

(** The test of [verify_full_dynmessage] on the bytes of an input:
    four bytes at least, the magic constant in front, and, when there
    are eight bytes, a length field (read as an [int]) that does not
    exceed the length given. *)
Definition frame_accepted (bytes : list Z) (data_len : Z) : Prop :=
  4 <= data_len /\ firstn 4 bytes = magic_only /\
  (data_len < 8 \/
   sext 32 (be_value (firstn 4 (skipn 4 bytes))) <= data_len).

(** ** What the fields of a message hold *)

(** A value [update_field_value] stores in a field of type [ty]: the
    result of the read it does for that type. *)
Definition storable (ty : Dynmessage.dyn_field_type)
    (v : Dynmessage.dyn_field_value) : Prop :=
  exists obj a, Dynmessage.read_value ty obj a = Ok v.

(** A field as the reachable messages hold them: named, of a type in
    the valid range, with a value read for that type. *)
Definition sound_field (f : Dynmessage.dyn_field) : Prop :=
  (exists n, Dynmessage.name f = Some n) /\
  valid_type (Dynmessage.type f) /\
  exists nv, Dynmessage.value f = Some nv /\
             storable (Dynmessage.type f) nv.

(** ** The length the code computes

    [DYN_FIELD_TYPE_SER_SIZE[type]] for the value, and for a field of
    type [STRING_TYPE] the length of its string on top. *)
Definition code_value_size (f : Dynmessage.dyn_field) : Z :=
  nth (Z.to_nat (Dynmessage.type f))
      DynmessageCerializer.DYN_FIELD_TYPE_SER_SIZE 0
  + (if Dynmessage.type f =? Dynmessage.STRING_TYPE then
       match Dynmessage.value f with
       | Some (Dynmessage.string_value s) => strlen s
       | _ => 0
       end
     else 0).

Definition code_field_length (f : Dynmessage.dyn_field) : Z :=
  16 + match Dynmessage.name f with Some n => strlen n | None => 0 end
  + code_value_size f.

Definition code_serialized_len (m : Dynmessage.dynamicmessage) : Z :=
  16 + match Dynmessage.message_name m with
       | Some n => strlen n
       | None => 0
       end
  + fold_right (fun f acc => code_field_length f + acc) 0 (fields m).

(** ** Frames of messages whose values fit the wire *)

(** A string without a NUL character. *)
Definition plain (s : string) : Prop :=
  Forall (fun b => b <> 0) (bytes_of_string s).

(** A field the frame carries unchanged: its name has no NUL, its type
    is one of [ENUMERATION_TYPE], [UNSIGNED_INT16_TYPE], [INT32_TYPE],
    [UNSIGNED_INT32_TYPE], [UNSIGNED_INT64_TYPE] and [STRING_TYPE], and
    it holds the member of that type with a value that fits the bytes
    the serializer writes for it (a string without NUL). *)
Definition carried (f : Dynmessage.dyn_field) : Prop :=
  (exists n, Dynmessage.name f = Some n /\ plain n) /\
  match Dynmessage.value f with
  | Some (Dynmessage.enum_value v) =>
      Dynmessage.type f = Dynmessage.ENUMERATION_TYPE /\ 0 <= v < 2 ^ 32
  | Some (Dynmessage.uint16_value v) =>
      Dynmessage.type f = Dynmessage.UNSIGNED_INT16_TYPE /\ 0 <= v < 2 ^ 16
  | Some (Dynmessage.int32_value v) =>
      Dynmessage.type f = Dynmessage.INT32_TYPE /\ - 2 ^ 31 <= v < 2 ^ 31
  | Some (Dynmessage.uint32_value v) =>
      Dynmessage.type f = Dynmessage.UNSIGNED_INT32_TYPE /\ 0 <= v < 2 ^ 32
  | Some (Dynmessage.uint64_value v) =>
      Dynmessage.type f = Dynmessage.UNSIGNED_INT64_TYPE /\ 0 <= v < 2 ^ 64
  | Some (Dynmessage.string_value s) =>
      Dynmessage.type f = Dynmessage.STRING_TYPE /\ plain s
  | _ => False
  end.

(** The sub-frame of a field, [va] being the bytes of its value area. *)
Definition field_frame (f : Dynmessage.dyn_field) (va : list Z) : list Z :=
  Cerializer.serialize_int32 (code_field_length f)
  ++ Cerializer.serialize_int32
       (match Dynmessage.name f with Some n => strlen n | None => 0 end)
  ++ match Dynmessage.name f with
     | Some n => bytes_of_string n
     | None => []
     end
  ++ Cerializer.serialize_int32 (Dynmessage.type f)
  ++ Cerializer.serialize_int32 (code_value_size f)
  ++ va.

Fixpoint frames (fs : list Dynmessage.dyn_field) (vas : list (list Z))
  : list Z :=
  match fs, vas with
  | f :: fs', va :: vas' => field_frame f va ++ frames fs' vas'
  | _, _ => []
  end.

(** The bytes in front of the sub-frames. *)
Definition frame_header (nm : string) (count len : Z) : list Z :=
  magic_only ++ Cerializer.serialize_int32 len
  ++ Cerializer.serialize_int32 (strlen nm) ++ bytes_of_string nm
  ++ Cerializer.serialize_int32 count.

(** A value area of a field: as long as the size the frame gives, and
    starting with the bytes the serializer writes for the value. *)
Definition value_area (f : Dynmessage.dyn_field) (va : list Z) : Prop :=
  exists vb,
    DynmessageCerializer.value_bytes f (code_value_size f) = Ok vb /\
    firstn (length vb) va = vb /\
    Z.of_nat (length va) = code_value_size f.

(** The value area of the sub-frame of a field in a block of which
    [todo] is the part from the start of the sub-frame on, as
    allocated: the bytes the serializer writes for the value, and after
    them, up to the size the frame gives, the bytes the block held at
    these places (the sixteen bytes of the four length and type words
    and the name come before the area). *)
Definition value_area_in (todo : list Z) (f : Dynmessage.dyn_field)
  : list Z :=
  match DynmessageCerializer.value_bytes f (code_value_size f) with
  | Ok vb =>
      vb ++ firstn (Z.to_nat (code_value_size f) - length vb)
              (skipn (16 + match Dynmessage.name f with
                           | Some n => length (bytes_of_string n)
                           | None => 0%nat
                           end + length vb) todo)
  | Undef _ => []
  end.

(** The value areas of the sub-frames of [fs], written one after the
    other from the start of [todo]. *)
Fixpoint areas_in (todo : list Z) (fs : list Dynmessage.dyn_field)
  : list (list Z) :=
  match fs with
  | [] => []
  | f :: fs' =>
      value_area_in todo f
      :: areas_in (skipn (Z.to_nat (code_field_length f)) todo) fs'
  end.

(** The descriptor [dynmessage_get_field] fills when it finds no field. *)
Definition no_field : Dynmessage.dyn_field :=
  {| Dynmessage.name := None; Dynmessage.type := Dynmessage.NO_TYPE;
     Dynmessage.value := None; Dynmessage.seq := -1 |}.

(** ** Samples *)

Definition sample_list : Slinkedlist.slinkedlist Z :=
  {| Slinkedlist.nodes := [1; 2; 3]; Slinkedlist.size := 3;
     Slinkedlist.tail := Slinkedlist.Node 2 |}.

(** A [hashmap] just allocated, before [hashmap_init]. *)
Definition blank_map : Hashmap.hashmap string Z :=
  {| Hashmap.capacity := 0; Hashmap.size := 0; Hashmap.table := [];
     Hashmap.key_equal := fun _ _ => false;
     Hashmap.hash_func := fun _ => 0 |}.

(** [hashmap_init(map, 4, test_string_equal, NULL)]. *)
Definition sample_map : Hashmap.hashmap string Z :=
  Hashmap.hashmap_init string_word blank_map 4 (Some test_string_equal) None.

(** The map after [hashmap_put(map, k, v)]. *)
Definition put_or (h : Hashmap.hashmap string Z) (k : string) (v : Z)
  : Hashmap.hashmap string Z :=
  match Hashmap.hashmap_put h k v with
  | Some h' => h'
  | None => h
  end.

(** The sample map with ["a"] bound to 1 and ["b"] to 2. *)
Definition sample_map2 : Hashmap.hashmap string Z :=
  put_or (put_or sample_map "a"%string 1) "b"%string 2.

(** The frame [dynmessage_serialize_bin] writes for [sample_message]
    into a block of zero bytes. *)
Definition sample_serdi : serialized_data_info :=
  match DynmessageCerializer.dynmessage_serialize_bin zero_heap
          sample_message unset_serdi with
  | Ok serdi => serdi
  | Undef _ => unset_serdi
  end.

(** ** Names in memory

    A C string as [default_hash_func] finds it: its characters, its
    terminator, and [after], the bytes that follow the terminator in
    memory (at least as many as the read needs). *)
Record name_buffer : Type := { chars : string; after : list Z }.

(** The [size_t] at the address of the string: the first eight of
    these bytes, least significant first. *)
Definition buffer_word (b : name_buffer) : Z :=
  le_value (firstn 8 (bytes_of_string (chars b) ++ 0 :: after b)).

(** [test_string_equal] on two strings in memory. *)
Definition buffer_equal (l r : name_buffer) : bool :=
  test_string_equal (chars l) (chars r).

(** The name ["a"] where the bytes ["b"], NUL, ["c"], NUL, ["d"], NUL
    follow it, and where zero bytes follow it. *)
Definition literal_a : name_buffer :=
  {| chars := "a"; after := [98; 0; 99; 0; 100; 0] |}.

Definition copied_a : name_buffer :=
  {| chars := "a"; after := [0; 0; 0; 0; 0; 0] |}.

(** [hashmap_init(map, 17, test_string_equal, NULL)], as
    [dynmessage_init] calls it, on names in memory. *)
Definition names_map : Hashmap.hashmap name_buffer Z :=
  Hashmap.hashmap_init buffer_word
    {| Hashmap.capacity := 0; Hashmap.size := 0; Hashmap.table := [];
       Hashmap.key_equal := fun _ _ => false;
       Hashmap.hash_func := fun _ => 0 |}
    17 (Some buffer_equal) None.

(** A heap whose bytes are all 0xAA. *)
Definition stale_heap : nat -> Z := fun _ => 0xAA.

(** The message [dynmessage_deserialize_bin] builds from
    [unknown_type_frame]. *)
Definition decoded_sample : Dynmessage.dynamicmessage :=
  match DynmessageCerializer.dynmessage_deserialize_bin
          (Some unknown_type_frame) 72 with
  | Ok (Some m) => m
  | _ => Dynmessage.dynmessage_create
  end.

(** A message with an enumeration, a 16-bit unsigned and a string
    field, under names of eight characters. *)
Definition carried_sample : Dynmessage.dynamicmessage :=
  from_ok (build "hello"
             [ ("kind_tag", Dynmessage.ENUMERATION_TYPE, Obj_int 4 3);
               ("port_num", Dynmessage.UNSIGNED_INT16_TYPE, Obj_int 4 8080);
               ("hostname", Dynmessage.STRING_TYPE, Obj_chars "node") ]%string).

(** ** Bytes and bit fields *)

Section IntegerCodec.

Import Cerializer.

Lemma land_shifted_low (a b n : Z) :
  0 <= n -> 0 <= b < 2 ^ n -> Z.land (a * 2 ^ n) b = 0.
Proof.
  intros Hn Hb. apply Z.bits_inj'. intros k Hk.
  rewrite Z.land_spec, Z.bits_0.
  destruct (Z.lt_ge_cases k n) as [Hlt | Hge].
  - rewrite Z.mul_pow2_bits_low by lia. reflexivity.
  - destruct (Z.eq_dec b 0) as [-> | Hnz].
    + rewrite Z.bits_0. apply andb_false_r.
    + rewrite (Z.bits_above_log2 b k).
      * apply andb_false_r.
      * lia.
      * apply Z.log2_lt_pow2; try lia.
        apply Z.lt_le_trans with (2 ^ n); try lia.
        apply Z.pow_le_mono_r; lia.
Qed.

(** An [|] of two values with no bit in common is their sum. *)
Lemma lor_disjoint_add (x y n : Z) :
  0 <= n -> x mod 2 ^ n = 0 -> 0 <= y < 2 ^ n -> Z.lor x y = x + y.
Proof.
  intros Hn Hx Hy.
  assert (Hp : 0 < 2 ^ n) by (apply Z.pow_pos_nonneg; lia).
  assert (E : x = (x / 2 ^ n) * 2 ^ n).
  { pose proof (Z.div_mod x (2 ^ n)). lia. }
  rewrite E.
  rewrite <- Z.lxor_lor by (apply land_shifted_low; assumption).
  symmetry. apply Z.add_nocarry_lxor. apply land_shifted_low; assumption.
Qed.

Ltac lor_add y n :=
  rewrite (lor_disjoint_add _ y n)
    by (first [lia | Z.div_mod_to_equations; lia]).

Lemma unpacku16_value b0 b1 :
  is_byte b0 -> is_byte b1 -> unpacku16 [b0; b1] = be_value [b0; b1].
Proof.
  unfold is_byte. intros H0 H1. unfold unpacku16, shl, wrap, byte_at; simpl nth.
  rewrite Z.shiftl_mul_pow2 by lia.
  rewrite Z.mod_small by lia.
  lor_add b1 8. cbn. lia.
Qed.

Lemma unpacku32_value b0 b1 b2 b3 :
  is_byte b0 -> is_byte b1 -> is_byte b2 -> is_byte b3 ->
  unpacku32 [b0; b1; b2; b3] = be_value [b0; b1; b2; b3].
Proof.
  unfold is_byte. intros H0 H1 H2 H3.
  unfold unpacku32, shl, wrap, byte_at; simpl nth.
  rewrite !Z.shiftl_mul_pow2 by lia.
  rewrite !Z.mod_small by lia.
  lor_add (b1 * 2 ^ 16) 24. lor_add (b2 * 2 ^ 8) 16. lor_add b3 8.
  cbn. lia.
Qed.

Lemma unpacku64_value b0 b1 b2 b3 b4 b5 b6 b7 :
  is_byte b0 -> is_byte b1 -> is_byte b2 -> is_byte b3 ->
  is_byte b4 -> is_byte b5 -> is_byte b6 -> is_byte b7 ->
  unpacku64 [b0; b1; b2; b3; b4; b5; b6; b7]
  = be_value [b0; b1; b2; b3; b4; b5; b6; b7].
Proof.
  unfold is_byte. intros H0 H1 H2 H3 H4 H5 H6 H7.
  unfold unpacku64, shl, wrap, byte_at; simpl nth.
  rewrite !Z.shiftl_mul_pow2 by lia.
  rewrite !Z.mod_small by lia.
  lor_add (b1 * 2 ^ 48) 56. lor_add (b2 * 2 ^ 40) 48.
  lor_add (b3 * 2 ^ 32) 40. lor_add (b4 * 2 ^ 24) 32.
  lor_add (b5 * 2 ^ 16) 24. lor_add (b6 * 2 ^ 8) 16. lor_add b7 8.
  cbn. lia.
Qed.

Lemma be_value_packi16 i : be_value (packi16 i) = i mod 2 ^ 16.
Proof.
  unfold packi16, uchar, wrap. rewrite !Z.shiftr_div_pow2 by lia. cbn.
  Z.div_mod_to_equations; lia.
Qed.

Lemma be_value_packi32 i : be_value (packi32 i) = i mod 2 ^ 32.
Proof.
  unfold packi32, uchar, wrap. rewrite !Z.shiftr_div_pow2 by lia. cbn.
  Z.div_mod_to_equations; lia.
Qed.

Lemma be_value_packi64 i : be_value (packi64 i) = i mod 2 ^ 64.
Proof.
  unfold packi64, uchar, wrap. rewrite !Z.shiftr_div_pow2 by lia. cbn.
  Z.div_mod_to_equations; lia.
Qed.

Lemma uchar_is_byte x : is_byte (uchar x).
Proof. unfold is_byte, uchar, wrap. apply Z.mod_pos_bound. reflexivity. Qed.

Lemma be_value_bound bs :
  Forall is_byte bs -> 0 <= be_value bs < 256 ^ Z.of_nat (length bs).
Proof.
  induction 1 as [|b bs Hb _ IH]; [cbn; lia|].
  cbn [be_value length]. rewrite Nat2Z.inj_succ, Z.pow_succ_r by lia.
  unfold is_byte in Hb. nia.
Qed.

Lemma sext_small w x :
  0 < w -> - 2 ^ (w - 1) <= x < 2 ^ (w - 1) -> sext w x = x.
Proof.
  intros Hw Hx. unfold sext.
  assert (E : 2 ^ w = 2 * 2 ^ (w - 1)).
  { replace w with (Z.succ (w - 1)) at 1 by lia. apply Z.pow_succ_r. lia. }
  rewrite Z.mod_small by lia. lia.
Qed.

(** The signed decoders: the unsigned decode, sign-extended. *)
Lemma unpacki16_sext buf :
  unpacki16 buf = sext 16 (unpacku16 buf) \/ ~ 0 <= unpacku16 buf < 2 ^ 16.
Proof.
  destruct (Z_le_dec 0 (unpacku16 buf)) as [H0|]; [|right; lia].
  destruct (Z_lt_dec (unpacku16 buf) (2 ^ 16)) as [H1|]; [|right; lia].
  left. unfold unpacki16. cbv zeta.
  destruct (Z.leb_spec (unpacku16 buf) 0x7fff) as [Hs | Hs].
  - rewrite sext_small by lia. rewrite sext_small; lia.
  - unfold sext, wrap. change (2 ^ (16 - 1)) with 32768 in *.
    change (2 ^ 16) with 65536 in *.
    change (2 ^ 32) with 4294967296. change (2 ^ (32 - 1)) with 2147483648.
    Z.div_mod_to_equations; lia.
Qed.

Lemma unpacki32_sext buf :
  unpacki32 buf = sext 32 (unpacku32 buf) \/ ~ 0 <= unpacku32 buf < 2 ^ 32.
Proof.
  destruct (Z_le_dec 0 (unpacku32 buf)) as [H0|]; [|right; lia].
  destruct (Z_lt_dec (unpacku32 buf) (2 ^ 32)) as [H1|]; [|right; lia].
  left. unfold unpacki32. cbv zeta.
  destruct (Z.leb_spec (unpacku32 buf) 0x7fffffff) as [Hs | Hs].
  - rewrite sext_small by lia. rewrite sext_small; lia.
  - unfold sext, wrap. change (2 ^ (32 - 1)) with 2147483648 in *.
    change (2 ^ 32) with 4294967296 in *.
    change (2 ^ 64) with 18446744073709551616.
    change (2 ^ (64 - 1)) with 9223372036854775808.
    Z.div_mod_to_equations; lia.
Qed.

Lemma unpacki64_sext buf :
  unpacki64 buf = sext 64 (unpacku64 buf) \/ ~ 0 <= unpacku64 buf < 2 ^ 64.
Proof.
  destruct (Z_le_dec 0 (unpacku64 buf)) as [H0|]; [|right; lia].
  destruct (Z_lt_dec (unpacku64 buf) (2 ^ 64)) as [H1|]; [|right; lia].
  left. unfold unpacki64. cbv zeta.
  destruct (Z.leb_spec (unpacku64 buf) 0x7fffffffffffffff) as [Hs | Hs].
  - reflexivity.
  - unfold sext, wrap.
    change (2 ^ 64) with 18446744073709551616 in *.
    change (2 ^ (64 - 1)) with 9223372036854775808.
    Z.div_mod_to_equations; lia.
Qed.

(** Every decoder returns the integer its field stands for. *)
Lemma unpack_field_value k buf :
  is_field k buf -> unpack k buf = field_value k buf.
Proof.
  intros [Hlen Hb]. pose proof (be_value_bound buf Hb) as Hv.
  destruct k; cbn [kind_bits] in Hlen;
    repeat (destruct buf as [|? buf]; cbn [length] in Hlen; try lia);
    repeat match goal with
           | H : Forall _ (_ :: _) |- _ => inversion H; subst; clear H
           end;
    unfold unpack, field_value, deserialize_int16, deserialize_uint16,
      deserialize_int32, deserialize_uint32, deserialize_int64,
      deserialize_uint64; cbn [kind_signed kind_bits].
  - destruct (unpacki16_sext [z; z0]) as [E|E];
      rewrite unpacku16_value in E by assumption; [exact E|].
    exfalso; apply E. cbn in Hv |- *. lia.
  - now apply unpacku16_value.
  - destruct (unpacki32_sext [z; z0; z1; z2]) as [E|E];
      rewrite unpacku32_value in E by assumption; [exact E|].
    exfalso; apply E. cbn in Hv |- *. lia.
  - now apply unpacku32_value.
  - destruct (unpacki64_sext [z; z0; z1; z2; z3; z4; z5; z6]) as [E|E];
      rewrite unpacku64_value in E by assumption; [exact E|].
    exfalso; apply E. cbn in Hv |- *. lia.
  - now apply unpacku64_value.
Qed.

Lemma pack_is_field k x : is_field k (pack k x).
Proof.
  destruct k; (split; [reflexivity|]);
    unfold pack, serialize_int16, serialize_int32, serialize_int64,
      packi16, packi32, packi64;
    repeat constructor; apply uchar_is_byte.
Qed.

Lemma be_value_pack k x : be_value (pack k x) = x mod 2 ^ kind_bits k.
Proof.
  destruct k; unfold pack, serialize_int16, serialize_int32, serialize_int64;
    cbn [kind_bits];
    rewrite ?be_value_packi16, ?be_value_packi32, ?be_value_packi64;
    unfold wrap;
    change (2 ^ 16) with 65536; change (2 ^ 32) with 4294967296;
    change (2 ^ 64) with 18446744073709551616;
    Z.div_mod_to_equations; lia.
Qed.

End IntegerCodec.

(** * Proofs *)

Ltac split_and := repeat match goal with |- _ /\ _ => split end.

(** ** The hash map is a finite map *)

Module HashmapTheory.

Import Hashmap.

Section HashmapTheory.
Context {K V : Type}.
Implicit Types (h : hashmap K V) (k : K) (v : V) (e : hashmap_entry K V)
  (b : list (hashmap_entry K V)).

Lemma slots_table h : length (table h) = Z.to_nat (capacity h) -> slots h = table h.
Proof. intros H. unfold slots. rewrite <- H. apply firstn_all. Qed.

Lemma set_nth_length {A} n (x : A) l : length (set_nth n x l) = length l.
Proof. revert n; induction l as [|y l IH]; intros [|n]; simpl; auto. Qed.

Lemma nth_set_nth {A} n (x : A) l i d :
  (n < length l)%nat ->
  nth i (set_nth n x l) d = if Nat.eqb i n then x else nth i l d.
Proof.
  revert n i; induction l as [|y l IH]; intros n i Hn; simpl in Hn; [lia|].
  destruct n as [|n], i as [|i]; simpl; auto.
  apply IH. lia.
Qed.

Lemma set_nth_split {A} n l (d : A) :
  (n < length l)%nat ->
  exists l1 l2, l = l1 ++ nth n l d :: l2 /\
                forall x, set_nth n x l = l1 ++ x :: l2.
Proof.
  revert n; induction l as [|y l IH]; intros n Hn; simpl in Hn; [lia|].
  destruct n as [|n]; simpl.
  - exists [], l. auto.
  - destruct (IH n ltac:(lia)) as (l1 & l2 & E1 & E2).
    exists (y :: l1), l2. simpl. split; [congruence|].
    intros x. rewrite E2. reflexivity.
Qed.

Lemma offset_range h k : 0 < capacity h -> 0 <= hash_func h k mod capacity h < capacity h.
Proof. intros. apply Z.mod_pos_bound. assumption. Qed.

Lemma entries_set_slot h o :
  length (table h) = Z.to_nat (capacity h) -> 0 <= o < capacity h ->
  exists rest,
    Permutation (entries h) (slot_entries (table_at h o) ++ rest) /\
    forall x n, Permutation (entries (set_size (set_table_at h o x) n))
                            (slot_entries x ++ rest).
Proof.
  intros Hlen Ho.
  assert (Hn : (Z.to_nat o < length (table h))%nat) by lia.
  destruct (set_nth_split (Z.to_nat o) (table h) None Hn) as (l1 & l2 & E1 & E2).
  exists (concat (List.map slot_entries l1) ++ concat (List.map slot_entries l2)).
  split.
  - unfold entries. rewrite slots_table by assumption. unfold table_at.
    rewrite E1 at 1. rewrite map_app, concat_app. simpl.
    rewrite Permutation_app_comm. rewrite <- app_assoc.
    apply Permutation_app_head. apply Permutation_app_comm.
  - intros x n. unfold entries.
    rewrite slots_table by (simpl; rewrite set_nth_length; assumption).
    simpl. rewrite E2. rewrite map_app, concat_app. simpl.
    rewrite Permutation_app_comm. rewrite <- app_assoc.
    apply Permutation_app_head. apply Permutation_app_comm.
Qed.

(** every entry of a slot is an entry of the map *)
Lemma slot_in_entries h i e :
  length (table h) = Z.to_nat (capacity h) ->
  In e (slot_entries (nth i (table h) None)) -> In e (entries h).
Proof.
  intros Hlen Hin. unfold entries. rewrite slots_table by assumption.
  apply in_concat. exists (slot_entries (nth i (table h) None)). split; [|assumption].
  apply in_map.
  destruct (Nat.lt_ge_cases i (length (table h))) as [Hlt|Hge].
  - apply nth_In. assumption.
  - rewrite nth_overflow in Hin by assumption. destruct Hin.
Qed.

Lemma entries_in_slot h e :
  length (table h) = Z.to_nat (capacity h) ->
  In e (entries h) -> exists i, In e (slot_entries (nth i (table h) None)).
Proof.
  intros Hlen Hin. unfold entries in Hin. rewrite slots_table in Hin by assumption.
  apply in_concat in Hin. destruct Hin as (b & Hb & He).
  apply in_map_iff in Hb. destruct Hb as (s & <- & Hs).
  destruct (In_nth _ _ None Hs) as (i & _ & Hi). exists i. rewrite Hi. assumption.
Qed.

Section Bucket.
Variable eqb : K -> K -> bool.
Hypothesis eqb_eq : forall k1 k2, eqb k1 k2 = true <-> k1 = k2.

Lemma find_entry_some k b e :
  find_entry eqb k b = Some e -> In e b /\ key e = k.
Proof.
  induction b as [|x b IH]; simpl; [discriminate|].
  destruct (eqb (key x) k) eqn:E.
  - intros [= <-]. split; [now left | now apply eqb_eq].
  - intros H. destruct (IH H). split; [now right | assumption].
Qed.

Lemma find_entry_none k b :
  find_entry eqb k b = None <-> ~ In k (List.map key b).
Proof.
  induction b as [|x b IH]; simpl; [tauto|].
  destruct (eqb (key x) k) eqn:E.
  - apply eqb_eq in E. split; [discriminate | intros H; exfalso; apply H; now left].
  - assert (key x <> k) by (intros C; apply eqb_eq in C; congruence).
    rewrite IH. tauto.
Qed.

Lemma update_entry_none k v b :
  update_entry eqb k v b = None <-> ~ In k (List.map key b).
Proof.
  induction b as [|x b IH]; simpl; [tauto|].
  destruct (eqb (key x) k) eqn:E.
  - apply eqb_eq in E. split; [discriminate | intros H; exfalso; apply H; now left].
  - assert (key x <> k) by (intros C; apply eqb_eq in C; congruence).
    destruct (update_entry eqb k v b) eqn:U.
    + split; [discriminate|]. intros H1.
      assert (C : Some l = None) by (apply IH; tauto). discriminate.
    + split; [|reflexivity]. intros _ [C|C]; [contradiction|].
      revert C. apply IH. reflexivity.
Qed.

(** the bucket after the update of an existing key *)
Lemma update_entry_some k v b b' :
  update_entry eqb k v b = Some b' ->
  List.map key b' = List.map key b /\
  exists b1 x b2, b = b1 ++ x :: b2 /\ key x = k /\
                  b' = b1 ++ {| key := key x; value := v |} :: b2 /\
                  ~ In k (List.map key b1).
Proof.
  revert b'. induction b as [|x b IH]; simpl; [discriminate|]. intros b'.
  destruct (eqb (key x) k) eqn:E.
  - intros [= <-]. split; [reflexivity|].
    exists [], x, b. simpl. apply eqb_eq in E. auto.
  - assert (key x <> k) by (intros C; apply eqb_eq in C; congruence).
    destruct (update_entry eqb k v b) as [b0|]; [|discriminate].
    intros [= <-]. destruct (IH b0 eq_refl) as (Hk & b1 & y & b2 & -> & Hy & -> & Hn).
    split; [simpl; congruence|].
    exists (x :: b1), y, b2. simpl. repeat split; auto. tauto.
Qed.

Lemma find_entry_update k v b b' k' :
  update_entry eqb k v b = Some b' ->
  find_entry eqb k' b' =
    if eqb k k' then Some {| key := k; value := v |}
    else find_entry eqb k' b.
Proof.
  revert b'. induction b as [|x b IH]; simpl; [discriminate|]. intros b'.
  destruct (eqb (key x) k) eqn:E.
  - intros [= <-]. simpl. apply eqb_eq in E. rewrite E.
    destruct (eqb k k'); reflexivity.
  - destruct (update_entry eqb k v b) as [b0|]; [|discriminate].
    intros [= <-]. simpl. rewrite (IH b0 eq_refl).
    destruct (eqb (key x) k') eqn:E'; [|reflexivity].
    apply eqb_eq in E'. rewrite <- E'.
    destruct (eqb k (key x)) eqn:E2; [|reflexivity].
    apply eqb_eq in E2. rewrite E2 in E.
    rewrite (proj2 (eqb_eq _ _) eq_refl) in E. discriminate.
Qed.
End Bucket.

Lemma NoDup_map_eq {A B} (f : A -> B) l x y :
  NoDup (List.map f l) -> In x l -> In y l -> f x = f y -> x = y.
Proof.
  induction l as [|a l IH]; simpl; [tauto|].
  intros Hnd Hx Hy E. inversion Hnd as [|? ? Hn Hnd']; subst.
  destruct Hx as [->|Hx], Hy as [->|Hy]; auto.
  - exfalso. apply Hn. rewrite E. now apply in_map.
  - exfalso. apply Hn. rewrite <- E. now apply in_map.
Qed.

(** the bucket a key lives in *)
Lemma key_slot h e :
  wf h -> In e (entries h) ->
  exists b, table_at h (hash_func h (key e) mod capacity h) = Some b /\ In e b.
Proof.
  intros W Hin.
  destruct (entries_in_slot h e (wf_len h W) Hin) as (i & Hi).
  pose proof (wf_slot h W i e Hi) as Ho.
  unfold table_at. rewrite Ho, Nat2Z.id.
  destruct (nth i (table h) None) as [b|]; [|destruct Hi].
  exists b. split; [reflexivity | exact Hi].
Qed.

Lemma table_at_in h o b e :
  wf h -> table_at h o = Some b -> In e b -> In e (entries h).
Proof.
  intros W Hs Hin. apply (slot_in_entries h (Z.to_nat o) e (wf_len h W)).
  unfold table_at in Hs. rewrite Hs. exact Hin.
Qed.

Lemma wf_nonempty h e : wf h -> In e (entries h) -> hashmap_empty h = false.
Proof.
  intros W Hin. unfold hashmap_empty. rewrite (wf_size h W).
  destruct (entries h); [destruct Hin|]. simpl length. apply Z.eqb_neq. lia.
Qed.

Lemma get_in h k v :
  wf h ->
  (hashmap_get h k = Some v <-> In {| key := k; value := v |} (entries h)).
Proof.
  intros W. split.
  - unfold hashmap_get. destruct (hashmap_empty h); [discriminate|].
    destruct (table_at h _) as [b|] eqn:Hs; [|discriminate].
    destruct (find_entry _ k b) as [e|] eqn:Hf; [|discriminate].
    intros [= <-].
    destruct (find_entry_some _ (wf_eq h W) _ _ _ Hf) as [Hin Hk].
    replace {| key := k; value := value e |} with e by (destruct e; simpl in *; congruence).
    eapply table_at_in; eauto.
  - intros Hin. unfold hashmap_get. rewrite (wf_nonempty h _ W Hin).
    destruct (key_slot h _ W Hin) as (b & Hs & Hb). simpl in Hs. rewrite Hs.
    destruct (find_entry (key_equal h) k b) as [e|] eqn:Hf.
    + destruct (find_entry_some _ (wf_eq h W) _ _ _ Hf) as [Hin' Hk].
      assert (e = {| key := k; value := v |}) as ->; [|reflexivity].
      apply (NoDup_map_eq key (entries h)); auto.
      * apply (wf_nodup h W).
      * eapply table_at_in; eauto.
    + exfalso. apply (find_entry_none _ (wf_eq h W)) in Hf. apply Hf.
      apply in_map_iff. eexists. split; [|exact Hb]. reflexivity.
Qed.

Lemma contains_in h k :
  wf h -> (hashmap_contains_key h k = true <-> In k (keys h)).
Proof.
  intros W. unfold hashmap_contains_key. split.
  - destruct (table_at h _) as [b|] eqn:Hs; [|discriminate].
    destruct (find_entry _ k b) as [e|] eqn:Hf; [|discriminate].
    intros _. destruct (find_entry_some _ (wf_eq h W) _ _ _ Hf) as [Hin Hk].
    unfold keys. rewrite <- Hk. apply in_map. eapply table_at_in; eauto.
  - intros Hin. unfold keys in Hin. apply in_map_iff in Hin.
    destruct Hin as (e & <- & Hin).
    destruct (key_slot h _ W Hin) as (b & Hs & Hb). rewrite Hs.
    destruct (find_entry (key_equal h) (key e) b) eqn:Hf; [reflexivity|].
    exfalso. apply (find_entry_none _ (wf_eq h W)) in Hf. apply Hf.
    now apply in_map.
Qed.

Lemma wf_linked h k v :
  wf h -> ~ In k (keys h) ->
  wf (linked h k v) /\
  Permutation (entries (linked h k v)) ({| key := k; value := v |} :: entries h).
Proof.
  intros W Hnew. set (o := hash_func h k mod capacity h).
  pose proof (offset_range h k (wf_cap h W)) as Ho. fold o in Ho.
  destruct (entries_set_slot h o (wf_len h W) Ho) as (rest & P1 & P2).
  assert (P : Permutation (entries (linked h k v))
                ({| key := k; value := v |} :: entries h)).
  { unfold linked. fold o. rewrite P2. simpl. apply perm_skip.
    symmetry. exact P1. }
  split; [|exact P].
  constructor.
  - exact (wf_cap h W).
  - simpl. rewrite set_nth_length. exact (wf_len h W).
  - rewrite (Permutation_length P). simpl length.
    unfold linked; simpl. rewrite (wf_size h W). lia.
  - intros i e. unfold linked; simpl. fold o.
    rewrite nth_set_nth by (rewrite (wf_len h W); lia).
    destruct (Nat.eqb_spec i (Z.to_nat o)) as [->|Hne].
    + simpl. intros [<-|Hin].
      * simpl. fold o. lia.
      * rewrite (wf_slot h W (Z.to_nat o) e Hin). reflexivity.
    + apply (wf_slot h W).
  - unfold keys. rewrite P. simpl. constructor; [exact Hnew | exact (wf_nodup h W)].
  - exact (wf_eq h W).
Qed.

Lemma rehash_required_zero h k :
  capacity h <> size h -> hashmap_rehash_required h k = 0.
Proof.
  intros Hne. unfold hashmap_rehash_required.
  destruct (table_at h _) as [b|]; [|reflexivity].
  apply Z.eqb_neq in Hne. rewrite Hne.
  assert (G : forall z : Z,
    fold_left (fun rehash entry =>
      if negb (hash_func h k mod (2 * capacity h)
               =? hash_func h (key entry) mod (2 * capacity h)) && false
      then rehash + 1 else rehash) b z = z).
  { induction b as [|x b IH]; intros z; simpl; [reflexivity|].
    rewrite andb_false_r. apply IH. }
  apply G.
Qed.

Lemma put_fuel_linked h k v fuel :
  wf h -> ~ In k (keys h) -> hashmap_rehash_required h k = 0 ->
  hashmap_put_fuel (S fuel) h k v = Some (linked h k v).
Proof.
  intros W Hnew Hr. simpl.
  destruct (table_at h _) as [b|] eqn:Hs.
  - assert (Hn : ~ In k (List.map key b)).
    { intros C. apply Hnew. apply in_map_iff in C. destruct C as (e & <- & He).
      unfold keys. apply in_map. eapply table_at_in; eauto. }
    apply (update_entry_none _ (wf_eq h W) k v) in Hn. rewrite Hn, Hr. simpl.
    unfold linked. rewrite Hs. reflexivity.
  - unfold linked. rewrite Hs. reflexivity.
Qed.

Lemma wf_updated h k v b b' :
  wf h ->
  table_at h (hash_func h k mod capacity h) = Some b ->
  update_entry (key_equal h) k v b = Some b' ->
  let h' := set_table_at h (hash_func h k mod capacity h) (Some b') in
  wf h' /\
  exists x es, key x = k /\ Permutation (entries h) (x :: es) /\
               Permutation (entries h') ({| key := k; value := v |} :: es).
Proof.
  intros W Hs Hu h'. set (o := hash_func h k mod capacity h) in *.
  pose proof (offset_range h k (wf_cap h W)) as Ho. fold o in Ho.
  destruct (entries_set_slot h o (wf_len h W) Ho) as (rest & P1 & P2).
  rewrite Hs in P1. simpl in P1.
  specialize (P2 (Some b') (size h)).
  change (set_size (set_table_at h o (Some b')) (size h)) with h' in P2.
  simpl in P2.
  destruct (update_entry_some _ (wf_eq h W) _ _ _ _ Hu)
    as (Hk & b1 & x & b2 & Eb & Hx & Eb' & _).
  assert (Q1 : Permutation (entries h) (x :: (b1 ++ b2) ++ rest)).
  { rewrite P1, Eb. rewrite <- Permutation_middle. reflexivity. }
  assert (Q2 : Permutation (entries h')
                 ({| key := k; value := v |} :: (b1 ++ b2) ++ rest)).
  { rewrite P2, Eb', Hx. rewrite <- Permutation_middle. reflexivity. }
  split.
  - constructor.
    + exact (wf_cap h W).
    + subst h'; simpl. rewrite set_nth_length. exact (wf_len h W).
    + rewrite (Permutation_length Q2). subst h'; simpl.
      rewrite (wf_size h W), (Permutation_length Q1). reflexivity.
    + intros i e. subst h'; simpl.
      rewrite nth_set_nth by (rewrite (wf_len h W); lia).
      destruct (Nat.eqb_spec i (Z.to_nat o)) as [->|Hne].
      * simpl. intros Hin.
        assert (Hin' : In (key e) (List.map key b)).
        { rewrite <- Hk. now apply in_map. }
        apply in_map_iff in Hin'. destruct Hin' as (e0 & E0 & He0).
        rewrite <- E0. apply (wf_slot h W). unfold table_at in Hs.
        rewrite Hs. exact He0.
      * apply (wf_slot h W).
    + unfold keys. rewrite Q2. simpl. rewrite <- Hx.
      change (NoDup (List.map key (x :: (b1 ++ b2) ++ rest))).
      rewrite <- Q1. exact (wf_nodup h W).
    + exact (wf_eq h W).
  - exists x, ((b1 ++ b2) ++ rest). auto.
Qed.

Lemma entries_emptied h c : entries (emptied h c) = [].
Proof.
  unfold entries, slots. simpl. rewrite firstn_all2 by (rewrite repeat_length; lia).
  induction (Z.to_nat c); simpl; auto.
Qed.

Lemma wf_emptied h c :
  (forall k1 k2, key_equal h k1 k2 = true <-> k1 = k2) -> 0 < c ->
  wf (emptied h c).
Proof.
  intros Heq Hc. constructor.
  - exact Hc.
  - simpl. apply repeat_length.
  - rewrite entries_emptied. reflexivity.
  - intros i e. simpl. rewrite nth_repeat. intros [].
  - unfold keys. rewrite entries_emptied. constructor.
  - exact Heq.
Qed.

Lemma put_all_linked es : forall h0,
  wf h0 -> NoDup (List.map key es) ->
  (forall e, In e es -> ~ In (key e) (keys h0)) ->
  size h0 + Z.of_nat (length es) <= capacity h0 ->
  exists h', put_all (hashmap_put_fuel 1) es (Some h0) = Some h' /\
             wf h' /\ Permutation (entries h') (es ++ entries h0) /\
             capacity h' = capacity h0 /\ hash_func h' = hash_func h0 /\
             key_equal h' = key_equal h0.
Proof.
  induction es as [|e es IH]; intros h0 W Hnd Hnew Hsz.
  - exists h0. simpl. split_and; auto.
  - inversion Hnd as [|? ? Hn Hnd']; subst.
    assert (He : ~ In (key e) (keys h0)) by (apply Hnew; now left).
    destruct (wf_linked h0 (key e) (value e) W He) as [W' P'].
    simpl in Hsz.
    assert (Hput : hashmap_put_fuel 1 h0 (key e) (value e)
                   = Some (linked h0 (key e) (value e))).
    { apply put_fuel_linked; auto. apply rehash_required_zero. lia. }
    destruct (IH (linked h0 (key e) (value e))) as (h' & F & Wh & P & C & Hh & Hk); auto.
    + intros e' Hin C. unfold keys in C. rewrite P' in C. simpl in C.
      destruct C as [C|C].
      * apply Hn. rewrite C. now apply in_map.
      * revert C. apply Hnew. now right.
    + unfold linked; simpl. lia.
    + exists h'. unfold put_all in *. cbn [fold_left]. rewrite Hput.
      split_and; auto; try congruence.
      rewrite P, P'. simpl.
      replace {| key := key e; value := value e |} with e by (destruct e; reflexivity).
      symmetry. apply Permutation_middle.
Qed.

Lemma rehash_required_full h k :
  hashmap_rehash_required h k <> 0 -> capacity h = size h.
Proof.
  intros H. destruct (Z.eq_dec (capacity h) (size h)) as [E|E]; [exact E|].
  exfalso. apply H. now apply rehash_required_zero.
Qed.

Lemma put_fuel_S fuel h k v :
  hashmap_put_fuel (S fuel) h k v =
  let offset := hash_func h k mod capacity h in
  match table_at h offset with
  | None =>
      Some (set_size
              (set_table_at h offset (Some [{| key := k; value := v |}]))
              (size h + 1))
  | Some bucket =>
      match update_entry (key_equal h) k v bucket with
      | Some bucket' => Some (set_table_at h offset (Some bucket'))
      | None =>
          if negb (hashmap_rehash_required h k =? 0) then
            match hashmap_rehash (hashmap_put_fuel fuel) h (2 * capacity h) with
            | Some map' => hashmap_put_fuel fuel map' k v
            | None => None
            end
          else
            Some (set_size
                    (set_table_at h offset
                       (Some ({| key := k; value := v |} :: bucket)))
                    (size h + 1))
      end
  end.
Proof. reflexivity. Qed.

Lemma key_eq_dec h : wf h -> forall k1 k2 : K, {k1 = k2} + {k1 <> k2}.
Proof.
  intros W k1 k2. destruct (key_equal h k1 k2) eqn:E.
  - left. now apply (wf_eq h W).
  - right. intros C. apply (wf_eq h W) in C. congruence.
Qed.

(** [hashmap_put] on a well-formed map: it returns, the result is
    well formed, and it holds the entries of [h] with [k] bound to
    [v]. *)
Theorem put_spec h k v :
  wf h ->
  exists h', hashmap_put h k v = Some h' /\ wf h' /\
    hash_func h' = hash_func h /\ key_equal h' = key_equal h /\
    ((~ In k (keys h) /\
      Permutation (entries h') ({| key := k; value := v |} :: entries h))
     \/
     (exists x es, key x = k /\ Permutation (entries h) (x :: es) /\
        Permutation (entries h') ({| key := k; value := v |} :: es))).
Proof.
  intros W. unfold hashmap_put.
  destruct (in_dec (key_eq_dec h W) k (keys h)) as [Hin|Hnew].
  - (* the key is there: its entry is updated *)
    unfold keys in Hin. apply in_map_iff in Hin. destruct Hin as (e & Hk & Hin).
    destruct (key_slot h e W Hin) as (b & Hs & Hb). rewrite Hk in Hs.
    destruct (update_entry (key_equal h) k v b) as [b'|] eqn:Hu.
    + destruct (wf_updated h k v b b' W Hs Hu) as [W' X].
      exists (set_table_at h (hash_func h k mod capacity h) (Some b')).
      simpl. rewrite Hs, Hu. split_and; auto.
    + exfalso. apply (update_entry_none _ (wf_eq h W)) in Hu. apply Hu.
      rewrite <- Hk. now apply in_map.
  - destruct (Z.eq_dec (hashmap_rehash_required h k) 0) as [Hr|Hr].
    + exists (linked h k v). destruct (wf_linked h k v W Hnew) as [W' P].
      rewrite put_fuel_linked by assumption. split_and; auto.
    + (* rehash, then link *)
      pose proof (rehash_required_full h k Hr) as Hfull.
      pose proof (wf_cap h W) as Hcap.
      assert (Hne : hashmap_empty h = false).
      { unfold hashmap_empty. apply Z.eqb_neq. lia. }
      assert (Hslot : exists b, table_at h (hash_func h k mod capacity h) = Some b).
      { unfold hashmap_rehash_required in Hr.
        destruct (table_at h _) as [b|]; [eauto | congruence]. }
      destruct Hslot as (b & Hs).
      assert (Hu : update_entry (key_equal h) k v b = None).
      { apply (update_entry_none _ (wf_eq h W)). intros C. apply Hnew.
        apply in_map_iff in C. destruct C as (e & <- & He).
        unfold keys. apply in_map. eapply table_at_in; eauto. }
      destruct (put_all_linked (entries h) (emptied h (2 * capacity h)))
        as (h1 & F & W1 & P1 & C1 & Hh1 & Hk1).
      * apply wf_emptied; [exact (wf_eq h W) | lia].
      * exact (wf_nodup h W).
      * intros e _. unfold keys. rewrite entries_emptied. simpl. tauto.
      * unfold emptied; cbn [size capacity]. rewrite <- (wf_size h W). lia.
      * rewrite entries_emptied, app_nil_r in P1.
        unfold emptied in C1, Hh1, Hk1; cbn [capacity hash_func key_equal] in C1, Hh1, Hk1.
        assert (Hnew1 : ~ In k (keys h1)).
        { unfold keys. rewrite P1. exact Hnew. }
        destruct (wf_linked h1 k v W1 Hnew1) as [W2 P2].
        exists (linked h1 k v).
        split.
        { rewrite put_fuel_S. cbv zeta. rewrite Hs, Hu.
          destruct (hashmap_rehash_required h k =? 0) eqn:Ez;
            [apply Z.eqb_eq in Ez; contradiction|]. cbn [negb].
          unfold hashmap_rehash, hashmap_entries. rewrite Hne.
          fold (entries h). fold (emptied h (2 * capacity h)).
          unfold put_all in F. rewrite F.
          rewrite put_fuel_S. cbv zeta.
          destruct (table_at h1 _) as [b1|] eqn:Hs1.
          - assert (Hu1 : update_entry (key_equal h1) k v b1 = None).
            { apply (update_entry_none _ (wf_eq h1 W1)). intros C. apply Hnew1.
              apply in_map_iff in C. destruct C as (e & <- & He).
              unfold keys. apply in_map. eapply table_at_in; eauto. }
            rewrite Hu1. rewrite rehash_required_zero.
            + simpl. unfold linked. rewrite Hs1. reflexivity.
            + rewrite C1, (wf_size h1 W1), (Permutation_length P1), <- (wf_size h W). lia.
          - unfold linked. rewrite Hs1. reflexivity. }
        split_and; auto; try congruence.
        left. split; [assumption|]. rewrite P2, P1. reflexivity.
Qed.

Lemma set_nth_idem {A} n (x : A) l : set_nth n x (set_nth n x l) = set_nth n x l.
Proof.
  revert n; induction l as [|y l IH]; intros [|n]; simpl; auto.
  now rewrite IH.
Qed.

Lemma update_entry_idem eqb k v b b' :
  update_entry eqb k v b = Some b' -> update_entry eqb k v b' = Some b'.
Proof.
  revert b'. induction b as [|x b IH]; simpl; [discriminate|]. intros b'.
  destruct (eqb (key x) k) eqn:E.
  - intros [= <-]. simpl. rewrite E. reflexivity.
  - destruct (update_entry eqb k v b) as [b0|]; [|discriminate].
    intros [= <-]. simpl. rewrite E, (IH b0 eq_refl). reflexivity.
Qed.

(** a second [hashmap_put] of the same binding changes nothing *)
Lemma put_idem h k v h' :
  wf h -> In k (keys h) -> hashmap_put h k v = Some h' ->
  hashmap_put h' k v = Some h'.
Proof.
  intros W Hin. unfold keys in Hin. apply in_map_iff in Hin.
  destruct Hin as (e & Hk & Hin).
  destruct (key_slot h e W Hin) as (b & Hs & Hb). rewrite Hk in Hs.
  unfold hashmap_put. rewrite !put_fuel_S. cbv zeta. rewrite Hs.
  destruct (update_entry (key_equal h) k v b) as [b'|] eqn:Hu.
  - intros [= <-]. cbn [hash_func capacity key_equal set_table_at].
    set (o := hash_func h k mod capacity h) in *.
    assert (Ho : (Z.to_nat o < length (table h))%nat).
    { unfold table_at in Hs.
      destruct (Nat.lt_ge_cases (Z.to_nat o) (length (table h))) as [L|L]; [exact L|].
      rewrite nth_overflow in Hs by exact L. discriminate. }
    assert (Hs' : table_at (set_table_at h o (Some b')) o = Some b').
    { unfold table_at, set_table_at. cbn [table].
      rewrite nth_set_nth by exact Ho. now rewrite Nat.eqb_refl. }
    rewrite Hs', (update_entry_idem _ _ _ _ _ Hu).
    unfold set_table_at. cbn [capacity size table key_equal hash_func].
    rewrite set_nth_idem. reflexivity.
  - exfalso. apply (update_entry_none _ (wf_eq h W)) in Hu. apply Hu.
    rewrite <- Hk. now apply in_map.
Qed.
End HashmapTheory.

End HashmapTheory.

(** ** The invariant of reachable messages *)

Section DynmessageTheory.

Import HashmapTheory.
Import Hashmap.
Import Dynmessage.


Lemma test_string_equal_eq (a b : string) : test_string_equal a b = true <-> a = b.
Proof. apply String.eqb_eq. Qed.

(** The table [dynmessage_init] installs: seventeen empty slots. *)
Lemma init_table :
  hashmap_init string_word fresh_hashmap 17 (Some test_string_equal) None
  = emptied {| capacity := 0; size := 0; table := [];
               key_equal := test_string_equal;
               hash_func := default_hash_func string_word |} 17.
Proof.
  unfold hashmap_init, emptied. cbn [capacity key_equal hash_func].
  change (sext 32 17 <=? 0) with false. cbv iota. reflexivity.
Qed.

Lemma inv_init m n : msg_inv (dynmessage_init m (Some n)).
Proof.
  unfold dynmessage_init. rewrite init_table.
  constructor; unfold stored; cbn [fields_info field_count].
  - eexists. split; [reflexivity|].
    apply wf_emptied; [exact test_string_equal_eq | lia].
  - rewrite entries_emptied. reflexivity.
  - unfold INT_MAX. lia.
  - rewrite entries_emptied. intros e [].
  - rewrite entries_emptied. constructor.
Qed.

Lemma read_value_indep ty obj a nv :
  read_value ty obj a = Ok nv -> read_value ty obj nv = Ok nv.
Proof.
  unfold read_value. cbn [switch].
  repeat match goal with
  | |- (if ty =? ?label then _ else _) = _ -> _ =>
      destruct (ty =? label);
        [intros H; first [exact H | injection H as ->; reflexivity]|]
  end.
  intros [= ->]. reflexivity.
Qed.

Lemma bind_ok {A B} (x : outcome A) (k : A -> outcome B) b :
  bind x k = Ok b -> exists a, x = Ok a /\ k a = Ok b.
Proof. destruct x; simpl; [eauto | discriminate]. Qed.

Lemma entry_eta {K V} (e : hashmap_entry K V) :
  {| key := key e; Hashmap.value := Hashmap.value e |} = e.
Proof. destruct e; reflexivity. Qed.

(** [update_field_value] on a field that is stored: it returns when the
    read through the pointer type of the field is defined, and the
    field then holds the value read. *)
Lemma update_spec m h n f obj :
  fields_info m = Some h -> wf h ->
  In {| key := n; Hashmap.value := f |} (entries h) ->
  match read_value (type f) obj (value_to_store f) with
  | Ok nv =>
      exists h', update_field_value m n obj = Ok (set_fields_info m h') /\
        hashmap_put h n (with_value f nv) = Some h' /\
        wf h' /\
        exists es,
          Permutation (entries h) ({| key := n; Hashmap.value := f |} :: es) /\
          Permutation (entries h')
            ({| key := n; Hashmap.value := with_value f nv |} :: es)
  | Undef why => update_field_value m n obj = Undef why
  end.
Proof.
  intros Hm W Hin. unfold update_field_value. rewrite Hm. cbn [deref bind].
  rewrite (proj2 (get_in h n f W) Hin). cbn [deref bind].
  fold (value_to_store f).
  destruct (read_value (type f) obj (value_to_store f)) as [nv|why]; cbn [bind];
    [|reflexivity].
  fold (with_value f nv).
  destruct (put_spec h n (with_value f nv) W)
    as (h' & Hput & W' & _ & _ & [[Hnew _] | (x & es & Hx & P1 & P2)]).
  - exfalso. apply Hnew. unfold keys.
    change n with (key {| key := n; Hashmap.value := f |}). now apply in_map.
  - exists h'. rewrite Hput. cbn [terminated bind]. split_and; auto.
    exists es. split; [|exact P2].
    assert (x = {| key := n; Hashmap.value := f |}) as <-; [|exact P1].
    apply (NoDup_map_eq key (entries h)); auto.
    + exact (wf_nodup h W).
    + rewrite P1. now left.
Qed.

Lemma seq_range_S n : seq_range (S n) = seq_range n ++ [Z.of_nat (S n)].
Proof. unfold seq_range. rewrite seq_S, map_app. reflexivity. Qed.

Lemma put_cases m n ty v m' :
  msg_inv m ->
  dynmessage_put_field_and_value m n ty v = Ok m' ->
  m' = m \/
  exists n', n = Some n' /\ valid_type ty /\
    (exists h', fields_info m' = Some h' /\ wf h') /\
    put_effect m m' n' ty.
Proof.
  intros I. destruct (inv_map m I) as (h & Hm & W).
  unfold dynmessage_put_field_and_value. rewrite Hm.
  destruct n as [n|]; [|intros [= <-]; now left].
  destruct v as [obj|]; [|intros [= <-]; now left].
  destruct ((ty <? ENUMERATION_TYPE) || (ty >? STRING_TYPE)) eqn:Hty;
    [intros [= <-]; now left|].
  assert (Hvalid : valid_type ty).
  { apply orb_false_elim in Hty. destruct Hty as [H1 H2].
    apply Z.ltb_ge in H1. rewrite Z.gtb_ltb in H2. apply Z.ltb_ge in H2.
    split; assumption. }
  intros Hput. right. exists n. split; [reflexivity|]. split; [exact Hvalid|].
  destruct (hashmap_contains_key h n) eqn:Hc; cbn [negb] in Hput.
  - (* the field is there *)
    cbn [bind] in Hput.
    apply (contains_in h n W) in Hc. unfold keys in Hc.
    apply in_map_iff in Hc. destruct Hc as (e & He & Hin).
    rewrite <- (entry_eta e), He in Hin.
    pose proof (update_spec m h n (Hashmap.value e) obj Hm W Hin) as U.
    destruct (read_value _ obj _) as [nv|why]; [|congruence].
    destruct U as (h' & Hu & _ & W' & es & P1 & P2).
    rewrite Hu in Hput. injection Hput as <-.
    split; [exists h'; split; [reflexivity | exact W']|].
    apply (put_replace _ _ _ _ (Hashmap.value e) nv es).
    + reflexivity.
    + unfold stored. rewrite Hm. exact P1.
    + unfold stored. cbn. exact P2.
  - (* a new field *)
    apply (not_true_iff_false) in Hc.
    assert (Hnew : ~ In n (keys h)) by (intros C; apply Hc; now apply contains_in).
    destruct (field_count m =? INT_MAX) eqn:Hfc; [discriminate|].
    apply Z.eqb_neq in Hfc.
    unfold strdup in Hput.
    set (field0 := {| name := Some n; type := ty; value := None;
                      seq := field_count m + 1 |}) in *.
    destruct (put_spec h n field0 W)
      as (h1 & Hput1 & W1 & _ & _ & [[_ P1] | (x & es & Hx & P1 & _)]).
    2:{ exfalso. apply Hnew. unfold keys. rewrite P1. simpl. now left. }
    rewrite Hput1 in Hput. cbn [terminated bind] in Hput.
    set (m1 := {| message_name := message_name m; fields_info := Some h1;
                  field_count := field_count m + 1 |}) in *.
    assert (Hin1 : In {| key := n; Hashmap.value := field0 |} (entries h1)).
    { rewrite P1. now left. }
    pose proof (update_spec m1 h1 n field0 obj eq_refl W1 Hin1) as U.
    destruct (read_value _ obj _) as [nv|why]; [|congruence].
    destruct U as (h2 & Hu & _ & W2 & es & Q1 & Q2).
    rewrite Hu in Hput. injection Hput as <-.
    split; [exists h2; split; [reflexivity | exact W2]|].
    apply (put_new _ _ _ _ nv).
    + unfold stored. rewrite Hm. exact Hnew.
    + reflexivity.
    + pose proof (inv_bound m I). lia.
    + unfold stored. rewrite Hm. cbn.
      rewrite Q2. unfold with_value, field0. cbn. apply perm_skip.
      apply (Permutation_cons_inv (a := {| key := n; Hashmap.value := field0 |})).
      rewrite <- Q1. exact P1.
Qed.

Lemma put_inv m n ty v m' :
  msg_inv m ->
  dynmessage_put_field_and_value m n ty v = Ok m' ->
  msg_inv m'.
Proof.
  intros I Hput.
  destruct (put_cases m n ty v m' I Hput)
    as [-> | (n' & -> & Hty & Hmap & E)]; [exact I|].
  destruct E as [nv Hnew Hfc Hlt P | f nv es Hfc P1 P2].
  - constructor.
    + exact Hmap.
    + rewrite Hfc, (Permutation_length P), (inv_count m I). simpl length. lia.
    + lia.
    + intros e He. rewrite P in He. destruct He as [<-|He].
      * cbn. split_and; eauto.
      * exact (inv_field m I e He).
    + rewrite P. cbn [List.map length Hashmap.value seq].
      rewrite seq_range_S. rewrite (inv_seq m I).
      rewrite (inv_count m I).
      replace (Z.of_nat (length (stored m)) + 1)
        with (Z.of_nat (S (length (stored m)))) by lia.
      apply Permutation_cons_append.
  - assert (Hlen : length (stored m') = length (stored m)).
    { rewrite (Permutation_length P1), (Permutation_length P2). reflexivity. }
    assert (Hf : In {| key := n'; Hashmap.value := f |} (stored m)).
    { rewrite P1. now left. }
    destruct (inv_field m I _ Hf) as (Hname & Htype & _). cbn in Hname, Htype.
    constructor.
    + exact Hmap.
    + rewrite Hfc, Hlen. exact (inv_count m I).
    + rewrite Hfc. exact (inv_bound m I).
    + intros e He. rewrite P2 in He. destruct He as [<-|He].
      * cbn. split_and; eauto.
      * apply (inv_field m I). rewrite P1. now right.
    + rewrite Hlen, P2. rewrite <- (inv_seq m I), P1. reflexivity.
Qed.

Theorem reachable_inv m : reachable m -> msg_inv m.
Proof.
  induction 1 as [m n | m m' n ty v _ IH Hput].
  - apply inv_init.
  - exact (put_inv m n ty v m' IH Hput).
Qed.

Lemma fields_stored m :
  msg_inv m -> fields m = List.map Hashmap.value (stored m).
Proof.
  intros I. destruct (inv_map m I) as (h & Hm & W).
  unfold fields, stored, hashmap_values. rewrite Hm.
  destruct (hashmap_empty h) eqn:E; [|reflexivity].
  unfold hashmap_empty in E. apply Z.eqb_eq in E. rewrite (wf_size h W) in E.
  destruct (entries h); [reflexivity | simpl in E; lia].
Qed.

Lemma put_noop m n ty v :
  v = None \/ ty < ENUMERATION_TYPE \/ STRING_TYPE < ty ->
  dynmessage_put_field_and_value m n ty v = Ok m.
Proof.
  intros H. unfold dynmessage_put_field_and_value.
  destruct (fields_info m); [|reflexivity].
  destruct n; [|reflexivity].
  destruct v; [|reflexivity].
  destruct H as [H | H]; [discriminate|].
  replace ((ty <? ENUMERATION_TYPE) || (ty >? STRING_TYPE)) with true; [reflexivity|].
  symmetry. apply orb_true_iff. rewrite Z.gtb_ltb. rewrite !Z.ltb_lt. exact H.
Qed.

Lemma fill_spec fs : forall temp,
  (forall f, In f fs -> 1 <= seq f <= Z.of_nat (length temp)) ->
  NoDup (List.map seq fs) ->
  exists array, fill fs (Ok temp) = Ok array /\
    length array = length temp /\
    (forall f, In f fs -> nth (Z.to_nat (seq f - 1)) array None = Some f) /\
    (forall i, (forall f, In f fs -> Z.to_nat (seq f - 1) <> i) ->
               nth i array None = nth i temp None).
Proof.
  induction fs as [|f fs IH]; intros temp Hr Hnd.
  - exists temp. simpl. split_and; auto. intros f [].
  - inversion Hnd as [|? ? Hn Hnd']; subst.
    assert (Hf : 1 <= seq f <= Z.of_nat (length temp)) by (apply Hr; now left).
    set (temp1 := set_nth (Z.to_nat (seq f - 1)) (Some f) temp).
    assert (Hstep : store_at temp (seq f - 1) f = Ok temp1).
    { unfold store_at.
      replace ((0 <=? seq f - 1) && (seq f - 1 <? Z.of_nat (length temp))) with true;
        [reflexivity|].
      symmetry. apply andb_true_iff. split; [apply Z.leb_le | apply Z.ltb_lt]; lia. }
    destruct (IH temp1) as (array & F & L & G1 & G2).
    + intros f' Hin. subst temp1. rewrite set_nth_length. apply Hr. now right.
    + exact Hnd'.
    + exists array. unfold fill in *. cbn [fold_left bind]. rewrite Hstep.
      split; [exact F|]. split; [subst temp1; rewrite L; apply set_nth_length|].
      split.
      * intros f' [<-|Hin]; [|now apply G1].
        rewrite G2.
        -- subst temp1. rewrite nth_set_nth by lia. rewrite Nat.eqb_refl. reflexivity.
        -- intros f' Hin C. apply Hn.
           assert (seq f' = seq f).
           { pose proof (Hr f' (or_intror Hin)). lia. }
           rewrite <- H. now apply in_map.
      * intros i Hi. rewrite G2.
        -- subst temp1. rewrite nth_set_nth by lia.
           destruct (Nat.eqb_spec i (Z.to_nat (seq f - 1))) as [->|]; [|reflexivity].
           exfalso. apply (Hi f); [now left | reflexivity].
        -- intros f' Hin. apply Hi. now right.
Qed.

Lemma fold_left_map {A B C} (g : A -> B) (F : C -> B -> C) l c :
  fold_left (fun acc a => F acc (g a)) l c = fold_left F (List.map g l) c.
Proof. revert c; induction l as [|a l IH]; intros c; simpl; auto. Qed.

Lemma seq_range_in n z : In z (seq_range n) <-> 1 <= z <= Z.of_nat n.
Proof.
  unfold seq_range. rewrite in_map_iff. split.
  - intros (k & <- & Hk). apply in_seq in Hk. lia.
  - intros H. exists (Z.to_nat z). split; [lia|]. apply in_seq. lia.
Qed.

Lemma seq_range_nodup n : NoDup (seq_range n).
Proof.
  unfold seq_range. apply Finite.Injective_map_NoDup.
  - intros a b. apply Nat2Z.inj.
  - apply seq_NoDup.
Qed.

(** the descriptor [dynmessage_get_field] fills for a stored field *)
Lemma get_field_stored m e :
  msg_inv m -> In e (stored m) ->
  dynmessage_get_field m (Some (key e)) = Hashmap.value e.
Proof.
  intros I Hin. destruct (inv_map m I) as (h & Hm & W).
  destruct (inv_field m I e Hin) as (Hname & _).
  unfold stored in Hin. rewrite Hm in Hin.
  unfold dynmessage_get_field. rewrite Hm.
  rewrite <- (entry_eta e) in Hin.
  rewrite (proj2 (get_in h _ _ W) Hin).
  rewrite <- Hname. destruct (Hashmap.value e); reflexivity.
Qed.

Lemma get_fields_spec m :
  msg_inv m ->
  exists l, dynmessage_get_fields m = Ok l /\
    list_length l = field_count m /\
    length (list_ l) = Z.to_nat (field_count m) /\
    forall i, 0 <= i < field_count m ->
      exists f, nth (Z.to_nat i) (list_ l) None = Some f /\
                seq f = i + 1 /\ In f (fields m).
Proof.
  intros I. destruct (inv_map m I) as (h & Hm & W).
  pose proof (inv_count m I) as Hc.
  unfold dynmessage_get_fields. rewrite Hm.
  destruct (field_count m >? 0) eqn:Hpos.
  2:{ eexists. split; [reflexivity|]. cbn.
      rewrite Z.gtb_ltb in Hpos. apply Z.ltb_ge in Hpos.
      split_and; try lia. }
  rewrite Z.gtb_ltb in Hpos. apply Z.ltb_lt in Hpos.
  assert (Hst : stored m = entries h) by (unfold stored; now rewrite Hm).
  assert (Hk : hashmap_keys h = Some (keys h)).
  { unfold hashmap_keys, hashmap_empty. rewrite (wf_size h W), <- Hst, <- Hc.
    destruct (Z.eqb_spec (field_count m) 0); [lia | reflexivity]. }
  rewrite Hk. cbn [deref bind].
  rewrite (fold_left_map (fun n => dynmessage_get_field m (Some n))
             (fun acc field => temp <- acc ;; store_at temp (seq field - 1) field)).
  assert (Hfs : List.map (fun n => dynmessage_get_field m (Some n)) (keys h)
                = List.map Hashmap.value (stored m)).
  { unfold keys. rewrite map_map, Hst. apply map_ext_in.
    intros e He. apply get_field_stored; [exact I | now rewrite Hst]. }
  rewrite Hfs. fold (fill (List.map Hashmap.value (stored m))
                          (Ok (repeat None (Z.to_nat (field_count m))))).
  assert (Hseq : Permutation (List.map seq (List.map Hashmap.value (stored m)))
                   (seq_range (Z.to_nat (field_count m)))).
  { rewrite map_map, Hc, Nat2Z.id. exact (inv_seq m I). }
  destruct (fill_spec (List.map Hashmap.value (stored m))
              (repeat None (Z.to_nat (field_count m))))
    as (array & F & L & G & _).
  - intros f Hf. rewrite repeat_length.
    apply seq_range_in. rewrite <- Hseq. now apply in_map.
  - rewrite Hseq. apply seq_range_nodup.
  - rewrite F. cbn [bind]. eexists. split; [reflexivity|]. cbn.
    rewrite repeat_length in L. split_and; auto.
    intros i Hi.
    assert (Hin : In (i + 1) (List.map seq (List.map Hashmap.value (stored m)))).
    { rewrite Hseq. apply seq_range_in. lia. }
    apply in_map_iff in Hin. destruct Hin as (f & Hsf & Hf).
    exists f. rewrite <- (G f Hf), Hsf.
    replace (i + 1 - 1) with i by lia.
    split_and; auto. rewrite (fields_stored m I). exact Hf.
Qed.

Lemma get_unchanged (h h' : hashmap string dyn_field) n x x' es n' :
  wf h -> wf h' -> key x = n -> key x' = n ->
  Permutation (entries h) (x :: es) ->
  Permutation (entries h') (x' :: es) ->
  n' <> n -> hashmap_get h' n' = hashmap_get h n'.
Proof.
  intros W W' Hx Hx' P P' Hne.
  assert (T : forall v, In {| key := n'; Hashmap.value := v |} (entries h') <->
                        In {| key := n'; Hashmap.value := v |} (entries h)).
  { intros v. rewrite P, P'. simpl. split; (intros [C|C]; [|now right]);
      exfalso; apply Hne; [rewrite <- Hx' | rewrite <- Hx];
      rewrite C; reflexivity. }
  destruct (hashmap_get h n') as [v|] eqn:G.
  - apply (get_in h' n' v W'). apply T. now apply (get_in h n' v W).
  - destruct (hashmap_get h' n') as [v|] eqn:G'; [|reflexivity].
    apply (get_in h' n' v W'), T, (get_in h n' v W) in G'. congruence.
Qed.

Theorem put_replaces_spec m h n ty obj nv :
  reachable m ->
  fields_info m = Some h ->
  hashmap_contains_key h n = true ->
  valid_type ty ->
  let f := dynmessage_get_field m (Some n) in
  read_value (type f) obj (value_to_store f) = Ok nv ->
  exists m',
    dynmessage_put_field_and_value m (Some n) ty (Some obj) = Ok m' /\
    dynmessage_get_field m' (Some n) = with_value f nv /\
    field_count m' = field_count m /\
    (forall ty', valid_type ty' ->
       dynmessage_put_field_and_value m (Some n) ty' (Some obj) = Ok m') /\
    dynmessage_put_field_and_value m' (Some n) ty (Some obj) = Ok m' /\
    (forall n', n' <> n ->
       dynmessage_get_field m' (Some n') = dynmessage_get_field m (Some n')).
Proof.
  intros R Hm Hc Hty f Hread.
  pose proof (reachable_inv m R) as I.
  destruct (inv_map m I) as (h0 & Hm0 & W).
  assert (h0 = h) as -> by congruence. clear Hm0.
  pose proof Hc as Hk. apply (contains_in h n W) in Hk.
  pose proof Hk as Hk'. unfold keys in Hk'. apply in_map_iff in Hk'.
  destruct Hk' as (e & He & Hin).
  assert (Hst : In e (stored m)) by (unfold stored; now rewrite Hm).
  assert (Hf : f = Hashmap.value e).
  { subst f. rewrite <- He. now apply get_field_stored. }
  destruct (inv_field m I e Hst) as (Hname & _). rewrite He in Hname.
  rewrite <- (entry_eta e), He, <- Hf in Hin.
  pose proof (update_spec m h n f obj Hm W Hin) as U. rewrite Hread in U.
  destruct U as (h' & Hu & Hput & W' & es & P1 & P2).
  assert (Hvalid : forall ty', valid_type ty' ->
            dynmessage_put_field_and_value m (Some n) ty' (Some obj)
            = Ok (set_fields_info m h')).
  { intros ty' [H1 H2]. unfold dynmessage_put_field_and_value. rewrite Hm.
    replace ((ty' <? ENUMERATION_TYPE) || (ty' >? STRING_TYPE)) with false.
    - rewrite Hc. cbn [negb bind]. exact Hu.
    - symmetry. apply orb_false_iff. rewrite Z.gtb_ltb.
      split; apply Z.ltb_ge; assumption. }
  assert (Hin' : In {| key := n; Hashmap.value := with_value f nv |} (entries h')).
  { rewrite P2. now left. }
  assert (Hget : dynmessage_get_field (set_fields_info m h') (Some n)
                 = with_value f nv).
  { unfold dynmessage_get_field. cbn [set_fields_info fields_info].
    rewrite (proj2 (get_in h' _ _ W') Hin'). unfold with_value. cbn.
    rewrite Hf, Hname. reflexivity. }
  exists (set_fields_info m h'). split_and.
  - apply Hvalid. exact Hty.
  - exact Hget.
  - reflexivity.
  - exact Hvalid.
  - (* the same put once more *)
    destruct Hty as [H1 H2].
    unfold dynmessage_put_field_and_value. cbn [set_fields_info fields_info].
    replace ((ty <? ENUMERATION_TYPE) || (ty >? STRING_TYPE)) with false
      by (symmetry; apply orb_false_iff; rewrite Z.gtb_ltb;
          split; apply Z.ltb_ge; assumption).
    assert (Hc' : hashmap_contains_key h' n = true).
    { apply (contains_in h' n W'). unfold keys. rewrite P2. now left. }
    rewrite Hc'. cbn [negb bind].
    unfold update_field_value. cbn [set_fields_info fields_info deref bind].
    rewrite (proj2 (get_in h' _ _ W') Hin'). cbn [deref bind].
    cbn [with_value value type name seq].
    rewrite (read_value_indep _ _ _ _ Hread). cbn [bind].
    fold (with_value f nv).
    rewrite (put_idem h n (with_value f nv) h' W Hk Hput). reflexivity.
  - intros n' Hne. unfold dynmessage_get_field.
    cbn [set_fields_info fields_info]. rewrite Hm.
    rewrite (get_unchanged h h' n
               {| key := n; Hashmap.value := f |}
               {| key := n; Hashmap.value := with_value f nv |}
               es n' W W' eq_refl eq_refl P1 P2 Hne).
    reflexivity.
Qed.

(** *** Messages built under word-sized names *)

Lemma built_reachable m : built m -> reachable m.
Proof.
  induction 1 as [m n | m m' n ty v _ IH _ Hput].
  - apply reach_init.
  - exact (reach_put m m' (Some n) ty v IH Hput).
Qed.

Lemma stored_init m n : stored (dynmessage_init m (Some n)) = [].
Proof.
  unfold dynmessage_init. rewrite init_table.
  unfold stored; cbn [fields_info]. apply entries_emptied.
Qed.

(** A put keeps the names stored, and one that changes the message
    stores the name it was given. *)
Lemma put_effect_keys m m' n ty :
  put_effect m m' n ty ->
  In n (List.map key (stored m')) /\
  incl (List.map key (stored m)) (List.map key (stored m')).
Proof.
  intros [nv _ _ _ P | f nv es _ P1 P2].
  - split.
    + apply (Permutation_in _ (Permutation_sym (Permutation_map key P))).
      now left.
    + intros k Hk.
      apply (Permutation_in _ (Permutation_sym (Permutation_map key P))).
      now right.
  - split.
    + apply (Permutation_in _ (Permutation_sym (Permutation_map key P2))).
      now left.
    + intros k Hk.
      apply (Permutation_in _ (Permutation_sym (Permutation_map key P2))).
      apply (Permutation_in _ (Permutation_map key P1)) in Hk.
      exact Hk.
Qed.

Lemma built_keys m :
  built m -> forall k, In k (List.map key (stored m)) -> word_sized k.
Proof.
  induction 1 as [m n | m m' n ty v B IH Hn Hput]; intros k Hk.
  - rewrite stored_init in Hk. destruct Hk.
  - pose proof (reachable_inv m (built_reachable m B)) as I.
    destruct (put_cases m (Some n) ty v m' I Hput)
      as [-> | (n' & [= <-] & _ & _ & E)]; [exact (IH k Hk)|].
    inversion E as [nv _ _ _ P | f nv es _ P1 P2].
    + apply (Permutation_in _ (Permutation_map key P)) in Hk.
      destruct Hk as [<- | Hk]; [exact Hn | exact (IH k Hk)].
    + apply (Permutation_in _ (Permutation_map key P2)) in Hk.
      apply IH.
      apply (Permutation_in _ (Permutation_sym (Permutation_map key P1))).
      exact Hk.
Qed.

(** A reachable message whose stored names are word-sized was built
    under word-sized names: every name that was hashed on the way is
    one of them. *)
Lemma reachable_keys_built m :
  reachable m ->
  (forall k, In k (List.map key (stored m)) -> word_sized k) ->
  built m.
Proof.
  induction 1 as [m n | m m' n ty v R IH Hput]; intros Hk.
  - apply built_init.
  - pose proof (reachable_inv m R) as I.
    destruct (put_cases m n ty v m' I Hput)
      as [-> | (n' & -> & _ & _ & E)]; [exact (IH Hk)|].
    destruct (put_effect_keys m m' n' ty E) as (Hin & Hincl).
    apply (built_put m m' n' ty v); [|exact (Hk n' Hin)|exact Hput].
    apply IH. intros k Hkm. exact (Hk k (Hincl k Hkm)).
Qed.

(** The names of the fields are the keys they are stored under. *)
Lemma field_names_keys m :
  msg_inv m ->
  List.map name (fields m) = List.map Some (List.map key (stored m)).
Proof.
  intros I. rewrite (fields_stored m I), !map_map.
  apply map_ext_in. intros e He. apply (inv_field m I e He).
Qed.

Lemma built_names m :
  built m ->
  forall f n, In f (fields m) -> name f = Some n -> word_sized n.
Proof.
  intros B f n Hf Hn.
  pose proof (reachable_inv m (built_reachable m B)) as I.
  apply (built_keys m B).
  assert (H : In (Some n) (List.map name (fields m))).
  { rewrite <- Hn. apply in_map. exact Hf. }
  rewrite (field_names_keys m I) in H.
  apply in_map_iff in H. destruct H as (k & [= ->] & H). exact H.
Qed.

Lemma reachable_names_built m :
  reachable m ->
  (forall f n, In f (fields m) -> name f = Some n -> word_sized n) ->
  built m.
Proof.
  intros R H. pose proof (reachable_inv m R) as I.
  apply (reachable_keys_built m R). intros k Hk.
  assert (Hin : In (Some k) (List.map name (fields m))).
  { rewrite (field_names_keys m I). apply in_map. exact Hk. }
  apply in_map_iff in Hin. destruct Hin as (f & Hn & Hf).
  exact (H f k Hf Hn).
Qed.

(** The messages [build] makes under word-sized names. *)
Lemma build_built nm puts :
  Forall (fun p => word_sized (fst (fst p))) puts ->
  is_ok (build nm puts) = true -> built (from_ok (build nm puts)).
Proof.
  unfold build.
  assert (G : forall (ps : list (string * dyn_field_type * c_object)) r,
            Forall (fun p => word_sized (fst (fst p))) ps ->
            (forall m0, r = Ok m0 -> built m0) ->
            forall m,
              fold_left
                (fun acc p =>
                   m <- acc ;;
                   dynmessage_put_field_and_value m (Some (fst (fst p)))
                     (snd (fst p)) (Some (snd p))) ps r = Ok m ->
              built m).
  { induction ps as [|p ps IH]; intros r Hps Hr m; cbn [fold_left].
    - apply Hr.
    - apply IH; [exact (Forall_inv_tail Hps)|]. intros m1.
      destruct r as [m0|]; cbn [bind]; [|discriminate].
      intros H.
      exact (built_put _ _ _ _ _ (Hr m0 eq_refl) (Forall_inv Hps) H). }
  intros Hps Hok.
  apply (G puts (Ok (dynmessage_init dynmessage_create (Some nm))) Hps).
  - intros m0 E.
    assert (E' : dynmessage_init dynmessage_create (Some nm) = m0)
      by congruence.
    rewrite <- E'. exact (built_init dynmessage_create nm).
  - destruct (fold_left _ puts _); [reflexivity | discriminate].
Qed.

End DynmessageTheory.

(** * The claims of the specification *)

Section Claims.

Import HashmapTheory.
Import Dynmessage.
Import DynmessageCerializer.

Open Scope string_scope.

(** ** The primitive codec *)

(** C4.  For every integer [x] in the representable range of its kind
    (16, 32 or 64 bits, signed or unsigned), unpacking the big-endian
    bytes that packing [x] writes returns [x]; and on any field of the
    width of the kind a signed decoder returns the two's-complement sign
    extension of the big-endian value of the field (an unsigned decoder
    that value itself). *)
Theorem integer_roundtrip (k : int_kind) (x : Z) (buf : list Z) :
  in_range k x -> is_field k buf ->
  unpack k (pack k x) = x /\ unpack k buf = field_value k buf.
Proof.
  intros Hx Hbuf. split; [|now apply unpack_field_value].
  rewrite (unpack_field_value k (pack k x) (pack_is_field k x)).
  unfold field_value. rewrite be_value_pack.
  unfold in_range in Hx.
  destruct k; cbn [kind_signed kind_bits] in *;
    try (apply Z.mod_small; exact Hx);
    unfold sext;
    repeat match goal with
           | |- context [2 ^ ?n] =>
               let v := eval cbv in (2 ^ n) in change (2 ^ n) with v in *
           end;
    Z.div_mod_to_equations; lia.
Qed.

Lemma integer_roundtrip_witness :
  in_range I16 (-2) /\ is_field I16 [0xFF; 0xFE] /\
  unpack I16 (pack I16 (-2)) = -2 /\
  unpack I16 [0xFF; 0xFE] = field_value I16 [0xFF; 0xFE].
Proof.
  assert (H1 : in_range I16 (-2)) by (unfold in_range; simpl; lia).
  assert (H2 : is_field I16 [0xFF; 0xFE]).
  { split; [reflexivity|]. repeat constructor; unfold is_byte; lia. }
  split; [exact H1|]. split; [exact H2|].
  exact (integer_roundtrip I16 (-2) [0xFF; 0xFE] H1 H2).
Defined.

(** ** The container *)

(** C5, as amended.  On a message built under word-sized names, a
    [dynmessage_put_field_and_value] with a name the message already
    holds and a value the type of the field can read.  With a type
    argument in the valid range the call returns a message that is
    built as well; the field keeps its type and its [seq] and holds the
    value read through its own type; [field_count] is unchanged, and
    so is what [dynmessage_get_field] gives for every other word-sized
    name; the result is the same whatever valid type the
    call names; and the same put once more leaves the message as it is.
    With a type argument outside the range the call returns the message
    as it was. *)
Theorem put_replaces_in_place (m : dynamicmessage)
    (h : Hashmap.hashmap string dyn_field) (n : string)
    (ty : dyn_field_type) (obj : c_object) (nv : dyn_field_value) :
  built m ->
  fields_info m = Some h ->
  Hashmap.hashmap_contains_key h n = true ->
  let f := dynmessage_get_field m (Some n) in
  read_value (type f) obj (value_to_store f) = Ok nv ->
  (valid_type ty ->
   exists m',
     built m' /\
     dynmessage_put_field_and_value m (Some n) ty (Some obj) = Ok m' /\
     dynmessage_get_field m' (Some n) = with_value f nv /\
     field_count m' = field_count m /\
     (forall ty', valid_type ty' ->
        dynmessage_put_field_and_value m (Some n) ty' (Some obj) = Ok m') /\
     dynmessage_put_field_and_value m' (Some n) ty (Some obj) = Ok m' /\
     (forall n', word_sized n' -> n' <> n ->
        dynmessage_get_field m' (Some n') = dynmessage_get_field m (Some n')))
  /\
  (~ valid_type ty ->
   dynmessage_put_field_and_value m (Some n) ty (Some obj) = Ok m).
Proof.
  intros B Hm Hc f Hread. pose proof (built_reachable m B) as R.
  split.
  - intros Hty.
    destruct (put_replaces_spec m h n ty obj nv R Hm Hc Hty Hread)
      as (m' & Hput & Hget & Hcount & Hany & Hidem & Hother).
    exists m'. split_and; auto.
    apply (built_put m m' n ty (Some obj) B); [|exact Hput].
    apply (built_keys m B). unfold stored. rewrite Hm.
    destruct (inv_map m (reachable_inv m R)) as (h0 & Hm0 & W).
    assert (E : h0 = h) by congruence. subst h0.
    exact (proj1 (contains_in h n W) Hc).
  - intros Hty. apply put_noop. right.
    unfold valid_type in Hty. lia.
Qed.


(** C10.  Every field of a reachable message has a value (the pointer
    is not [NULL]) and a type in [ENUMERATION_TYPE .. STRING_TYPE]; and
    on any message a put with a [NULL] value, with [NO_TYPE] or with a
    type outside that range returns the message as it was, so it
    creates no field. *)
Theorem stored_fields_valued (m : dynamicmessage) :
  reachable m ->
  (forall f, In f (fields m) ->
     (exists v, value f = Some v) /\ valid_type (type f) /\
     type f <> NO_TYPE) /\
  (forall m0 n ty v,
     v = None \/ ty < ENUMERATION_TYPE \/ STRING_TYPE < ty ->
     dynmessage_put_field_and_value m0 n ty v = Ok m0).
Proof.
  intros R. pose proof (reachable_inv m R) as I. split.
  - intros f Hf. rewrite (fields_stored m I) in Hf.
    apply in_map_iff in Hf. destruct Hf as (e & <- & He).
    destruct (inv_field m I e He) as (_ & Hty & Hv).
    split_and; auto. unfold valid_type, STRING_TYPE, NO_TYPE in *. lia.
  - intros m0 n ty v. apply put_noop.
Qed.

Lemma is_ok_from_ok (r : outcome dynamicmessage) :
  is_ok r = true -> r = Ok (from_ok r).
Proof. destruct r; [reflexivity | discriminate]. Qed.

Lemma sample_message_reachable : reachable sample_message.
Proof.
  apply (reach_put (dynmessage_init dynmessage_create (Some "m"))
           sample_message (Some "f") INT32_TYPE (Some (Obj_int 8 7))).
  - apply reach_init.
  - apply (is_ok_from_ok
             (dynmessage_put_field_and_value
                (dynmessage_init dynmessage_create (Some "m"))
                (Some "f") INT32_TYPE (Some (Obj_int 8 7)))).
    vm_compute. reflexivity.
Qed.

Lemma sized_message_built : built sized_message.
Proof.
  apply build_built; [|vm_compute; reflexivity].
  repeat constructor; unfold word_sized, strlen; cbn; lia.
Qed.

Lemma sized_table_fields : fields_info sized_message = Some sized_table.
Proof.
  unfold sized_table.
  destruct (fields_info sized_message) eqn:E; [reflexivity|].
  assert (C : match fields_info sized_message with
              | Some _ => true
              | None => false
              end = true) by (vm_compute; reflexivity).
  rewrite E in C. discriminate.
Qed.

Lemma put_replaces_in_place_witness :
  (exists m',
     built m' /\
     dynmessage_put_field_and_value sized_message (Some "velocity")
       UNSIGNED_INT16_TYPE (Some (Obj_int 8 9)) = Ok m' /\
     dynmessage_get_field m' (Some "velocity")
     = with_value (dynmessage_get_field sized_message (Some "velocity"))
         (int32_value 9) /\
     field_count m' = field_count sized_message /\
     (forall ty', valid_type ty' ->
        dynmessage_put_field_and_value sized_message (Some "velocity") ty'
          (Some (Obj_int 8 9)) = Ok m') /\
     dynmessage_put_field_and_value m' (Some "velocity")
       UNSIGNED_INT16_TYPE (Some (Obj_int 8 9)) = Ok m' /\
     (forall n', word_sized n' -> n' <> "velocity" ->
        dynmessage_get_field m' (Some n')
        = dynmessage_get_field sized_message (Some n')))
  /\
  dynmessage_put_field_and_value sized_message (Some "velocity")
    NO_TYPE (Some (Obj_int 8 9)) = Ok sized_message.
Proof.
  assert (C : Hashmap.hashmap_contains_key sized_table "velocity" = true)
    by (vm_compute; reflexivity).
  assert (V : read_value
                (type (dynmessage_get_field sized_message (Some "velocity")))
                (Obj_int 8 9)
                (value_to_store
                   (dynmessage_get_field sized_message (Some "velocity")))
              = Ok (int32_value 9))
    by (vm_compute; reflexivity).
  split.
  - apply (proj1 (put_replaces_in_place sized_message sized_table "velocity"
                    UNSIGNED_INT16_TYPE (Obj_int 8 9) (int32_value 9)
                    sized_message_built sized_table_fields C V)).
    unfold valid_type, ENUMERATION_TYPE, UNSIGNED_INT16_TYPE, STRING_TYPE.
    lia.
  - apply (proj2 (put_replaces_in_place sized_message sized_table "velocity"
                    NO_TYPE (Obj_int 8 9) (int32_value 9)
                    sized_message_built sized_table_fields C V)).
    unfold valid_type, ENUMERATION_TYPE, NO_TYPE, STRING_TYPE. lia.
Defined.

(** The claim C5 as the specification words it does not hold: the type
    argument of a put with a name the message holds is not ignored.
    [sized_message] holds ["velocity"] with the value 7; the put of 9
    under [NO_TYPE] returns at the range test, and the field still
    holds 7, where the value read through the type of the field is
    9. *)
Lemma put_outside_type_range_replaces_nothing :
  dynmessage_get_field sized_message (Some "velocity")
  = {| name := Some "velocity"; type := INT32_TYPE;
       value := Some (int32_value 7); seq := 1 |} /\
  read_value INT32_TYPE (Obj_int 8 9) (int32_value 7)
  = Ok (int32_value 9) /\
  dynmessage_put_field_and_value sized_message (Some "velocity") NO_TYPE
    (Some (Obj_int 8 9)) = Ok sized_message /\
  ~ (exists m',
       dynmessage_put_field_and_value sized_message (Some "velocity")
         NO_TYPE (Some (Obj_int 8 9)) = Ok m' /\
       dynmessage_get_field m' (Some "velocity")
       = with_value (dynmessage_get_field sized_message (Some "velocity"))
           (int32_value 9)).
Proof.
  assert (G : dynmessage_get_field sized_message (Some "velocity")
              = {| name := Some "velocity"; type := INT32_TYPE;
                   value := Some (int32_value 7); seq := 1 |})
    by (vm_compute; reflexivity).
  assert (P : dynmessage_put_field_and_value sized_message
                (Some "velocity") NO_TYPE (Some (Obj_int 8 9))
              = Ok sized_message).
  { apply put_noop. right. unfold NO_TYPE, ENUMERATION_TYPE, STRING_TYPE.
    lia. }
  split_and; [exact G | vm_compute; reflexivity | exact P |].
  intros (m' & Hput & Hget). rewrite P in Hput.
  assert (E : sized_message = m') by congruence. subst m'.
  rewrite G in Hget. apply (f_equal value) in Hget.
  cbn [with_value value] in Hget. congruence.
Qed.


Lemma stored_fields_valued_witness :
  (forall f, In f (fields sample_message) ->
     (exists v, value f = Some v) /\ valid_type (type f) /\
     type f <> NO_TYPE) /\
  (forall m0 n ty v,
     v = None \/ ty < ENUMERATION_TYPE \/ STRING_TYPE < ty ->
     dynmessage_put_field_and_value m0 n ty v = Ok m0).
Proof.
  apply (stored_fields_valued sample_message).
  exact sample_message_reachable.
Defined.

(** ** The framed codec *)

(** C8.  For a message with zero fields the computed length is 0, which
    is at most [DYN_MSG_MIN_LEN] = 32, and [dynmessage_serialize_bin]
    leaves the [serialized_data_info] it is given as it was: no buffer
    is allocated and [ser_data_len] is not written. *)
Theorem empty_message_not_emitted (message : dynamicmessage) :
  field_count message = 0 ->
  (exists len, calc_dynmessage_serialized_len message = Ok len /\
               len <= DYN_MSG_MIN_LEN) /\
  (forall heap serdi,
     dynmessage_serialize_bin heap message serdi = Ok serdi).
Proof.
  intros H0.
  assert (G : dynmessage_get_fields message
              = Ok {| list_ := []; list_length := 0 |}).
  { unfold dynmessage_get_fields. rewrite H0.
    destruct (fields_info message); reflexivity. }
  assert (C : calc_dynmessage_serialized_len message = Ok 0).
  { unfold calc_dynmessage_serialized_len. rewrite G. reflexivity. }
  split.
  - exists 0. split; [exact C | unfold DYN_MSG_MIN_LEN; lia].
  - intros heap serdi. unfold dynmessage_serialize_bin. rewrite C. reflexivity.
Qed.

Lemma empty_message_not_emitted_witness :
  (exists len,
     calc_dynmessage_serialized_len
       (dynmessage_init dynmessage_create (Some "empty")) = Ok len /\
     len <= DYN_MSG_MIN_LEN) /\
  (forall heap serdi,
     dynmessage_serialize_bin heap
       (dynmessage_init dynmessage_create (Some "empty")) serdi = Ok serdi).
Proof.
  apply (empty_message_not_emitted
           (dynmessage_init dynmessage_create (Some "empty"))).
  reflexivity.
Defined.

(** C1.  The length the code computes is not the length of the
    specification: the size table has no row for the two 8-bit types, so
    every type after [ENUMERATION_TYPE] reads the row of another type.
    For the message ["m"] with one INT16 field ["a"] the code computes
    38 where the formula of the specification gives 36. *)
Theorem serialized_len_int16 :
  (m <- int16_message ;; calc_dynmessage_serialized_len m) = Ok 38 /\
  (m <- int16_message ;; Ok (spec_serialized_len m)) = Ok 36 /\
  List.map ser_size
    [INT16_TYPE; UNSIGNED_INT16_TYPE; INT32_TYPE; UNSIGNED_INT32_TYPE;
     INT64_TYPE; UNSIGNED_INT64_TYPE; FLOAT32_TYPE; FLOAT64_TYPE]
  = [Ok 4; Ok 4; Ok 8; Ok 8; Ok 4; Ok 8; Ok 0; Ok 0].
Proof. split_and; vm_compute; reflexivity. Qed.

(** C2.  The frame does not round-trip.  An INT64 field is given four
    bytes in the frame: the serializer writes eight, the next sub-frame
    overwrites the last four, and the decoder reads eight bytes from a
    buffer of four.  The Heartbeat message of the example ends in a
    FLOAT64 field, which is given no byte at all: the serializer writes
    its eight bytes after the end of the buffer. *)
Theorem roundtrip_undefined (heap : nat -> Z) :
  (m <- int64_message ;; roundtrip heap m) = Undef OutOfBounds /\
  (m <- heartbeat ;;
   dynmessage_serialize_bin heap m unset_serdi) = Undef OutOfBounds.
Proof. split; vm_compute; reflexivity. Qed.

(** C3.  An input of four to seven bytes that starts with the magic
    constant is not rejected: [get_encoded_dynmessage_length] answers 0
    for it, [verify_full_dynmessage] accepts, and the decoder reads the
    name length after the end of the input. *)
Theorem short_input_not_rejected :
  verify_full_dynmessage (Some magic_only) 4 = Ok true /\
  dynmessage_deserialize_bin (Some magic_only) 4 = Undef OutOfBounds.
Proof. split; vm_compute; reflexivity. Qed.

(** C7.  [dynmessage_put_field] registers nothing: its [NULL] value
    makes [dynmessage_put_field_and_value] return at once.  So a
    sub-frame of a type the decoder has no case for leaves no field:
    the frame with one INT8 sub-frame decodes to a message without
    fields, and after the sub-frame ["reserved"] of the unknown ordinal
    99, whose three value bytes are skipped, the next field,
    ["sequence"], gets [seq] 1. *)
Theorem put_field_registers_nothing :
  (forall m n ty, dynmessage_put_field m n ty = Ok m) /\
  (r <- dynmessage_deserialize_bin (Some int8_frame) 35 ;; observe r)
  = Ok (Some (Some "m", 0, [])) /\
  (r <- dynmessage_deserialize_bin (Some unknown_type_frame) 72 ;; observe r)
  = Ok (Some (Some "m", 1,
              [Some {| name := Some "sequence"; type := INT32_TYPE;
                       value := Some (int32_value 7); seq := 1 |}])).
Proof.
  split_and.
  - intros m n ty. unfold dynmessage_put_field. apply put_noop. now left.
  - vm_compute. reflexivity.
  - vm_compute. reflexivity.
Qed.


End Claims.

(** * Further properties of the code *)

(** ** The linked list *)

Module SlinkedlistTheory.

Import Slinkedlist.

Section Laws.
Context {A : Type}.
Implicit Types (l : slinkedlist A) (x y : A) (xs : list A).

Lemma proper_append l x :
  proper l ->
  exists l', slinkedlist_append l x = Ok l' /\
             nodes l' = nodes l ++ [x] /\ proper l'.
Proof.
  intros [Hs Ht]. unfold slinkedlist_append.
  destruct (nodes l) as [|d rest] eqn:En.
  - eexists. split; [reflexivity|]. split; [reflexivity|].
    split; cbn; [rewrite Hs; reflexivity | reflexivity].
  - rewrite Ht. cbn [length].
    replace (S (length rest) - 1)%nat with (length rest) by lia.
    destruct (Nat.ltb_spec (length rest) (S (length rest))) as [_|C]; [|lia].
    eexists. split; [reflexivity|].
    assert (E : firstn (S (length rest)) (d :: rest) = d :: rest).
    { apply firstn_all2. cbn. lia. }
    rewrite E. split; [reflexivity|].
    split; cbn [nodes size tail].
    + rewrite Hs, length_app. cbn [length]. lia.
    + destruct ((d :: rest) ++ [x]) eqn:E2; [discriminate|].
      rewrite <- E2, length_app. cbn [length]. f_equal. lia.
Qed.

Lemma appended_snoc xs x :
  appended (xs ++ [x]) = (l <- appended xs ;; slinkedlist_append l x).
Proof. unfold appended. rewrite fold_left_app. reflexivity. Qed.

Lemma appended_proper xs :
  exists l, appended xs = Ok l /\ nodes l = xs /\ proper l.
Proof.
  induction xs as [|x xs IH] using rev_ind.
  - exists slinkedlist_create. split; [reflexivity|].
    split; [reflexivity|]. split; reflexivity.
  - destruct IH as (l & E & N & P).
    destruct (proper_append l x P) as (l' & E' & N' & P').
    exists l'. rewrite appended_snoc, E. cbn [bind].
    split; [exact E'|]. split; [congruence | exact P'].
Qed.

Lemma proper_to_array l :
  proper l ->
  slinkedlist_to_array l
  = Ok (match nodes l with
        | [] => None
        | _ :: _ => Some (List.map Some (nodes l))
        end).
Proof.
  intros [Hs Ht]. unfold slinkedlist_to_array, slinkedlist_empty.
  rewrite Hs. destruct (nodes l) as [|d rest] eqn:En; [reflexivity|].
  destruct (Z.eqb_spec (Z.of_nat (length (d :: rest))) 0) as [C|_];
    [cbn in C; lia|].
  rewrite Nat2Z.id, Nat.leb_refl, Nat.sub_diag. cbn [repeat].
  rewrite app_nil_r. reflexivity.
Qed.

Lemma proper_delete_head l :
  proper l ->
  exists l', slinkedlist_delete_head l = Ok (hd_error (nodes l), l') /\
             nodes l' = tl (nodes l) /\ proper l'.
Proof.
  intros [Hs Ht]. unfold slinkedlist_delete_head, slinkedlist_empty.
  rewrite Hs. destruct (nodes l) as [|d rest] eqn:En.
  - exists l. cbn. rewrite En. split; [reflexivity|]. split; [reflexivity|].
    split; [rewrite Hs, En; reflexivity | rewrite Ht, En; reflexivity].
  - destruct (Z.eqb_spec (Z.of_nat (length (d :: rest))) 0) as [C|_];
      [cbn in C; lia|].
    eexists. split; [reflexivity|]. split; [reflexivity|].
    split; cbn [nodes size tail hd_error tl].
    + cbn [length]. lia.
    + rewrite Ht. cbn [length].
      destruct rest as [|d' rest']; cbn [length].
      * reflexivity.
      * destruct (Z.eqb_spec (Z.of_nat (S (S (length rest'))) - 1) 0) as [C|_];
          [lia|].
        replace (S (S (length rest')) - 1)%nat with (S (length rest')) by lia.
        f_equal. lia.
Qed.

Lemma proper_delete_tail l :
  proper l ->
  exists l',
    slinkedlist_delete_tail l
    = Ok (match nodes l with
          | [] => None
          | d :: rest => Some (last rest d)
          end, l') /\
    nodes l' = removelast (nodes l) /\ proper l'.
Proof.
  intros [Hs Ht]. unfold slinkedlist_delete_tail, slinkedlist_empty.
  rewrite Hs. destruct (nodes l) as [|d rest] eqn:En.
  - exists l. cbn. rewrite En. split; [reflexivity|]. split; [reflexivity|].
    split; [rewrite Hs, En; reflexivity | rewrite Ht, En; reflexivity].
  - destruct (Z.eqb_spec (Z.of_nat (length (d :: rest))) 0) as [C|_];
      [cbn in C; lia|].
    destruct rest as [|d' rest'].
    + eexists. split; [reflexivity|]. split; [reflexivity|].
      split; cbn; reflexivity.
    + eexists. split; [reflexivity|]. split; [reflexivity|].
      assert (Hl : length (removelast (d :: d' :: rest')) = S (length rest')).
      { rewrite removelast_firstn_len, length_firstn. cbn [length]. lia. }
      split; cbn [nodes size tail].
      * rewrite Hl. cbn [length]. lia.
      * destruct (removelast (d :: d' :: rest')) eqn:E; [cbn in Hl; lia|].
        rewrite Hl. cbn [length]. first [reflexivity | f_equal; lia].
Qed.

Lemma proper_reverse l :
  proper l ->
  nodes (slinkedlist_reverse l) = rev (nodes l) /\
  proper (slinkedlist_reverse l) /\
  slinkedlist_reverse (slinkedlist_reverse l) = l.
Proof.
  destruct l as [ns sz tl]. intros [Hs Ht]. cbn [nodes size tail] in Hs, Ht.
  subst sz tl. destruct ns as [|d rest].
  - split; [reflexivity|]. split; [split; reflexivity | reflexivity].
  - assert (Hne : (Z.of_nat (length (d :: rest)) =? 0) = false).
    { apply Z.eqb_neq. cbn [length]. lia. }
    assert (Hr : exists d' rest', rev (d :: rest) = d' :: rest').
    { destruct (rev (d :: rest)) as [|d' rest'] eqn:E; [|eauto].
      apply (f_equal (@length A)) in E. rewrite length_rev in E.
      discriminate. }
    destruct Hr as (d' & rest' & Hr).
    assert (E1 : slinkedlist_reverse
                   {| nodes := d :: rest;
                      size := Z.of_nat (length (d :: rest));
                      tail := Node (length (d :: rest) - 1) |}
                 = {| nodes := rev (d :: rest);
                      size := Z.of_nat (length (d :: rest));
                      tail := Node (length (d :: rest) - 1) |}).
    { unfold slinkedlist_reverse, slinkedlist_empty. cbn [nodes size tail].
      rewrite Hne. reflexivity. }
    rewrite E1. cbn [nodes]. split; [reflexivity|]. split.
    + split; cbn [nodes size tail].
      * rewrite length_rev. reflexivity.
      * rewrite Hr, <- Hr, length_rev. reflexivity.
    + unfold slinkedlist_reverse, slinkedlist_empty. cbn [nodes size tail].
      rewrite Hne, rev_involutive, length_rev, Hr. reflexivity.
Qed.

Section References.
Variable eqb : A -> A -> bool.
Hypothesis eqb_eq : forall a b, eqb a b = true <-> a = b.

Lemma find_node_none x xs : find_node eqb x xs = None <-> ~ In x xs.
Proof.
  induction xs as [|d rest IH]; cbn; [tauto|].
  destruct (eqb d x) eqn:E.
  - apply eqb_eq in E. split; [discriminate | intros C; exfalso; auto].
  - assert (d <> x) by (intros C; apply eqb_eq in C; congruence).
    destruct (find_node eqb x rest).
    + split; [discriminate|]. intros C.
      assert (D : Some n = None) by (apply IH; tauto). discriminate.
    + split; [|reflexivity]. intros _ [C|C]; [contradiction|].
      revert C. apply IH. reflexivity.
Qed.

Lemma find_node_some x xs j :
  find_node eqb x xs = Some j ->
  exists before after,
    xs = before ++ x :: after /\ ~ In x before /\ length before = j /\
    unlink j xs = before ++ after.
Proof.
  revert j. induction xs as [|d rest IH]; cbn; [discriminate|]. intros j.
  destruct (eqb d x) eqn:E.
  - intros [= <-]. apply eqb_eq in E. subst d.
    exists [], rest. cbn. auto.
  - assert (d <> x) by (intros C; apply eqb_eq in C; congruence).
    destruct (find_node eqb x rest) as [j'|]; [|discriminate].
    intros [= <-]. destruct (IH j' eq_refl) as (b & a & -> & Hn & Hl & Hu).
    exists (d :: b), a. cbn. rewrite Hu, Hl.
    split; [reflexivity|]. split; [tauto|]. split; reflexivity.
Qed.

Lemma proper_contains l x :
  proper l -> (slinkedlist_contains eqb l x = 1 <-> In x (nodes l)).
Proof.
  intros [Hs Ht]. unfold slinkedlist_contains, slinkedlist_empty. rewrite Hs.
  destruct (nodes l) as [|d rest] eqn:En.
  - cbn. split; [discriminate | tauto].
  - destruct (Z.eqb_spec (Z.of_nat (length (d :: rest))) 0) as [C|_];
      [cbn in C; lia|].
    destruct (existsb (fun d0 => eqb d0 x) (d :: rest)) eqn:Ex.
    + split; [|reflexivity]. intros _. apply existsb_exists in Ex.
      destruct Ex as (y & Hy & Ey). apply eqb_eq in Ey. now subst y.
    + split; [discriminate|]. intros Hin.
      assert (C : existsb (fun d0 => eqb d0 x) (d :: rest) = true).
      { apply existsb_exists. exists x. split; [exact Hin | now apply eqb_eq]. }
      congruence.
Qed.

Lemma proper_delete_data l x :
  proper l ->
  exists r l',
    slinkedlist_delete_data eqb l x = Ok (r, l') /\ proper l' /\
    ((r = 1 /\ exists before after,
        nodes l = before ++ x :: after /\ ~ In x before /\
        nodes l' = before ++ after)
     \/ (r = 0 /\ ~ In x (nodes l) /\ l' = l)).
Proof.
  intros P. pose proof P as [Hs Ht]. destruct l as [ns sz tl].
  cbn [nodes size tail] in *. subst sz tl.
  unfold slinkedlist_delete_data, slinkedlist_empty. cbn [nodes size tail].
  destruct ns as [|d rest].
  - eexists 0, _. split; [reflexivity|]. split; [exact P|]. right. auto.
  - destruct (Z.eqb_spec (Z.of_nat (length (d :: rest))) 0) as [C|_];
      [cbn in C; lia|].
    destruct (find_node eqb x (d :: rest)) as [j|] eqn:F.
    2:{ eexists 0, _. split; [reflexivity|]. split; [exact P|].
        right. split; [reflexivity|].
        split; [now apply find_node_none | reflexivity]. }
    destruct (find_node_some x (d :: rest) j F)
      as (before & after & E & Hn & Hl & Hu).
    eexists 1, _. split; [reflexivity|].
    assert (Hlen : length (d :: rest) = S (length before + length after)).
    { rewrite E, length_app. cbn [length]. lia. }
    split.
    + split; cbn [nodes size tail].
      * rewrite Hu, length_app, Hlen. lia.
      * rewrite Hu, Hlen.
        replace (S (length before + length after) - 1)%nat
          with (length before + length after)%nat by lia.
        destruct (Nat.eqb_spec (length before + length after) j) as [Ej|Ej].
        -- assert (after = []) by (destruct after; [reflexivity | cbn in Ej; lia]).
           subst after. rewrite app_nil_r.
           destruct j as [|j'].
           ++ destruct before; [reflexivity | discriminate].
           ++ destruct before as [|b0 before']; [discriminate|].
              cbn [length] in *. f_equal. lia.
        -- destruct (Nat.ltb_spec j (length before + length after)) as [Lj|Lj];
             [|lia].
           destruct (before ++ after) eqn:Eb.
           ++ apply (f_equal (@length A)) in Eb. rewrite length_app in Eb.
              cbn in Eb. lia.
           ++ rewrite <- Eb, length_app. reflexivity.
    + left. split; [reflexivity|]. exists before, after.
      cbn [nodes]. auto.
Qed.

End References.

End Laws.

End SlinkedlistTheory.

(** ** The hash map: lookup, insertion, removal *)

Module HashmapLaws.

Import Hashmap.
Import HashmapTheory.

Section Laws.
Context {K V : Type}.
Implicit Types (h : hashmap K V) (k : K) (v : V) (e : hashmap_entry K V)
  (b : list (hashmap_entry K V)).

(** Lookups depend on the entries only. *)
Lemma get_same h h' k :
  wf h -> wf h' ->
  (forall v, In {| key := k; value := v |} (entries h') <->
             In {| key := k; value := v |} (entries h)) ->
  hashmap_get h' k = hashmap_get h k.
Proof.
  intros W W' T.
  destruct (hashmap_get h k) as [v|] eqn:G.
  - apply (get_in h' k v W'). apply T. now apply (get_in h k v W).
  - destruct (hashmap_get h' k) as [v|] eqn:G'; [|reflexivity].
    apply (get_in h' k v W') in G'. apply T in G'.
    apply (get_in h k v W) in G'. congruence.
Qed.

Lemma contains_get h k :
  wf h ->
  (hashmap_contains_key h k = true <-> exists v, hashmap_get h k = Some v).
Proof.
  intros W. rewrite (contains_in h k W). unfold keys. split.
  - intros Hin. apply in_map_iff in Hin. destruct Hin as (e & <- & He).
    exists (value e). apply (get_in h _ _ W). now rewrite entry_eta.
  - intros (v & G). apply (get_in h k v W) in G.
    change k with (key {| key := k; value := v |}). now apply in_map.
Qed.

Lemma contains_false_get h k :
  wf h -> hashmap_contains_key h k = false -> hashmap_get h k = None.
Proof.
  intros W C. destruct (hashmap_get h k) as [v|] eqn:G; [|reflexivity].
  assert (T : hashmap_contains_key h k = true)
    by (apply (contains_get h k W); eauto).
  congruence.
Qed.

(** All of [hashmap_put] on a well-formed map. *)
Lemma put_laws h k v :
  wf h ->
  exists h', hashmap_put h k v = Some h' /\ wf h' /\
    hashmap_get h' k = Some v /\
    (forall k', k' <> k -> hashmap_get h' k' = hashmap_get h k') /\
    size h' = (if hashmap_contains_key h k then size h else size h + 1) /\
    Permutation (keys h')
      (if hashmap_contains_key h k then keys h else k :: keys h).
Proof.
  intros W.
  destruct (put_spec h k v W)
    as (h' & Hput & W' & _ & _ & [[Hnew P] | (x & es & Hx & P1 & P2)]).
  - assert (Hc : hashmap_contains_key h k = false).
    { destruct (hashmap_contains_key h k) eqn:C; [|reflexivity].
      apply (contains_in h k W) in C. contradiction. }
    exists h'. rewrite Hc. split_and; auto.
    + apply (get_in h' k v W'). rewrite P. now left.
    + intros k' Hne. apply (get_same h h' k' W W'). intros v'.
      rewrite P. cbn. split; [intros [C|C]; [congruence | exact C] | now right].
    + rewrite (wf_size h' W'), (wf_size h W), (Permutation_length P).
      cbn [length]. lia.
    + unfold keys. rewrite P. reflexivity.
  - assert (Hc : hashmap_contains_key h k = true).
    { apply (contains_in h k W). unfold keys. rewrite P1, <- Hx. now left. }
    exists h'. rewrite Hc. split_and; auto.
    + apply (get_in h' k v W'). rewrite P2. now left.
    + intros k' Hne. apply (get_same h h' k' W W'). intros v'.
      rewrite P1, P2. cbn.
      split; (intros [C|C]; [exfalso | now right]); apply Hne.
      * congruence.
      * rewrite <- Hx, C. reflexivity.
    + rewrite (wf_size h' W'), (wf_size h W), (Permutation_length P1),
        (Permutation_length P2). reflexivity.
    + unfold keys. rewrite P1, P2. cbn. rewrite Hx. reflexivity.
Qed.

(** [hashmap_init] with a capacity that is positive as an [int]. *)
Lemma init_laws (deref : K -> Z) h0 c eqb (hash : option (K -> Z)) :
  0 < c <= INT_MAX ->
  (forall k1 k2, eqb k1 k2 = true <-> k1 = k2) ->
  let h := hashmap_init deref h0 c (Some eqb) hash in
  wf h /\ entries h = [] /\ capacity h = c /\ size h = 0.
Proof.
  intros Hc Heq h.
  assert (Hs : (sext 32 c <=? 0) = false).
  { apply Z.leb_gt. rewrite sext_small; unfold INT_MAX in Hc; lia. }
  assert (E : h = emptied h c).
  { subst h. unfold hashmap_init, emptied. rewrite Hs. reflexivity. }
  rewrite E. split_and.
  - apply wf_emptied; [|lia]. subst h. exact Heq.
  - apply entries_emptied.
  - reflexivity.
  - reflexivity.
Qed.

Lemma empty_laws h :
  wf h -> entries h = [] ->
  hashmap_empty h = true /\ hashmap_keys h = None /\
  hashmap_values h = None /\ hashmap_entries h = None /\
  forall k, hashmap_get h k = None /\ hashmap_contains_key h k = false.
Proof.
  intros W E.
  assert (He : hashmap_empty h = true).
  { unfold hashmap_empty. rewrite (wf_size h W), E. reflexivity. }
  unfold hashmap_keys, hashmap_values, hashmap_entries. rewrite He.
  split_and; auto; intros k.
  assert (C : hashmap_contains_key h k = false).
  { destruct (hashmap_contains_key h k) eqn:C; [|reflexivity].
    apply (contains_in h k W) in C. unfold keys in C. rewrite E in C.
    destruct C. }
  split; [now apply contains_false_get | exact C].
Qed.

Lemma clear_laws h :
  wf h ->
  wf (hashmap_clear h) /\ entries (hashmap_clear h) = [] /\
  capacity (hashmap_clear h) = capacity h.
Proof.
  intros W.
  assert (E : hashmap_clear h = emptied h (capacity h)).
  { unfold hashmap_clear, emptied. f_equal.
    rewrite (slots_table h (wf_len h W)).
    rewrite skipn_all2 by (rewrite (wf_len h W); lia).
    rewrite app_nil_r, <- (wf_len h W).
    induction (table h) as [|s t IH]; cbn; [reflexivity | now rewrite IH]. }
  rewrite E. split_and.
  - apply wf_emptied; [exact (wf_eq h W) | exact (wf_cap h W)].
  - apply entries_emptied.
  - reflexivity.
Qed.

(** The lists [hashmap_keys], [hashmap_values] and [hashmap_entries]
    return. *)
Lemma listing_laws h :
  wf h ->
  hashmap_keys h = (if size h =? 0 then None else Some (keys h)) /\
  hashmap_values h
  = (if size h =? 0 then None else Some (List.map value (entries h))) /\
  hashmap_entries h = (if size h =? 0 then None else Some (entries h)) /\
  Z.of_nat (length (keys h)) = size h /\
  NoDup (keys h) /\
  (forall k, In k (keys h) <-> hashmap_contains_key h k = true) /\
  (forall e, In e (entries h) <-> hashmap_get h (key e) = Some (value e)).
Proof.
  intros W. split_and; try reflexivity.
  - unfold keys. rewrite length_map. symmetry. exact (wf_size h W).
  - exact (wf_nodup h W).
  - intros k. symmetry. apply (contains_in h k W).
  - intros e. rewrite (get_in h _ _ W), entry_eta. reflexivity.
Qed.

Section Unlink.
Variable eqb : K -> K -> bool.
Hypothesis eqb_eq : forall k1 k2, eqb k1 k2 = true <-> k1 = k2.

Lemma unlink_entry_none k b :
  unlink_entry eqb k b = None <-> ~ In k (List.map key b).
Proof.
  induction b as [|x b IH]; cbn; [tauto|].
  destruct (eqb (key x) k) eqn:E.
  - apply eqb_eq in E. split; [discriminate | intros H; exfalso; auto].
  - assert (key x <> k) by (intros C; apply eqb_eq in C; congruence).
    destruct (unlink_entry eqb k b) as [[f n]|] eqn:U.
    + split; [discriminate|]. intros C.
      assert (D : Some (f, n) = None) by (apply IH; tauto). discriminate.
    + split; [|reflexivity]. intros _ [C|C]; [contradiction|].
      revert C. apply IH. reflexivity.
Qed.

Lemma unlink_entry_some k b x b' :
  unlink_entry eqb k b = Some (x, b') ->
  key x = k /\
  exists b1 b2, b = b1 ++ x :: b2 /\ b' = b1 ++ b2.
Proof.
  revert b'. induction b as [|y b IH]; cbn; [discriminate|]. intros b'.
  destruct (eqb (key y) k) eqn:E.
  - intros [= <- <-]. apply eqb_eq in E. split; [exact E|].
    exists [], b. auto.
  - destruct (unlink_entry eqb k b) as [[f n]|]; [|discriminate].
    intros [= <- <-]. destruct (IH n eq_refl) as (Hk & b1 & b2 & -> & ->).
    split; [exact Hk|]. exists (y :: b1), b2. auto.
Qed.

End Unlink.

(** [hashmap_remove] of a key the map holds. *)
Lemma remove_present h k :
  wf h -> hashmap_contains_key h k = true ->
  exists e h', hashmap_remove h k = Ok (Some e, h') /\
    key e = k /\ hashmap_get h k = Some (value e) /\
    wf h' /\ hashmap_get h' k = None /\
    hashmap_contains_key h' k = false /\
    (forall k', k' <> k -> hashmap_get h' k' = hashmap_get h k') /\
    size h' = size h - 1.
Proof.
  intros W Hc. pose proof Hc as Hk. apply (contains_in h k W) in Hk.
  unfold keys in Hk. apply in_map_iff in Hk. destruct Hk as (e0 & Hk0 & Hin0).
  destruct (key_slot h e0 W Hin0) as (b & Hs & Hb). rewrite Hk0 in Hs.
  set (o := hash_func h k mod capacity h) in *.
  pose proof (offset_range h k (wf_cap h W)) as Ho. fold o in Ho.
  unfold hashmap_remove. rewrite (wf_nonempty h e0 W Hin0). fold o. rewrite Hs.
  destruct (unlink_entry (key_equal h) k b) as [[x b']|] eqn:U.
  2:{ exfalso. apply (unlink_entry_none _ (wf_eq h W)) in U. apply U.
      rewrite <- Hk0. now apply in_map. }
  destruct (unlink_entry_some _ (wf_eq h W) _ _ _ _ U)
    as (Hx & b1 & b2 & Eb & Eb').
  destruct (entries_set_slot h o (wf_len h W) Ho) as (rest & P1 & P2).
  rewrite Hs in P1. cbn [slot_entries] in P1.
  specialize (P2 (Some b') (size h - 1)). cbn [slot_entries] in P2.
  set (h' := set_size (set_table_at h o (Some b')) (size h - 1)) in *.
  assert (Q1 : Permutation (entries h) (x :: (b1 ++ b2) ++ rest)).
  { rewrite P1, Eb. rewrite <- Permutation_middle. reflexivity. }
  assert (Q2 : Permutation (entries h') ((b1 ++ b2) ++ rest)).
  { rewrite P2, Eb'. reflexivity. }
  assert (Hnd : NoDup (List.map key (x :: (b1 ++ b2) ++ rest))).
  { rewrite <- Q1. exact (wf_nodup h W). }
  cbn [List.map] in Hnd. apply NoDup_cons_iff in Hnd.
  destruct Hnd as [Hnotin Hnd'].
  assert (W' : wf h').
  { constructor.
    - exact (wf_cap h W).
    - subst h'; cbn. rewrite set_nth_length. exact (wf_len h W).
    - rewrite (Permutation_length Q2). subst h'; cbn [size set_size].
      rewrite (wf_size h W), (Permutation_length Q1). cbn [length]. lia.
    - intros i e. subst h'; cbn [table set_size set_table_at capacity hash_func].
      rewrite nth_set_nth by (rewrite (wf_len h W); lia).
      destruct (Nat.eqb_spec i (Z.to_nat o)) as [->|Hne].
      + cbn [slot_entries]. intros Hin. apply (wf_slot h W).
        unfold table_at in Hs. rewrite Hs. cbn [slot_entries].
        rewrite Eb' in Hin. rewrite Eb. apply in_app_or in Hin.
        apply in_or_app. destruct Hin; [now left | right; now right].
      + apply (wf_slot h W).
    - unfold keys. rewrite Q2. exact Hnd'.
    - exact (wf_eq h W). }
  assert (Hgone : hashmap_contains_key h' (key x) = false).
  { destruct (hashmap_contains_key h' (key x)) eqn:C; [|reflexivity].
    apply (contains_in h' _ W') in C. unfold keys in C. rewrite Q2 in C.
    contradiction. }
  destruct b as [|y b0]; [destruct Hb|].
  exists x, h'. split_and; auto.
  - apply (get_in h _ _ W). rewrite <- Hx at 1. rewrite entry_eta, Q1. now left.
  - rewrite <- Hx. now apply contains_false_get.
  - rewrite <- Hx. exact Hgone.
  - intros k' Hne. apply (get_same h h' k' W W'). intros v'.
    rewrite Q1, Q2. cbn. split; [now right|].
    intros [C|C]; [|exact C]. exfalso. apply Hne. rewrite <- Hx, C.
    reflexivity.
Qed.

(** [hashmap_remove] of a key the map does not hold. *)
Lemma remove_absent h k :
  wf h -> hashmap_contains_key h k = false ->
  match table_at h (hash_func h k mod capacity h) with
  | Some [] =>
      hashmap_remove h k
      = (if hashmap_empty h then Ok (None, h) else Undef NullDeref)
  | _ => hashmap_remove h k = Ok (None, h)
  end.
Proof.
  intros W Hc. unfold hashmap_remove.
  unfold hashmap_contains_key in Hc.
  destruct (table_at h _) as [[|y b0]|] eqn:Hs.
  - reflexivity.
  - destruct (hashmap_empty h); [reflexivity|].
    destruct (find_entry (key_equal h) k (y :: b0)) eqn:F; [discriminate|].
    apply (find_entry_none _ (wf_eq h W)) in F.
    apply (unlink_entry_none _ (wf_eq h W)) in F. rewrite F. reflexivity.
  - destruct (hashmap_empty h); reflexivity.
Qed.

(** When [hashmap_put] doubles the table. *)
Lemma put_capacity h k v h' :
  wf h -> hashmap_put h k v = Some h' ->
  capacity h'
  = (if hashmap_contains_key h k then capacity h
     else if hashmap_rehash_required h k =? 0 then capacity h
          else 2 * capacity h).
Proof.
  intros W. unfold hashmap_put.
  destruct (hashmap_contains_key h k) eqn:Hc.
  - apply (contains_in h k W) in Hc.
    unfold keys in Hc. apply in_map_iff in Hc. destruct Hc as (e & Hk & Hin).
    destruct (key_slot h e W Hin) as (b & Hs & Hb). rewrite Hk in Hs.
    rewrite put_fuel_S. cbv zeta. rewrite Hs.
    destruct (update_entry (key_equal h) k v b) as [b'|] eqn:Hu.
    + intros [= <-]. reflexivity.
    + exfalso. apply (update_entry_none _ (wf_eq h W)) in Hu. apply Hu.
      rewrite <- Hk. now apply in_map.
  - assert (Hnew : ~ In k (keys h)).
    { intros C. apply (contains_in h k W) in C. congruence. }
    destruct (Z.eqb_spec (hashmap_rehash_required h k) 0) as [Hr|Hr].
    + rewrite put_fuel_linked by assumption. intros [= <-]. reflexivity.
    + pose proof (rehash_required_full h k Hr) as Hfull.
      pose proof (wf_cap h W) as Hcap.
      assert (Hne : hashmap_empty h = false).
      { unfold hashmap_empty. apply Z.eqb_neq. lia. }
      assert (Hslot : exists b,
                table_at h (hash_func h k mod capacity h) = Some b).
      { unfold hashmap_rehash_required in Hr.
        destruct (table_at h _) as [b|]; [eauto | congruence]. }
      destruct Hslot as (b & Hs).
      assert (Hu : update_entry (key_equal h) k v b = None).
      { apply (update_entry_none _ (wf_eq h W)). intros C. apply Hnew.
        apply in_map_iff in C. destruct C as (e & <- & He).
        unfold keys. apply in_map. eapply table_at_in; eauto. }
      destruct (put_all_linked (entries h) (emptied h (2 * capacity h)))
        as (h1 & F & W1 & P1 & C1 & Hh1 & Hk1).
      * apply wf_emptied; [exact (wf_eq h W) | lia].
      * exact (wf_nodup h W).
      * intros e _. unfold keys. rewrite entries_emptied. simpl. tauto.
      * unfold emptied; cbn [size capacity]. rewrite <- (wf_size h W). lia.
      * rewrite entries_emptied, app_nil_r in P1.
        unfold emptied in C1; cbn [capacity] in C1.
        assert (Hnew1 : ~ In k (keys h1)).
        { unfold keys. rewrite P1. exact Hnew. }
        rewrite put_fuel_S. cbv zeta. rewrite Hs, Hu.
        destruct (hashmap_rehash_required h k =? 0) eqn:Ez;
          [apply Z.eqb_eq in Ez; contradiction|]. cbn [negb].
        unfold hashmap_rehash, hashmap_entries. rewrite Hne.
        fold (entries h). fold (emptied h (2 * capacity h)).
        unfold put_all in F. rewrite F.
        rewrite put_fuel_linked; auto.
        -- intros [= <-]. exact C1.
        -- apply rehash_required_zero.
           rewrite C1, (wf_size h1 W1), (Permutation_length P1),
             <- (wf_size h W). lia.
Qed.

End Laws.

End HashmapLaws.

(** ** The container: absent fields and new fields *)

Module DynmessageLaws.

Import Hashmap.
Import HashmapTheory.
Import HashmapLaws.
Import Dynmessage.

(** The descriptor [dynmessage_get_field] fills when it finds
    nothing. *)
Lemma get_field_absent m n :
  msg_inv m -> ~ In n (List.map key (stored m)) ->
  dynmessage_get_field m (Some n)
  = {| name := None; type := NO_TYPE; value := None; seq := -1 |}.
Proof.
  intros I Hn. destruct (inv_map m I) as (h & Hm & W).
  unfold stored in Hn. rewrite Hm in Hn.
  unfold dynmessage_get_field. rewrite Hm.
  rewrite contains_false_get; [reflexivity | exact W |].
  destruct (hashmap_contains_key h n) eqn:C; [|reflexivity].
  apply (contains_in h n W) in C. contradiction.
Qed.

Lemma get_field_present m n :
  msg_inv m -> In n (List.map key (stored m)) ->
  exists f, dynmessage_get_field m (Some n) = f /\ In f (fields m) /\
            name f = Some n /\ 1 <= seq f <= field_count m.
Proof.
  intros I Hn. apply in_map_iff in Hn. destruct Hn as (e & <- & He).
  assert (R : 1 <= seq (Hashmap.value e) <= field_count m).
  { rewrite (inv_count m I). apply seq_range_in.
    rewrite <- (inv_seq m I).
    apply (in_map (fun e => seq (Hashmap.value e))). exact He. }
  exists (Hashmap.value e).
  split; [apply get_field_stored; assumption|].
  split; [rewrite (fields_stored m I); now apply in_map|].
  split; [apply (inv_field m I e He) | exact R].
Qed.

(** [dynmessage_put_field_and_value] with a name the message does not
    hold. *)
Lemma put_new_field m h n ty obj nv :
  msg_inv m -> fields_info m = Some h ->
  hashmap_contains_key h n = false ->
  valid_type ty -> field_count m < INT_MAX ->
  read_value ty obj no_value = Ok nv ->
  exists m',
    dynmessage_put_field_and_value m (Some n) ty (Some obj) = Ok m' /\
    dynmessage_get_field m' (Some n)
    = {| name := Some n; type := ty; value := Some nv;
         seq := field_count m + 1 |} /\
    field_count m' = field_count m + 1 /\
    message_name m' = message_name m /\
    (forall n', n' <> n ->
       dynmessage_get_field m' (Some n') = dynmessage_get_field m (Some n')).
Proof.
  intros I Hm Hc Hty Hlt Hread.
  destruct (inv_map m I) as (h0 & Hm0 & W).
  assert (h0 = h) by congruence. subst h0. clear Hm0.
  set (f0 := {| name := Some (strdup n); type := ty; value := None;
                seq := field_count m + 1 |}).
  destruct (put_laws h (strdup n) f0 W) as (h1 & P1 & W1 & G1 & O1 & _).
  set (f1 := {| name := name f0; type := type f0; value := Some nv;
                seq := seq f0 |}).
  destruct (put_laws h1 n f1 W1) as (h2 & P2 & W2 & G2 & O2 & _).
  exists {| message_name := message_name m; fields_info := Some h2;
            field_count := field_count m + 1 |}.
  split_and.
  - unfold dynmessage_put_field_and_value. rewrite Hm.
    replace ((ty <? ENUMERATION_TYPE) || (ty >? STRING_TYPE)) with false.
    2:{ symmetry. apply orb_false_iff. unfold valid_type in Hty.
        split; [apply Z.ltb_ge | rewrite Z.gtb_ltb; apply Z.ltb_ge]; lia. }
    rewrite Hc. cbn [negb].
    replace (field_count m =? INT_MAX) with false
      by (symmetry; apply Z.eqb_neq; lia).
    fold f0. rewrite P1. cbn [terminated bind].
    unfold update_field_value. cbn [fields_info deref bind].
    unfold strdup in G1. rewrite G1. cbn [deref bind].
    cbn [value f0 type]. rewrite Hread. cbn [bind].
    change (hashmap_put h1 n _) with (hashmap_put h1 n f1).
    rewrite P2. reflexivity.
  - unfold dynmessage_get_field. cbn [fields_info]. rewrite G2. reflexivity.
  - reflexivity.
  - reflexivity.
  - intros n' Hne. unfold dynmessage_get_field. cbn [fields_info].
    rewrite Hm, (O2 n' Hne), (O1 n' Hne). reflexivity.
Qed.

(** What one [dynmessage_put_field_and_value] leaves: the name of the
    message, and entries that were there or hold a value just read. *)
Lemma put_stored m n ty v m' :
  msg_inv m ->
  dynmessage_put_field_and_value m n ty v = Ok m' ->
  message_name m' = message_name m /\
  forall e, In e (stored m') ->
    In e (stored m) \/
    exists nv, value (Hashmap.value e) = Some nv /\
               storable (type (Hashmap.value e)) nv.
Proof.
  intros I. destruct (inv_map m I) as (h & Hm & W).
  unfold dynmessage_put_field_and_value. rewrite Hm.
  destruct n as [n|]; [|intros [= <-]; split; auto].
  destruct v as [obj|]; [|intros [= <-]; split; auto].
  destruct ((ty <? ENUMERATION_TYPE) || (ty >? STRING_TYPE)) eqn:Hty;
    [intros [= <-]; split; auto|].
  intros Hput.
  destruct (hashmap_contains_key h n) eqn:Hc; cbn [negb] in Hput.
  - cbn [bind] in Hput.
    apply (contains_in h n W) in Hc. unfold keys in Hc.
    apply in_map_iff in Hc. destruct Hc as (e & He & Hin).
    rewrite <- (entry_eta e), He in Hin.
    pose proof (update_spec m h n (Hashmap.value e) obj Hm W Hin) as U.
    destruct (read_value _ obj _) as [nv|why] eqn:R; [|congruence].
    destruct U as (h' & Hu & _ & W' & es & P1 & P2).
    rewrite Hu in Hput. injection Hput as <-.
    split; [reflexivity|]. intros e'. unfold stored.
    cbn [fields_info set_fields_info]. rewrite Hm, P1, P2. cbn [In].
    intros [<- | In']; [right | left; now right].
    exists nv. split; [reflexivity|]. cbn [Hashmap.value with_value type].
    eexists _, _. exact R.
  - apply (not_true_iff_false) in Hc.
    assert (Hnew : ~ In n (keys h))
      by (intros C; apply Hc; now apply contains_in).
    destruct (field_count m =? INT_MAX) eqn:Hfc; [discriminate|].
    unfold strdup in Hput.
    set (field0 := {| name := Some n; type := ty; value := None;
                      seq := field_count m + 1 |}) in *.
    destruct (put_spec h n field0 W)
      as (h1 & Hput1 & W1 & _ & _ & [[_ P1] | (x & es & Hx & P1 & _)]).
    2:{ exfalso. apply Hnew. unfold keys. rewrite P1. simpl. now left. }
    rewrite Hput1 in Hput. cbn [terminated bind] in Hput.
    set (m1 := {| message_name := message_name m; fields_info := Some h1;
                  field_count := field_count m + 1 |}) in *.
    assert (Hin1 : In {| key := n; Hashmap.value := field0 |} (entries h1)).
    { rewrite P1. now left. }
    pose proof (update_spec m1 h1 n field0 obj eq_refl W1 Hin1) as U.
    destruct (read_value _ obj _) as [nv|why] eqn:R; [|congruence].
    destruct U as (h2 & Hu & _ & W2 & es & Q1 & Q2).
    rewrite Hu in Hput. injection Hput as <-.
    split; [reflexivity|]. intros e'. unfold stored.
    cbn [fields_info set_fields_info]. rewrite Hm, Q2. cbn [In].
    intros [<- | In'].
    + right. exists nv. split; [reflexivity|].
      cbn [Hashmap.value with_value type]. eexists _, _. exact R.
    + left.
      assert (P : Permutation (entries h) es).
      { apply (Permutation_cons_inv
                 (a := {| key := n; Hashmap.value := field0 |})).
        rewrite <- P1. exact Q1. }
      rewrite P. exact In'.
Qed.

(** Every field of a reachable message holds a value read for its own
    type, and the message has a name. *)
Lemma reachable_storable m :
  reachable m ->
  (exists nm, message_name m = Some nm) /\
  forall f, In f (fields m) ->
    exists nv, value f = Some nv /\ storable (type f) nv.
Proof.
  intros R.
  assert (G : (exists nm, message_name m = Some nm) /\
              forall e, In e (stored m) ->
                exists nv, value (Hashmap.value e) = Some nv /\
                           storable (type (Hashmap.value e)) nv).
  { induction R as [m n | m m' n ty v R IH Hput].
    - split; [eexists; reflexivity|].
      unfold stored, dynmessage_init. cbn [fields_info].
      rewrite init_table, entries_emptied. intros e [].
    - destruct IH as [(nm & Hn) IH].
      destruct (put_stored m n ty v m' (reachable_inv m R) Hput) as [N S].
      split; [exists nm; congruence|].
      intros e He. destruct (S e He) as [Hold | Hnew]; auto. }
  destruct G as [N S]. split; [exact N|].
  intros f Hf. rewrite (fields_stored m (reachable_inv m R)) in Hf.
  apply in_map_iff in Hf. destruct Hf as (e & <- & He). auto.
Qed.

(** A field of type [STRING_TYPE] holds a string. *)
Lemma storable_string v :
  storable STRING_TYPE v -> exists s, v = string_value s.
Proof.
  intros (obj & a & R). unfold read_value in R. cbn in R.
  destruct obj; cbn in R; try discriminate.
  injection R as <-. eauto.
Qed.

End DynmessageLaws.

(** ** The integer codec on every input *)

Module CodecLaws.

Import Cerializer.
Import Dynmessage.
Import DynmessageCerializer.

Lemma be_value_inj a : forall b,
  Forall is_byte a -> Forall is_byte b -> length a = length b ->
  be_value a = be_value b -> a = b.
Proof.
  induction a as [|x a IH]; intros [|y b] Ha Hb Hl Hv; try discriminate;
    [reflexivity|].
  apply Forall_cons_iff in Ha. destruct Ha as [Hx Ha].
  apply Forall_cons_iff in Hb. destruct Hb as [Hy Hb].
  cbn [length] in Hl. injection Hl as Hl.
  cbn [be_value] in Hv. rewrite <- Hl in Hv.
  pose proof (be_value_bound a Ha) as Ba.
  pose proof (be_value_bound b Hb) as Bb. rewrite <- Hl in Bb.
  set (p := 256 ^ Z.of_nat (length a)) in *.
  assert (E : x = y) by nia.
  subst y. f_equal. apply IH; auto. lia.
Qed.

Lemma sext_range w x :
  0 < w -> - 2 ^ (w - 1) <= sext w x < 2 ^ (w - 1).
Proof.
  intros Hw. unfold sext.
  assert (E : 2 ^ w = 2 * 2 ^ (w - 1)).
  { replace w with (Z.succ (w - 1)) at 1 by lia. apply Z.pow_succ_r. lia. }
  assert (P : 0 < 2 ^ (w - 1)) by (apply Z.pow_pos_nonneg; lia).
  pose proof (Z.mod_pos_bound (x + 2 ^ (w - 1)) (2 ^ w)). lia.
Qed.

Lemma sext_wrap w x : sext w (wrap w x) = sext w x.
Proof. unfold sext, wrap. now rewrite Zplus_mod_idemp_l. Qed.

Lemma sext_mod w x : sext w x mod 2 ^ w = x mod 2 ^ w.
Proof.
  unfold sext. rewrite Zminus_mod_idemp_l. f_equal. lia.
Qed.

Lemma sext_idem w x : 0 < w -> sext w (sext w x) = sext w x.
Proof. intros Hw. apply sext_small; [exact Hw | now apply sext_range]. Qed.

Lemma unpack_pack_any k x :
  unpack k (pack k x)
  = if kind_signed k then sext (kind_bits k) x else wrap (kind_bits k) x.
Proof.
  rewrite (unpack_field_value k (pack k x) (pack_is_field k x)).
  unfold field_value. rewrite be_value_pack.
  destruct (kind_signed k); [apply sext_wrap | reflexivity].
Qed.

Lemma field_bound k buf :
  is_field k buf -> 0 <= be_value buf < 2 ^ kind_bits k.
Proof.
  intros [Hlen Hb]. pose proof (be_value_bound buf Hb) as Hv.
  rewrite <- Hlen. rewrite Z.mul_comm, Z.pow_mul_r by lia. exact Hv.
Qed.

Lemma pack_unpack_field k buf :
  is_field k buf -> pack k (unpack k buf) = buf.
Proof.
  intros Hbuf. pose proof (pack_is_field k (unpack k buf)) as Hp.
  apply be_value_inj.
  - apply Hp.
  - apply Hbuf.
  - destruct Hp as [L1 _]. destruct Hbuf as [L2 _]. lia.
  - rewrite be_value_pack, (unpack_field_value k buf Hbuf).
    pose proof (field_bound k buf Hbuf) as Hv.
    unfold field_value. destruct (kind_signed k).
    + rewrite sext_mod. now apply Z.mod_small.
    + now apply Z.mod_small.
Qed.

(** ** The gate of the decoder *)

Lemma decode_int32 buf :
  is_field I32 buf -> sext 32 (deserialize_int32 buf) = sext 32 (be_value buf).
Proof.
  intros Hb. change (deserialize_int32 buf) with (unpack I32 buf).
  rewrite (unpack_field_value I32 buf Hb). unfold field_value.
  cbn [kind_signed kind_bits]. apply sext_idem. lia.
Qed.

Lemma Forall_sub {A} (P : A -> Prop) (l l' : list A) :
  incl l' l -> Forall P l -> Forall P l'.
Proof.
  intros Hi Hf. apply Forall_forall. intros x Hx.
  rewrite Forall_forall in Hf. auto.
Qed.

Lemma incl_firstn {A} n (l : list A) : incl (firstn n l) l.
Proof.
  intros x Hx. rewrite <- (firstn_skipn n l). apply in_or_app. now left.
Qed.

Lemma incl_skipn {A} n (l : list A) : incl (skipn n l) l.
Proof.
  intros x Hx. rewrite <- (firstn_skipn n l). apply in_or_app. now right.
Qed.

Lemma strslice_ok src start n :
  0 <= start -> 0 <= n -> start + n <= Z.of_nat (length src) ->
  strslice src start n
  = Ok (firstn (Z.to_nat n) (skipn (Z.to_nat start) src)).
Proof.
  intros H1 H2 H3. unfold strslice.
  replace ((0 <=? start) && (0 <=? n)
           && (start + n <=? Z.of_nat (length src))) with true; [reflexivity|].
  symmetry. rewrite !andb_true_iff, !Z.leb_le. lia.
Qed.

Lemma slice_field (bytes : list Z) (start : nat) :
  Forall is_byte (firstn (start + 4) bytes) ->
  (start + 4 <= length bytes)%nat ->
  is_field I32 (firstn 4 (skipn start bytes)).
Proof.
  intros Hb Hl. split.
  - rewrite length_firstn, length_skipn. cbn [kind_bits]. lia.
  - rewrite firstn_skipn_comm. eapply Forall_sub; [apply incl_skipn | exact Hb].
Qed.

Lemma magic_value buf :
  is_field I32 buf ->
  (sext 32 (be_value buf) =? DYN_MSG_START) = true <-> buf = magic_only.
Proof.
  intros Hb. pose proof (field_bound I32 buf Hb) as Hv.
  cbn [kind_bits] in Hv. rewrite Z.eqb_eq. split.
  - intros E. apply be_value_inj.
    + apply Hb.
    + repeat constructor; unfold is_byte; lia.
    + destruct Hb as [L _]. cbn [kind_bits] in L. cbn. lia.
    + change (be_value magic_only) with DYN_MSG_START.
      unfold sext, DYN_MSG_START in *.
      change (2 ^ (32 - 1)) with 2147483648 in E.
      change (2 ^ 32) with 4294967296 in *.
      Z.div_mod_to_equations; lia.
  - intros ->. reflexivity.
Qed.

(** What [verify_full_dynmessage] answers. *)
Lemma verify_accepts bytes data_len :
  Forall is_byte (firstn 8 bytes) ->
  data_len <= Z.of_nat (length bytes) ->
  exists b, verify_full_dynmessage (Some bytes) data_len = Ok b /\
            (b = true <-> frame_accepted bytes data_len).
Proof.
  intros Hb Hl. unfold verify_full_dynmessage, verify_dynmessage_start.
  unfold BYTES_4. rewrite Z.geb_leb.
  destruct (Z.leb_spec 4 data_len) as [H4|H4].
  2:{ exists false. split; [reflexivity|]. unfold frame_accepted.
      split; [discriminate | lia]. }
  unfold read_prefix. rewrite strslice_ok by lia. cbn [bind].
  change (Z.to_nat 4) with 4%nat. change (Z.to_nat 0) with 0%nat.
  cbn [skipn].
  assert (F4 : is_field I32 (firstn 4 bytes)).
  { apply (slice_field bytes 0); [|lia]. cbn [Nat.add].
    replace (firstn 4 bytes) with (firstn 4 (firstn 8 bytes))
      by (rewrite firstn_firstn; reflexivity).
    eapply Forall_sub; [apply incl_firstn | exact Hb]. }
  rewrite (decode_int32 _ F4).
  destruct (sext 32 (be_value (firstn 4 bytes)) =? DYN_MSG_START) eqn:Em.
  2:{ exists false. split; [reflexivity|]. unfold frame_accepted.
      split; [discriminate|]. intros (_ & M & _).
      apply (magic_value _ F4) in M. congruence. }
  apply (magic_value _ F4) in Em.
  unfold get_encoded_dynmessage_length, BYTES_8, BYTES_4.
  rewrite Z.geb_leb.
  destruct (Z.leb_spec 8 data_len) as [H8|H8].
  - rewrite strslice_ok by lia. cbn [bind].
    change (Z.to_nat 4) with 4%nat.
    assert (F8 : is_field I32 (firstn 4 (skipn 4 bytes))).
    { apply (slice_field bytes 4); [exact Hb | lia]. }
    rewrite (decode_int32 _ F8).
    exists (sext 32 (be_value (firstn 4 (skipn 4 bytes))) <=? data_len).
    split; [reflexivity|]. unfold frame_accepted. rewrite Z.leb_le.
    split; [intros H; split_and; auto | intros (_ & _ & [H|H]); lia].
  - cbn [bind]. exists true.
    replace (0 <=? data_len) with true by (symmetry; apply Z.leb_le; lia).
    split; [reflexivity|]. unfold frame_accepted.
    split; [intros _; split_and; auto | reflexivity].
Qed.

(** An input that passes the gate is never answered with [NULL]. *)
Lemma verified_not_null data data_len :
  verify_full_dynmessage data data_len = Ok true ->
  dynmessage_deserialize_bin data data_len <> Ok None.
Proof.
  intros V. unfold dynmessage_deserialize_bin. rewrite V. cbn [bind].
  repeat match goal with
         | |- bind ?x _ <> _ => destruct x; cbn [bind]; [|discriminate]
         | |- (if ?c then _ else _) <> _ => destruct c; [|discriminate]
         end.
  match goal with
  | |- (let '(_, _) := ?p in _) <> _ => destruct p
  | _ => idtac
  end.
  discriminate.
Qed.

End CodecLaws.

(** ** The framed codec: lengths, headers, decoded messages *)

Module FrameLaws.

Import Hashmap.
Import HashmapTheory.
Import Dynmessage.
Import DynmessageCerializer.
Import DynmessageLaws.
Import CodecLaws.

Lemma all_some {A} (xs : list (option A)) :
  (forall i, (i < length xs)%nat -> exists a, nth i xs None = Some a) ->
  exists l, xs = List.map Some l.
Proof.
  induction xs as [|x xs IH]; intros H; [exists []; reflexivity|].
  destruct (H 0%nat) as (a & Ha); [cbn; lia|]. cbn in Ha. subst x.
  destruct IH as (l & ->).
  { intros i Hi. apply (H (S i)). cbn. lia. }
  exists (a :: l). reflexivity.
Qed.

(** The list of [dynmessage_get_fields]: the fields of the message,
    each once, in the order of their [seq]. *)
Lemma snapshot m :
  msg_inv m ->
  exists l sl,
    dynmessage_get_fields m = Ok l /\
    list_length l = field_count m /\
    list_ l = List.map Some sl /\
    Z.of_nat (length sl) = field_count m /\
    Permutation sl (fields m) /\
    forall i d, (i < length sl)%nat -> seq (nth i sl d) = Z.of_nat i + 1.
Proof.
  intros I. destruct (get_fields_spec m I) as (l & G & Hlen & Hl & Hnth).
  pose proof (inv_count m I) as Hc.
  destruct (all_some (list_ l)) as (sl & Hsl).
  { intros i Hi. destruct (Hnth (Z.of_nat i)) as (f & Hf & _); [lia|].
    rewrite Nat2Z.id in Hf. eauto. }
  assert (Ls : length sl = length (stored m)).
  { rewrite Hsl, length_map in Hl. lia. }
  assert (N : forall i d, (i < length sl)%nat ->
            seq (nth i sl d) = Z.of_nat i + 1 /\ In (nth i sl d) (fields m)).
  { intros i d Hi. destruct (Hnth (Z.of_nat i)) as (f & Hf & Hs & Hin); [lia|].
    rewrite Nat2Z.id, Hsl in Hf.
    rewrite (nth_indep _ None (Some d)) in Hf by (rewrite length_map; lia).
    rewrite (map_nth Some) in Hf. injection Hf as ->. auto. }
  exists l, sl. split_and; auto; try lia.
  - apply NoDup_Permutation_bis.
    + set (d0 := {| name := None; type := 0; value := None; seq := 0 |}).
      apply (proj2 (NoDup_nth sl d0)).
      intros i j Hi Hj E.
      pose proof (proj1 (N i d0 Hi)) as Si.
      pose proof (proj1 (N j d0 Hj)) as Sj.
      rewrite E in Si. lia.
    + rewrite (fields_stored m I), length_map. lia.
    + intros f Hf. destruct (In_nth sl f f Hf) as (i & Hi & <-).
      apply N. exact Hi.
  - intros i d Hi. apply N. exact Hi.
Qed.

(** A list whose entry [i] has [seq = i + 1] has the [seq] values
    1, 2, ... in this order. *)
Lemma seq_in_order (sl : list dyn_field) :
  (forall i d, (i < length sl)%nat -> seq (nth i sl d) = Z.of_nat i + 1) ->
  List.map seq sl = seq_range (length sl).
Proof.
  intros Hs. apply (nth_ext _ _ 0 0).
  - unfold seq_range. rewrite !length_map, length_seq. reflexivity.
  - intros i Hi. rewrite length_map in Hi.
    set (d0 := {| name := None; type := 0; value := None; seq := 0 |}).
    rewrite (nth_indep _ 0 (seq d0)) by (rewrite length_map; exact Hi).
    rewrite map_nth, (Hs i d0 Hi). unfold seq_range.
    rewrite (nth_indep _ 0 (Z.of_nat 0))
      by (rewrite length_map, length_seq; exact Hi).
    rewrite map_nth, seq_nth by exact Hi. lia.
Qed.

Lemma sum_perm {A} (g : A -> Z) l l' :
  Permutation l l' ->
  fold_right (fun f acc => g f + acc) 0 l
  = fold_right (fun f acc => g f + acc) 0 l'.
Proof. induction 1; cbn; lia. Qed.

Lemma table_bound ty :
  0 <= nth (Z.to_nat ty) DYN_FIELD_TYPE_SER_SIZE 0 <= 8.
Proof.
  assert (F : Forall (fun z => 0 <= z <= 8) DYN_FIELD_TYPE_SER_SIZE).
  { unfold DYN_FIELD_TYPE_SER_SIZE. cbn. repeat constructor; lia. }
  destruct (nth_in_or_default (Z.to_nat ty) DYN_FIELD_TYPE_SER_SIZE 0)
    as [Hin | ->]; [|lia].
  rewrite Forall_forall in F. apply F, Hin.
Qed.

(** *** [calc_dynmessage_serialized_len] *)

Lemma int_wrap x : 0 <= x <= INT_MAX -> sext 32 (wrap 64 x) = x.
Proof.
  unfold INT_MAX. intros H. unfold wrap.
  rewrite Z.mod_small by lia. apply sext_small; lia.
Qed.

Lemma reachable_sound m f :
  reachable m -> In f (fields m) -> sound_field f.
Proof.
  intros R Hf. pose proof (reachable_inv m R) as I.
  destruct (reachable_storable m R) as [_ S].
  split; [|split; [|exact (S f Hf)]];
    rewrite (fields_stored m I) in Hf; apply in_map_iff in Hf;
    destruct Hf as (e & <- & He); destruct (inv_field m I e He) as (N & T & _).
  - eauto.
  - exact T.
Qed.

Lemma code_field_length_pos f : 16 <= code_field_length f.
Proof.
  unfold code_field_length, code_value_size.
  pose proof (table_bound (type f)).
  assert (0 <= match name f with Some n => strlen n | None => 0 end)
    by (destruct (name f); unfold strlen; lia).
  assert (0 <= (if type f =? STRING_TYPE
                then match value f with
                     | Some (string_value s) => strlen s
                     | _ => 0
                     end
                else 0)).
  { destruct (type f =? STRING_TYPE); [|lia].
    destruct (value f) as [[]|]; unfold strlen; lia. }
  lia.
Qed.

Lemma add_field_length_ok r f :
  sound_field f -> 0 <= r -> r + code_field_length f <= INT_MAX ->
  add_field_length r (Some f) = Ok (r + code_field_length f).
Proof.
  intros ((n & Hn) & Hty & nv & Hv & Hs) Hr Hb.
  pose proof (table_bound (type f)) as Ht.
  unfold code_field_length, code_value_size in *. rewrite Hn, Hv in *.
  unfold add_field_length. cbn [deref bind]. rewrite Hn. cbn [deref bind].
  unfold ser_size.
  replace ((0 <=? type f) && (type f <? DYN_FIELD_TYPE_LEN)) with true.
  2:{ symmetry. unfold valid_type, ENUMERATION_TYPE, STRING_TYPE in Hty.
      unfold DYN_FIELD_TYPE_LEN. rewrite andb_true_iff, Z.leb_le, Z.ltb_lt.
      lia. }
  cbn [bind]. unfold DYN_FIELD_FIXED_LEN.
  assert (Hl : 0 <= strlen n) by (unfold strlen; lia).
  destruct (type f =? STRING_TYPE) eqn:Es.
  - apply Z.eqb_eq in Es. rewrite Es in Hs.
    destruct (storable_string nv Hs) as (s & ->).
    assert (Hl' : 0 <= strlen s) by (unfold strlen; lia).
    unfold string_member. rewrite Hv. cbn [deref bind].
    rewrite (int_wrap (16 + strlen n + _)) by lia.
    rewrite int_wrap by lia.
    unfold int_add.
    replace ((- INT_MAX - 1 <=? _) && (_ <=? INT_MAX)) with true.
    + f_equal. lia.
    + symmetry. rewrite andb_true_iff, !Z.leb_le. unfold INT_MAX in *. lia.
  - rewrite int_wrap by lia. cbn [bind]. unfold int_add.
    replace ((- INT_MAX - 1 <=? _) && (_ <=? INT_MAX)) with true.
    + f_equal. lia.
    + symmetry. rewrite andb_true_iff, !Z.leb_le. unfold INT_MAX in *. lia.
Qed.

Lemma calc_fold fs : forall r,
  Forall sound_field fs -> 0 <= r ->
  r + fold_right (fun f acc => code_field_length f + acc) 0 fs <= INT_MAX ->
  fold_left (fun acc slot => result <- acc ;; add_field_length result slot)
    (List.map Some fs) (Ok r)
  = Ok (r + fold_right (fun f acc => code_field_length f + acc) 0 fs).
Proof.
  induction fs as [|f fs IH]; intros r Hs Hr Hb; cbn [List.map fold_left fold_right].
  - f_equal. lia.
  - apply Forall_cons_iff in Hs. destruct Hs as [Hf Hs].
    cbn [fold_right] in Hb.
    pose proof (code_field_length_pos f) as Pf.
    assert (Pr : 0 <= fold_right (fun f acc => code_field_length f + acc) 0 fs).
    { clear. induction fs as [|g fs IH]; cbn; [lia|].
      pose proof (code_field_length_pos g). lia. }
    cbn [bind]. rewrite add_field_length_ok by (auto; lia).
    rewrite IH by (auto; lia). f_equal. lia.
Qed.

(** The length [calc_dynmessage_serialized_len] computes for a message
    with fields. *)
Lemma calc_formula m :
  reachable m -> 0 < field_count m -> code_serialized_len m <= INT_MAX ->
  calc_dynmessage_serialized_len m = Ok (code_serialized_len m).
Proof.
  intros R Hc Hb. pose proof (reachable_inv m R) as I.
  destruct (snapshot m I) as (l & sl & G & Hlen & Hl & Hn & P & _).
  destruct (reachable_storable m R) as [(nm & Hnm) _].
  unfold code_serialized_len in *. rewrite Hnm in *.
  rewrite <- (sum_perm code_field_length sl (fields m) P) in *.
  assert (Pr : 0 <= fold_right (fun f acc => code_field_length f + acc) 0 sl).
  { clear. induction sl as [|g fs IH]; cbn; [lia|].
    pose proof (code_field_length_pos g). lia. }
  assert (Hl' : 0 <= strlen nm) by (unfold strlen; lia).
  unfold calc_dynmessage_serialized_len. rewrite G. cbn [bind].
  rewrite Hlen. replace (field_count m >? 0) with true
    by (symmetry; apply Z.gtb_lt; lia).
  rewrite Hnm. cbn [deref bind]. unfold DYN_MESSAGE_FIXED_LEN.
  rewrite int_wrap by lia.
  rewrite Hl, firstn_all2 by (rewrite length_map; lia).
  apply calc_fold; try lia.
  apply Forall_forall. intros f Hf. apply (reachable_sound m f R).
  rewrite <- P. exact Hf.
Qed.

(** *** [dynmessage_deserialize_bin] builds its message with the public
    operations *)

Lemma put_decoded_reachable m n ty buf len m' :
  reachable m -> put_decoded_value m n ty buf len = Ok m' -> reachable m'.
Proof.
  intros R. unfold put_decoded_value. cbn [switch].
  repeat match goal with
         | |- (if ty =? ?label then _ else _) = _ -> _ =>
             destruct (ty =? label)
         end;
    try (intros [= <-]; exact R);
    match goal with
    | |- bind ?x _ = _ -> _ =>
        destruct x; cbn [bind]; [|discriminate];
        intros H; exact (reach_put _ _ _ _ _ R H)
    end.
Qed.

Lemma deserialize_field_reachable data m i m' i' :
  reachable m -> deserialize_field data (m, i) = Ok (m', i') ->
  reachable m'.
Proof.
  intros R. unfold deserialize_field, dynmessage_put_field.
  repeat match goal with
         | |- bind (dynmessage_put_field_and_value _ _ _ None) _ = _ -> _ =>
             rewrite put_noop by (left; reflexivity); cbn [bind]
         | |- bind ?x _ = _ -> _ =>
             destruct x eqn:?; cbn [bind]; [|discriminate]
         end.
  intros [= <- _]. eapply put_decoded_reachable; eassumption.
Qed.

Lemma deserialize_loop_reachable data n : forall m i m' i',
  reachable m ->
  Nat.iter n (fun acc => state <- acc ;; deserialize_field data state)
    (Ok (m, i)) = Ok (m', i') ->
  reachable m'.
Proof.
  induction n as [|n IH]; intros m i m' i' R.
  - intros [= <- _]. exact R.
  - rewrite Nat.iter_succ.
    match goal with
    | |- bind ?x _ = _ -> _ =>
        destruct x as [[m1 i1]|] eqn:E; cbn [bind]; [|discriminate]
    end.
    intros H. apply (deserialize_field_reachable data m1 i1 m' i'); [|exact H].
    exact (IH m i m1 i1 R E).
Qed.

Lemma decoded_reachable data data_len m :
  dynmessage_deserialize_bin data data_len = Ok (Some m) -> reachable m.
Proof.
  unfold dynmessage_deserialize_bin.
  destruct (verify_full_dynmessage data data_len) as [[|]|]; cbn [bind];
    try discriminate.
  repeat match goal with
         | |- bind ?x _ = _ -> _ =>
             destruct x eqn:?; cbn [bind]; [|discriminate]
         | |- (if ?c then _ else _) = _ -> _ => destruct c; [|discriminate]
         end.
  match goal with
  | H : Nat.iter _ _ _ = Ok ?p |- _ => destruct p as [m1 i1]
  end.
  intros [= <-].
  eapply deserialize_loop_reachable; [|eassumption]. apply reach_init.
Qed.

(** *** [dynmessage_serialize_bin] writes a header the decoder accepts *)

Lemma write_at_ok d a bs d' :
  write_at d a bs = Ok d' ->
  0 <= a /\ a + Z.of_nat (length bs) <= Z.of_nat (length d) /\
  d' = firstn (Z.to_nat a) d ++ bs ++ skipn (Z.to_nat a + length bs) d.
Proof.
  unfold write_at.
  destruct ((0 <=? a) && (a + Z.of_nat (length bs) <=? Z.of_nat (length d)))
    eqn:E; [|discriminate].
  apply andb_true_iff in E. rewrite !Z.leb_le in E.
  intros [= <-]. split_and; try lia. reflexivity.
Qed.

Lemma write_at_keeps d a bs d' :
  write_at d a bs = Ok d' ->
  0 <= a /\ length d' = length d /\
  forall n, Z.of_nat n <= a -> firstn n d' = firstn n d.
Proof.
  intros H. destruct (write_at_ok d a bs d' H) as (Ha & Hb & ->).
  split; [exact Ha|]. split.
  - rewrite !length_app, length_firstn, length_skipn. lia.
  - intros n Hn. rewrite firstn_app, length_firstn.
    replace (n - Nat.min (Z.to_nat a) (length d))%nat with 0%nat by lia.
    rewrite firstn_firstn, firstn_O, app_nil_r. f_equal. lia.
Qed.

Lemma firstn_length_app {A} (l1 l2 : list A) :
  firstn (length l1) (l1 ++ l2) = l1.
Proof.
  rewrite <- (Nat.add_0_r (length l1)), firstn_app_2, firstn_O.
  apply app_nil_r.
Qed.

Lemma write_at_here d a bs d' :
  write_at d a bs = Ok d' ->
  firstn (Z.to_nat a + length bs) d' = firstn (Z.to_nat a) d' ++ bs.
Proof.
  intros H. destruct (write_at_ok d a bs d' H) as (Ha & Hb & ->).
  assert (L : length (firstn (Z.to_nat a) d) = Z.to_nat a)
    by (rewrite length_firstn; lia).
  set (F := firstn (Z.to_nat a) d) in *. rewrite <- L.
  rewrite firstn_app_2, !firstn_length_app. reflexivity.
Qed.

Lemma strslice_len src start n bs :
  strslice src start n = Ok bs -> 0 <= n /\ Z.of_nat (length bs) = n.
Proof.
  unfold strslice.
  destruct ((0 <=? start) && (0 <=? n)
            && (start + n <=? Z.of_nat (length src))) eqn:E; [|discriminate].
  rewrite !andb_true_iff, !Z.leb_le in E. intros [= <-].
  rewrite length_firstn, length_skipn. lia.
Qed.

Lemma value_bytes_string f vs :
  type f = STRING_TYPE ->
  value_bytes f vs
  = (s <- string_member f ;; read_prefix (bytes_of_string s) vs).
Proof. intros E. unfold value_bytes. rewrite E. reflexivity. Qed.

Tactic Notation "step" hyp(H) "as" ident(x) ident(E) :=
  match type of H with
  | bind ?c _ = _ =>
      destruct c as [x|] eqn:E; cbn [bind] in H; [|discriminate]
  end.

Lemma serialize_field_keeps buf data slot buf' data' :
  serialize_field (buf, data) slot = Ok (buf', data') -> 8 <= data ->
  8 <= data' /\ length buf' = length buf /\ firstn 8 buf' = firstn 8 buf.
Proof.
  unfold serialize_field, BYTES_4. intros H Hd.
  step H as field Ef. step H as field_name En. step H as size0 Es0.
  step H as value_size Evs.
  step H as b1 W1. step H as b2 W2. step H as name_bytes Rn.
  step H as b3 W3. step H as b4 W4. step H as b5 W5.
  step H as bytes Vb. step H as b6 W6.
  injection H as <- <-.
  apply strslice_len in Rn. destruct Rn as [Hlen _].
  assert (Hv : 0 <= value_size).
  { destruct (type field =? STRING_TYPE) eqn:Es.
    - apply Z.eqb_eq in Es. rewrite (value_bytes_string field _ Es) in Vb.
      destruct (string_member field); cbn [bind] in Vb; [|discriminate].
      apply strslice_len in Vb. lia.
    - unfold ser_size in Es0.
      destruct ((0 <=? type field) && (type field <? DYN_FIELD_TYPE_LEN));
        [|discriminate].
      pose proof (table_bound (type field)) as Tb.
      assert (Hs0 : size0 = nth (Z.to_nat (type field))
                              DYN_FIELD_TYPE_SER_SIZE 0) by congruence.
      assert (Hvs : value_size = sext 32 size0) by congruence.
      rewrite Hvs, Hs0. rewrite sext_small; lia. }
  apply write_at_keeps in W1, W2, W3, W4, W5, W6.
  destruct W1 as (_ & L1 & F1), W2 as (_ & L2 & F2), W3 as (_ & L3 & F3),
    W4 as (_ & L4 & F4), W5 as (_ & L5 & F5), W6 as (_ & L6 & F6).
  split; [lia|]. split; [congruence|].
  rewrite (F6 8%nat), (F5 8%nat), (F4 8%nat), (F3 8%nat), (F2 8%nat),
    (F1 8%nat) by lia.
  reflexivity.
Qed.

Lemma serialize_loop_keeps slots : forall buf data buf' data',
  fold_left (fun acc slot => state <- acc ;; serialize_field state slot)
    slots (Ok (buf, data)) = Ok (buf', data') ->
  8 <= data ->
  length buf' = length buf /\ firstn 8 buf' = firstn 8 buf.
Proof.
  induction slots as [|slot slots IH]; intros buf data buf' data';
    cbn [fold_left bind].
  - intros [= <- <-]. auto.
  - destruct (serialize_field (buf, data) slot) as [[b1 d1]|] eqn:E.
    + intros H Hd.
      destruct (serialize_field_keeps buf data slot b1 d1 E Hd)
        as (Hd1 & L1 & F1).
      destruct (IH b1 d1 buf' data' H Hd1) as (L & F). split; congruence.
    + intros H. exfalso. revert H. clear.
      induction slots as [|s slots IH]; cbn [fold_left bind];
        [discriminate | exact IH].
Qed.

Lemma calc_range m L :
  calc_dynmessage_serialized_len m = Ok L -> L <= INT_MAX.
Proof.
  unfold calc_dynmessage_serialized_len. intros H.
  step H as field_list Ef.
  destruct (list_length field_list >? 0); [|injection H as <-; unfold INT_MAX; lia].
  step H as nm En.
  revert H. generalize (firstn (Z.to_nat (list_length field_list))
                          (list_ field_list)).
  assert (R0 : sext 32 (wrap 64 (DYN_MESSAGE_FIXED_LEN + strlen nm))
               <= INT_MAX).
  { pose proof (sext_range 32 (wrap 64 (DYN_MESSAGE_FIXED_LEN + strlen nm))).
    unfold INT_MAX. change (2 ^ (32 - 1)) with 2147483648 in *. lia. }
  revert R0. generalize (sext 32 (wrap 64 (DYN_MESSAGE_FIXED_LEN + strlen nm))).
  intros r R0 slots. revert r R0.
  induction slots as [|slot slots IH]; intros r R0; cbn [fold_left bind].
  - intros [= <-]. exact R0.
  - destruct (add_field_length r slot) as [r'|] eqn:E.
    + apply IH. unfold add_field_length in E.
      step E as field Ef'. step E as field_name En'. step E as size0 Es0.
      step E as fl Efl. unfold int_add in E.
      destruct ((- INT_MAX - 1 <=? r + fl) && (r + fl <=? INT_MAX)) eqn:B;
        [|discriminate].
      injection E as <-. apply andb_true_iff in B. rewrite !Z.leb_le in B. lia.
    + intros H. exfalso. revert H. clear.
      induction slots as [|s slots IH]; cbn [fold_left bind];
        [discriminate | exact IH].
Qed.

(** What [dynmessage_serialize_bin] leaves in [serdi]. *)
Lemma serialize_header heap m serdi serdi' :
  dynmessage_serialize_bin heap m serdi = Ok serdi' ->
  serdi' = serdi \/
  exists buf,
    ser_data serdi' = Some buf /\
    Z.of_nat (length buf) = ser_data_len serdi' /\
    DYN_MSG_MIN_LEN < ser_data_len serdi' /\
    calc_dynmessage_serialized_len m = Ok (ser_data_len serdi') /\
    firstn 8 buf
    = magic_only ++ Cerializer.serialize_int32 (ser_data_len serdi') /\
    verify_full_dynmessage (Some buf) (ser_data_len serdi') = Ok true.
Proof.
  unfold dynmessage_serialize_bin, BYTES_4. intros H.
  step H as L EL. pose proof (calc_range m L EL) as HL.
  destruct (L >? DYN_MSG_MIN_LEN) eqn:Hmin; [|injection H as <-; now left].
  apply Z.gtb_lt in Hmin. unfold DYN_MSG_MIN_LEN in *. right.
  step H as b1 W1. step H as b2 W2. step H as nm En.
  step H as b3 W3. step H as name_bytes Rn. step H as b4 W4.
  step H as b5 W5. step H as field_list Gf.
  match type of H with
  | bind ?c _ = _ => destruct c as [[buf dd]|] eqn:Loop; cbn [bind] in H;
                     [|discriminate]
  end.
  injection H as <-. cbn [ser_data ser_data_len].
  apply strslice_len in Rn. destruct Rn as [Hlen _].
  apply serialize_loop_keeps in Loop; [|lia]. destruct Loop as (L6 & F6).
  pose proof (write_at_here _ _ _ _ W1) as H1.
  pose proof (write_at_here _ _ _ _ W2) as H2.
  apply write_at_keeps in W1, W2, W3, W4, W5.
  destruct W1 as (_ & L1 & F1), W2 as (_ & L2 & F2), W3 as (_ & L3 & F3),
    W4 as (_ & L4 & F4), W5 as (_ & L5 & F5).
  assert (Hbuf : firstn 8 buf
                 = magic_only ++ Cerializer.serialize_int32 L).
  { rewrite F6, (F5 8%nat), (F4 8%nat), (F3 8%nat) by lia.
    change (Z.to_nat (0 + 4) + length (Cerializer.serialize_int32 L))%nat
      with 8%nat in H2.
    rewrite H2. f_equal.
    change (Z.to_nat (0 + 4)) with 4%nat. rewrite (F2 4%nat) by lia.
    exact H1. }
  assert (Hlenb : Z.of_nat (length buf) = L).
  { rewrite L6, L5, L4, L3, L2, L1. unfold malloc_bytes.
    rewrite length_map, length_seq. lia. }
  exists buf. split_and; auto.
  destruct (verify_accepts buf L) as (b & V & A).
  - rewrite Hbuf. apply Forall_app. split.
    + repeat constructor; unfold is_byte; lia.
    + apply (pack_is_field I32 L).
  - lia.
  - rewrite V. f_equal. apply A. unfold frame_accepted. split_and.
    + lia.
    + replace (firstn 4 buf) with (firstn 4 (firstn 8 buf))
        by (rewrite firstn_firstn; reflexivity).
      rewrite Hbuf. reflexivity.
    + right. rewrite firstn_skipn_comm. change (4 + 4)%nat with 8%nat.
      rewrite Hbuf. change (skipn 4 (magic_only ++ ?x)) with x.
      change (Cerializer.serialize_int32 L) with (pack I32 L).
      rewrite be_value_pack. cbn [kind_bits].
      change (L mod 2 ^ 32) with (wrap 32 L). rewrite sext_wrap.
      rewrite sext_small; unfold INT_MAX in HL; lia.
Qed.

End FrameLaws.

(** ** The framed codec: what is written is what is read *)

Module RoundTrip.

Import Hashmap.
Import HashmapTheory.
Import HashmapLaws.
Import Dynmessage.
Import DynmessageCerializer.
Import DynmessageLaws.
Import CodecLaws.
Import FrameLaws.

(** *** Strings and buffers *)

Lemma strlen_bytes s : strlen s = Z.of_nat (length (bytes_of_string s)).
Proof.
  unfold strlen, bytes_of_string. rewrite length_map. f_equal.
  induction s as [|c s IH]; cbn; [reflexivity | now rewrite IH].
Qed.

Lemma cstring_bytes s : plain s -> cstring_of_bytes (bytes_of_string s) = s.
Proof.
  unfold plain, bytes_of_string.
  induction s as [|c s IH]; cbn [list_ascii_of_string List.map cstring_of_bytes];
    [reflexivity|].
  intros H. apply Forall_cons_iff in H. destruct H as [Hc Hs].
  destruct (Z.eqb_spec (Z.of_nat (nat_of_ascii c)) 0) as [E|_]; [contradiction|].
  rewrite Nat2Z.id, ascii_nat_embedding, (IH Hs). reflexivity.
Qed.

Lemma strslice_app buf pre x post idx n :
  buf = pre ++ x ++ post -> idx = Z.of_nat (length pre) ->
  n = Z.of_nat (length x) -> strslice buf idx n = Ok x.
Proof.
  intros -> -> ->. rewrite strslice_ok.
  - rewrite !Nat2Z.id, skipn_app, skipn_all, Nat.sub_diag. cbn [skipn app].
    rewrite firstn_length_app. reflexivity.
  - lia.
  - lia.
  - rewrite !length_app. lia.
Qed.

Lemma int32_value_back v :
  - 2 ^ 31 <= v < 2 ^ 31 ->
  sext 32 (Cerializer.deserialize_int32 (Cerializer.serialize_int32 v)) = v.
Proof.
  intros Hv.
  change (Cerializer.deserialize_int32 (Cerializer.serialize_int32 v))
    with (unpack I32 (pack I32 v)).
  rewrite unpack_pack_any. cbn [kind_signed kind_bits].
  rewrite sext_idem by lia. apply sext_small; lia.
Qed.

Lemma read_int32_app buf pre v post idx :
  buf = pre ++ Cerializer.serialize_int32 v ++ post ->
  idx = Z.of_nat (length pre) -> - 2 ^ 31 <= v < 2 ^ 31 ->
  read_int32 buf idx = Ok v.
Proof.
  intros Hb Hi Hv. unfold read_int32, BYTES_4.
  rewrite (strslice_app buf pre (Cerializer.serialize_int32 v) post idx 4 Hb Hi)
    by reflexivity.
  cbn [bind]. now rewrite int32_value_back.
Qed.

Lemma write_at_done done todo bs at_ :
  at_ = Z.of_nat (length done) -> (length bs <= length todo)%nat ->
  write_at (done ++ todo) at_ bs
  = Ok ((done ++ bs) ++ skipn (length bs) todo).
Proof.
  intros -> Hl. unfold write_at.
  replace ((0 <=? Z.of_nat (length done))
           && (Z.of_nat (length done) + Z.of_nat (length bs)
               <=? Z.of_nat (length (done ++ todo)))) with true.
  2:{ symmetry. rewrite andb_true_iff, !Z.leb_le, length_app. lia. }
  rewrite Nat2Z.id, firstn_length_app.
  rewrite skipn_app, skipn_all2 by lia.
  replace (length done + length bs - length done)%nat with (length bs) by lia.
  cbn [app]. now rewrite <- app_assoc.
Qed.

(** *** The value of a field, written and read *)

Lemma read_prefix_area va vb k :
  firstn (length vb) va = vb -> Z.of_nat (length vb) = k ->
  k <= Z.of_nat (length va) ->
  read_prefix va k = Ok vb.
Proof.
  intros Hf Hk Hl. unfold read_prefix. rewrite strslice_ok by lia.
  cbn [Z.to_nat skipn]. rewrite <- Hk, Nat2Z.id, Hf. reflexivity.
Qed.

Lemma wrap_sext w x : wrap w (sext w x) = wrap w x.
Proof. unfold wrap. apply sext_mod. Qed.

Lemma wrap_small w x : 0 <= x < 2 ^ w -> wrap w x = x.
Proof. intros H. unfold wrap. now apply Z.mod_small. Qed.

Lemma wrap_wrap w x : wrap w (wrap w x) = wrap w x.
Proof.
  unfold wrap. destruct (Z.eq_dec (2 ^ w) 0) as [E|E].
  - rewrite E, !Z.mod_0_r. reflexivity.
  - apply Z.mod_mod. exact E.
Qed.

Lemma len16 v : length (Cerializer.serialize_int16 v) = 2%nat.
Proof. reflexivity. Qed.

Lemma len32 v : length (Cerializer.serialize_int32 v) = 4%nat.
Proof. reflexivity. Qed.

Lemma len64 v : length (Cerializer.serialize_int64 v) = 8%nat.
Proof. reflexivity. Qed.

Ltac value_size k :=
  repeat match goal with
         | |- context [nth ?i ?t 0 + ?r] => change (nth i t 0 + r) with k
         end.

Ltac take_case :=
  cbn [switch]; unfold ENUMERATION_TYPE, INT8_TYPE, UNSIGNED_INT8_TYPE,
    INT16_TYPE, UNSIGNED_INT16_TYPE, INT32_TYPE, UNSIGNED_INT32_TYPE,
    INT64_TYPE, UNSIGNED_INT64_TYPE, FLOAT32_TYPE, FLOAT64_TYPE, STRING_TYPE;
  cbn [Z.eqb Pos.eqb]; cbv iota.

(** The object the decoder hands to [dynmessage_put_field_and_value]
    for a value area of a carried field reads back as the value of the
    field. *)
Lemma carried_value f :
  carried f ->
  exists nv vb obj,
    value f = Some nv /\
    value_bytes f (code_value_size f) = Ok vb /\
    Z.of_nat (length vb) <= code_value_size f /\
    valid_type (type f) /\
    (forall a, read_value (type f) obj a = Ok nv) /\
    forall va m n,
      firstn (length vb) va = vb ->
      Z.of_nat (length va) = code_value_size f ->
      put_decoded_value m n (type f) va (code_value_size f)
      = dynmessage_put_field_and_value m (Some n) (type f) (Some obj).
Proof.
  intros [_ C].
  unfold code_value_size, value_bytes, string_member, valid_type.
  destruct (value f) as [[v|v|v|v|v|v|v|v|v|x|x|s| ]|] eqn:Hv; try contradiction;
    destruct C as [Hty Hr]; rewrite Hty.
  - (* ENUMERATION_TYPE *)
    value_size 4.
    exists (enum_value v), (Cerializer.serialize_int32 v).
    eexists. split; [reflexivity|]. split; [reflexivity|].
    split; [rewrite ?len16, ?len32, ?len64; lia|].
    split; [unfold ENUMERATION_TYPE, STRING_TYPE; lia|].
    split.
    2:{ intros va m n Hf Hl. unfold put_decoded_value. take_case.
        rewrite (read_prefix_area va (Cerializer.serialize_int32 v) 4 Hf)
          by (rewrite ?len16, ?len32, ?len64 in *; lia).
        cbn [bind]. reflexivity. }
    intros a. unfold read_value. take_case.
    unfold load_uint. cbn [Z.eqb Pos.eqb bind].
    change (Cerializer.deserialize_int32 (Cerializer.serialize_int32 v))
      with (unpack I32 (pack I32 v)).
    rewrite unpack_pack_any. cbn [kind_signed kind_bits].
    change (8 * 4) with 32.
    rewrite sext_idem, wrap_wrap, wrap_sext, wrap_small by lia. reflexivity.
  - (* UNSIGNED_INT16_TYPE *)
    value_size 4.
    exists (uint16_value v), (Cerializer.serialize_int16 v).
    eexists. split; [reflexivity|]. split; [reflexivity|].
    split; [rewrite ?len16, ?len32, ?len64; lia|].
    split; [unfold UNSIGNED_INT16_TYPE, ENUMERATION_TYPE, STRING_TYPE; lia|].
    split.
    2:{ intros va m n Hf Hl. unfold put_decoded_value. take_case.
        rewrite (read_prefix_area va (Cerializer.serialize_int16 v) 2 Hf)
          by (rewrite ?len16, ?len32, ?len64 in *; lia).
        cbn [bind]. reflexivity. }
    intros a. unfold read_value. take_case.
    unfold load_uint. cbn [Z.eqb Pos.eqb bind].
    change (Cerializer.deserialize_uint16 (Cerializer.serialize_int16 v))
      with (unpack U16 (pack U16 v)).
    rewrite unpack_pack_any. cbn [kind_signed kind_bits].
    change (8 * 4) with 32.
    rewrite (wrap_small 16 v) by lia.
    rewrite (sext_small 32 v) by lia.
    rewrite wrap_wrap, wrap_small by lia. reflexivity.
  - (* INT32_TYPE *)
    value_size 8.
    exists (int32_value v), (Cerializer.serialize_int32 v).
    eexists. split; [reflexivity|]. split; [reflexivity|].
    split; [rewrite ?len16, ?len32, ?len64; lia|].
    split; [unfold INT32_TYPE, ENUMERATION_TYPE, STRING_TYPE; lia|].
    split.
    2:{ intros va m n Hf Hl. unfold put_decoded_value. take_case.
        rewrite (read_prefix_area va (Cerializer.serialize_int32 v) 4 Hf)
          by (rewrite ?len16, ?len32, ?len64 in *; lia).
        cbn [bind]. reflexivity. }
    intros a. unfold read_value. take_case.
    unfold load_sint, load_uint. cbn [Z.eqb Pos.eqb bind].
    change (Cerializer.deserialize_int32 (Cerializer.serialize_int32 v))
      with (unpack I32 (pack I32 v)).
    rewrite unpack_pack_any. cbn [kind_signed kind_bits].
    change (8 * 8) with 64.
    rewrite (sext_small 32 v) by lia.
    rewrite wrap_wrap, sext_wrap, sext_small by lia. reflexivity.
  - (* UNSIGNED_INT32_TYPE *)
    value_size 8.
    exists (uint32_value v), (Cerializer.serialize_int32 v).
    eexists. split; [reflexivity|]. split; [reflexivity|].
    split; [rewrite ?len16, ?len32, ?len64; lia|].
    split; [unfold UNSIGNED_INT32_TYPE, ENUMERATION_TYPE, STRING_TYPE; lia|].
    split.
    2:{ intros va m n Hf Hl. unfold put_decoded_value. take_case.
        rewrite (read_prefix_area va (Cerializer.serialize_int32 v) 4 Hf)
          by (rewrite ?len16, ?len32, ?len64 in *; lia).
        cbn [bind]. reflexivity. }
    intros a. unfold read_value. take_case.
    unfold load_uint. cbn [Z.eqb Pos.eqb bind].
    change (Cerializer.deserialize_uint32 (Cerializer.serialize_int32 v))
      with (unpack U32 (pack U32 v)).
    rewrite unpack_pack_any. cbn [kind_signed kind_bits].
    change (8 * 8) with 64.
    rewrite (wrap_small 32 v) by lia.
    rewrite (sext_small 64 v) by lia.
    rewrite wrap_wrap, wrap_small by lia. reflexivity.
  - (* UNSIGNED_INT64_TYPE *)
    value_size 8.
    exists (uint64_value v), (Cerializer.serialize_int64 v).
    eexists. split; [reflexivity|]. split; [reflexivity|].
    split; [rewrite ?len16, ?len32, ?len64; lia|].
    split; [unfold UNSIGNED_INT64_TYPE, ENUMERATION_TYPE, STRING_TYPE; lia|].
    split.
    2:{ intros va m n Hf Hl. unfold put_decoded_value. take_case.
        rewrite (read_prefix_area va (Cerializer.serialize_int64 v) 8 Hf)
          by (rewrite ?len16, ?len32, ?len64 in *; lia).
        cbn [bind]. reflexivity. }
    intros a. unfold read_value. take_case.
    unfold load_uint. cbn [Z.eqb Pos.eqb bind].
    change (Cerializer.deserialize_uint64 (Cerializer.serialize_int64 v))
      with (unpack U64 (pack U64 v)).
    rewrite unpack_pack_any. cbn [kind_signed kind_bits].
    change (8 * 8) with 64.
    rewrite wrap_wrap, wrap_small by lia. reflexivity.
  - (* STRING_TYPE *)
    pose proof (strlen_bytes s) as Ls.
    value_size (strlen s).
    exists (string_value s), (bytes_of_string s), (Obj_chars s).
    split; [reflexivity|].
    assert (Rs : read_prefix (bytes_of_string s) (strlen s)
                 = Ok (bytes_of_string s)).
    { apply read_prefix_area; [apply firstn_all | lia | lia]. }
    split; [take_case; cbn [deref bind]; exact Rs|].
    split; [lia|].
    split; [unfold ENUMERATION_TYPE, STRING_TYPE; lia|].
    split; [intros a; reflexivity|].
    intros va m n Hf Hl. unfold put_decoded_value. take_case.
    assert (Eva : va = bytes_of_string s).
    { rewrite <- Hf. symmetry. apply firstn_all2. lia. }
    rewrite Eva. fold (read_prefix (bytes_of_string s) (strlen s)).
    rewrite Rs. cbn [bind]. rewrite (cstring_bytes s Hr). reflexivity.
Qed.

(** *** The serializer writes the frames *)

Lemma code_value_size_pos f : 0 <= code_value_size f.
Proof.
  unfold code_value_size. pose proof (table_bound (type f)).
  destruct (type f =? STRING_TYPE); [|lia].
  destruct (value f) as [[]|]; unfold strlen; lia.
Qed.

Lemma code_field_length_eq f n :
  name f = Some n ->
  code_field_length f = 16 + strlen n + code_value_size f.
Proof. intros H. unfold code_field_length. rewrite H. reflexivity. Qed.

(** The size the serializer takes for the value of a carried field. *)
Lemma serialized_value_size f :
  carried f -> code_value_size f <= INT_MAX ->
  exists size0,
    ser_size (type f) = Ok size0 /\
    (if type f =? STRING_TYPE
     then s <- string_member f ;; Ok (sext 32 (wrap 64 (strlen s)))
     else Ok (sext 32 size0))
    = Ok (code_value_size f).
Proof.
  intros C Hb. destruct (carried_value f C)
    as (nv & vb & obj & Hv & _ & _ & Hty & _).
  exists (nth (Z.to_nat (type f)) DYN_FIELD_TYPE_SER_SIZE 0). split.
  - unfold ser_size.
    replace ((0 <=? type f) && (type f <? DYN_FIELD_TYPE_LEN)) with true;
      [reflexivity|].
    symmetry. unfold valid_type, ENUMERATION_TYPE, STRING_TYPE in Hty.
    unfold DYN_FIELD_TYPE_LEN. rewrite andb_true_iff, Z.leb_le, Z.ltb_lt. lia.
  - pose proof (table_bound (type f)) as Tb.
    unfold code_value_size in *. destruct (type f =? STRING_TYPE) eqn:Es.
    + apply Z.eqb_eq in Es. destruct C as [_ C]. rewrite Hv in *.
      destruct nv; try contradiction; destruct C as [Hty' Hr];
        try (rewrite Es in Hty'; discriminate Hty').
      unfold string_member. rewrite Hv. cbn [deref bind].
      rewrite Es in *.
      change (nth (Z.to_nat STRING_TYPE) DYN_FIELD_TYPE_SER_SIZE 0) with 0 in *.
      rewrite int_wrap by (unfold strlen in *; lia). reflexivity.
    + rewrite sext_small by lia. f_equal. lia.
Qed.

Lemma skipn_skipn_add {A} (a b : nat) (l : list A) :
  skipn a (skipn b l) = skipn (a + b) l.
Proof.
  revert l. induction b as [|b IH]; intros l.
  - now rewrite Nat.add_0_r.
  - destruct l as [|x l]; [now rewrite !skipn_nil|].
    rewrite Nat.add_succ_r. cbn [skipn]. apply IH.
Qed.

(** One turn of the loop of the serializer, on a buffer of which
    [done] is written and [todo] is still as allocated. *)
Lemma serialize_field_at done todo f :
  carried f -> code_field_length f <= INT_MAX ->
  code_field_length f <= Z.of_nat (length todo) ->
  exists va,
    serialize_field (done ++ todo, Z.of_nat (length done)) (Some f)
    = Ok ((done ++ field_frame f va)
          ++ skipn (Z.to_nat (code_field_length f)) todo,
          Z.of_nat (length done) + code_field_length f) /\
    value_area f va /\
    va = value_area_in todo f.
Proof.
  intros C Hmax Hroom.
  destruct (carried_value f C) as (nv & vb & obj & Hv & Hvb & Hlen & Hty & _).
  destruct C as [(n & Hn & Hplain) C'].
  pose proof (code_value_size_pos f) as Hvs.
  pose proof (code_field_length_eq f n Hn) as Hfl.
  assert (Hnl : 0 <= strlen n) by (unfold strlen; lia).
  pose proof (strlen_bytes n) as Hnb.
  destruct (serialized_value_size f (conj (ex_intro _ n (conj Hn Hplain)) C'))
    as (size0 & Hs0 & Hsz); [lia|].
  set (vs := code_value_size f) in *. set (fl := code_field_length f) in *.
  set (gap := firstn (Z.to_nat vs - length vb)
                (skipn (16 + length (bytes_of_string n) + length vb) todo)).
  exists (vb ++ gap).
  assert (Lgap : length gap = (Z.to_nat vs - length vb)%nat).
  { unfold gap. rewrite length_firstn, length_skipn. lia. }
  split.
  2:{ split.
      - exists vb. split; [exact Hvb|]. split.
        + apply firstn_length_app.
        + rewrite length_app, Lgap. lia.
      - unfold value_area_in. fold vs. rewrite Hvb, Hn. reflexivity. }
  unfold serialize_field. cbn [deref bind]. rewrite Hn. cbn [deref bind].
  rewrite Hs0. cbn [bind]. rewrite Hsz. cbn [bind].
  unfold DYN_FIELD_FIXED_LEN, BYTES_4.
  replace (16 + strlen n + vs) with fl by lia.
  rewrite (int_wrap fl) by lia.
  rewrite (sext_small 32 (strlen n)) by (unfold INT_MAX in *; lia).
  rewrite (write_at_done done todo) by (rewrite ?len32; lia).
  cbn [bind]. rewrite len32.
  rewrite (write_at_done (done ++ _) (skipn 4 todo))
    by (rewrite ?length_app, ?len32, ?length_skipn; lia).
  cbn [bind]. rewrite len32.
  rewrite (read_prefix_area (bytes_of_string n) (bytes_of_string n))
    by (try apply firstn_all; lia).
  cbn [bind].
  rewrite (write_at_done ((done ++ _) ++ _) (skipn 4 (skipn 4 todo)))
    by (rewrite ?length_app, ?len32, ?length_skipn; lia).
  cbn [bind].
  rewrite (write_at_done (((done ++ _) ++ _) ++ _))
    by (rewrite ?length_app, ?len32, ?length_skipn; lia).
  cbn [bind]. rewrite len32.
  rewrite (write_at_done ((((done ++ _) ++ _) ++ _) ++ _))
    by (rewrite ?length_app, ?len32, ?length_skipn; lia).
  cbn [bind]. rewrite len32.
  fold vs. rewrite Hvb. cbn [bind].
  rewrite (write_at_done (((((done ++ _) ++ _) ++ _) ++ _) ++ _))
    by (rewrite ?length_app, ?len32, ?length_skipn; lia).
  cbn [bind]. f_equal. f_equal; [|lia].
  rewrite !skipn_skipn_add.
  unfold field_frame. rewrite Hn. fold fl. fold vs.
  rewrite <- !app_assoc. do 7 f_equal.
  match goal with
  | |- skipn ?k todo = _ =>
      rewrite <- (firstn_skipn (Z.to_nat vs - length vb) (skipn k todo))
  end.
  f_equal.
  - unfold gap. do 2 f_equal. lia.
  - rewrite skipn_skipn_add. f_equal. lia.
Qed.

Lemma field_frame_length f va :
  (exists n, name f = Some n) -> value_area f va ->
  Z.of_nat (length (field_frame f va)) = code_field_length f.
Proof.
  intros (n & Hn) (vb & _ & _ & Hl).
  unfold field_frame. rewrite (code_field_length_eq f n Hn), Hn.
  rewrite !length_app, !len32, (strlen_bytes n). lia.
Qed.

Lemma sum_lengths_pos fs :
  0 <= fold_right (fun f acc => code_field_length f + acc) 0 fs.
Proof.
  induction fs as [|g fs IH]; cbn; [lia|].
  pose proof (code_field_length_pos g). lia.
Qed.

(** The loop of the serializer over the field list. *)
Lemma serialize_loop_at fs : forall done todo,
  Forall carried fs ->
  fold_right (fun f acc => code_field_length f + acc) 0 fs <= INT_MAX ->
  fold_right (fun f acc => code_field_length f + acc) 0 fs
  <= Z.of_nat (length todo) ->
  exists vas,
    fold_left (fun acc slot => state <- acc ;; serialize_field state slot)
      (List.map Some fs) (Ok (done ++ todo, Z.of_nat (length done)))
    = Ok ((done ++ frames fs vas)
          ++ skipn (Z.to_nat
                      (fold_right (fun f acc => code_field_length f + acc)
                         0 fs)) todo,
          Z.of_nat (length done)
          + fold_right (fun f acc => code_field_length f + acc) 0 fs) /\
    Forall2 value_area fs vas /\
    vas = areas_in todo fs.
Proof.
  induction fs as [|f fs IH]; intros done todo Hc Hmax Hroom.
  - exists []. cbn [List.map fold_left fold_right frames Z.to_nat skipn].
    split; [|split; [constructor | reflexivity]].
    rewrite app_nil_r, Z.add_0_r. reflexivity.
  - apply Forall_cons_iff in Hc. destruct Hc as [Cf Cfs].
    cbn [fold_right] in *.
    pose proof (code_field_length_pos f) as Pf.
    pose proof (sum_lengths_pos fs) as Ps.
    set (rest := fold_right (fun f acc => code_field_length f + acc) 0 fs) in *.
    destruct (serialize_field_at done todo f Cf) as (va & Hstep & Hva & Eva);
      [lia | lia |].
    pose proof (field_frame_length f va) as Lf.
    destruct Cf as [(n & Hn & Hp) Cv].
    specialize (Lf (ex_intro _ n Hn) Hva).
    destruct (IH (done ++ field_frame f va)
                 (skipn (Z.to_nat (code_field_length f)) todo) Cfs)
      as (vas & Hloop & Hvas & Evas); [lia | rewrite length_skipn; lia |].
    exists (va :: vas).
    split; [|split; [constructor; assumption
                    | cbn [areas_in]; rewrite Eva, Evas; reflexivity]].
    cbn [List.map fold_left bind frames]. rewrite Hstep.
    replace (Z.of_nat (length done) + code_field_length f)
      with (Z.of_nat (length (done ++ field_frame f va)))
      by (rewrite length_app; lia).
    rewrite Hloop. f_equal. f_equal.
    + rewrite skipn_skipn_add, <- !app_assoc. do 4 f_equal. lia.
    + rewrite length_app. lia.
Qed.

(** [dynmessage_serialize_bin] on a message of carried fields: the
    buffer is the header followed by the sub-frames of the fields in
    the order of their [seq]. *)
Lemma serialize_frames heap m serdi nm :
  reachable m -> message_name m = Some nm ->
  (forall f, In f (fields m) -> carried f) ->
  0 < field_count m ->
  DYN_MSG_MIN_LEN < code_serialized_len m <= INT_MAX ->
  exists sl vas,
    dynmessage_get_fields m
    = Ok {| list_ := List.map Some sl; list_length := field_count m |} /\
    Permutation sl (fields m) /\
    Z.of_nat (length sl) = field_count m /\
    (forall i d, (i < length sl)%nat -> seq (nth i sl d) = Z.of_nat i + 1) /\
    Forall2 value_area sl vas /\
    dynmessage_serialize_bin heap m serdi
    = Ok {| ser_data :=
              Some (frame_header nm (field_count m) (code_serialized_len m)
                    ++ frames sl vas);
            ser_data_len := code_serialized_len m |} /\
    vas = areas_in
            (skipn (Z.to_nat (16 + strlen nm))
               (malloc_bytes heap (code_serialized_len m))) sl.
Proof.
  intros R Hnm Hc Hk [Hmin Hmax]. pose proof (reachable_inv m R) as I.
  destruct (snapshot m I) as (l & sl & G & Hlen & Hl & Hn & P & Hs).
  assert (El : l = {| list_ := List.map Some sl;
                      list_length := field_count m |}).
  { destruct l as [ll len]. cbn in Hlen, Hl. subst. reflexivity. }
  subst l.
  pose proof (calc_formula m R Hk Hmax) as Hcalc.
  set (L := code_serialized_len m) in *.
  set (body := fold_right (fun f acc => code_field_length f + acc) 0 sl).
  assert (HL : L = 16 + strlen nm + body).
  { unfold L, code_serialized_len, body. rewrite Hnm.
    rewrite (sum_perm code_field_length sl (fields m) P). reflexivity. }
  assert (Hnl : 0 <= strlen nm) by (unfold strlen; lia).
  pose proof (strlen_bytes nm) as Hnb.
  pose proof (sum_lengths_pos sl) as Hb. fold body in Hb.
  assert (Csl : Forall carried sl).
  { apply Forall_forall. intros f Hf. apply Hc. rewrite <- P. exact Hf. }
  set (block := malloc_bytes heap L).
  assert (Lb : length block = Z.to_nat L).
  { unfold block, malloc_bytes. rewrite length_map, length_seq. reflexivity. }
  set (hdr := frame_header nm (field_count m) L).
  assert (Lh : Z.of_nat (length hdr) = 16 + strlen nm).
  { unfold hdr, frame_header. rewrite !length_app, !len32. cbn [length magic_only].
    lia. }
  destruct (serialize_loop_at sl hdr (skipn (length hdr) block) Csl)
    as (vas & Hloop & Hvas & Evas).
  { fold body. lia. }
  { fold body. rewrite length_skipn. lia. }
  exists sl, vas. split_and; auto.
  2:{ rewrite Evas. fold L. fold block. do 2 f_equal. lia. }
  unfold dynmessage_serialize_bin. rewrite Hcalc. cbn [bind].
  replace (L >? DYN_MSG_MIN_LEN) with true by (symmetry; apply Z.gtb_lt; lia).
  unfold BYTES_4. fold block.
  unfold DYN_MSG_MIN_LEN in Hmin.
  rewrite (write_at_done [] block) by (cbn [length]; rewrite ?len32; lia).
  cbn [bind app]. rewrite len32.
  rewrite (write_at_done (Cerializer.serialize_int32 DYN_MSG_START))
    by (rewrite ?len32, ?length_skipn; lia).
  cbn [bind]. rewrite len32, Hnm. cbn [deref bind].
  rewrite (sext_small 32 (strlen nm)) by (unfold INT_MAX in *; lia).
  rewrite (write_at_done (Cerializer.serialize_int32 DYN_MSG_START ++ _))
    by (rewrite ?length_app, ?len32, ?length_skipn; lia).
  cbn [bind]. rewrite len32.
  rewrite (read_prefix_area (bytes_of_string nm) (bytes_of_string nm))
    by (try apply firstn_all; lia).
  cbn [bind].
  rewrite (write_at_done ((Cerializer.serialize_int32 DYN_MSG_START ++ _) ++ _))
    by (rewrite ?length_app, ?len32, ?length_skipn; lia).
  cbn [bind].
  rewrite (write_at_done
             (((Cerializer.serialize_int32 DYN_MSG_START ++ _) ++ _) ++ _))
    by (rewrite ?length_app, ?len32, ?length_skipn; lia).
  cbn [bind]. rewrite len32, G. cbn [bind list_ list_length].
  rewrite firstn_all2 by (rewrite length_map; lia).
  rewrite !skipn_skipn_add.
  match goal with
  | |- context [fold_left _ _ (Ok (?d ++ skipn ?k block, ?i))] =>
      replace (d ++ skipn k block) with (hdr ++ skipn (length hdr) block);
      [replace i with (Z.of_nat (length hdr))|]
  end.
  - rewrite Hloop. cbn [bind]. do 2 f_equal. fold body.
    rewrite skipn_all2 by (rewrite length_skipn; lia).
    rewrite app_nil_r. reflexivity.
  - rewrite Lh. lia.
  - unfold hdr, frame_header.
    change (Cerializer.serialize_int32 DYN_MSG_START) with magic_only.
    rewrite <- !app_assoc. do 5 f_equal.
    rewrite !length_app, !len32. cbn [length magic_only]. f_equal. lia.
Qed.

(** *** The decoder reads the frames *)

(** One turn of the loop of the decoder at the sub-frame of a field. *)
Lemma deserialize_field_at buf pre f va post m n :
  buf = pre ++ field_frame f va ++ post ->
  name f = Some n -> plain n -> valid_type (type f) ->
  value_area f va -> code_field_length f <= INT_MAX ->
  deserialize_field buf (m, Z.of_nat (length pre))
  = (m' <- put_decoded_value m n (type f) va (code_value_size f) ;;
     Ok (m', Z.of_nat (length pre) + code_field_length f)).
Proof.
  intros Hb Hn Hp Hty (vb & _ & _ & Hva) Hmax.
  pose proof (code_value_size_pos f) as Hvs.
  pose proof (code_field_length_eq f n Hn) as Hfl.
  pose proof (strlen_bytes n) as Hnb.
  assert (Hnl : 0 <= strlen n) by (unfold strlen; lia).
  unfold valid_type, ENUMERATION_TYPE, STRING_TYPE in Hty.
  unfold INT_MAX in Hmax.
  unfold field_frame in Hb. rewrite Hn in Hb.
  set (A := Cerializer.serialize_int32 (code_field_length f)) in *.
  set (B := Cerializer.serialize_int32 (strlen n)) in *.
  set (N := bytes_of_string n) in *.
  set (T := Cerializer.serialize_int32 (type f)) in *.
  set (S := Cerializer.serialize_int32 (code_value_size f)) in *.
  assert (LA : length A = 4%nat) by reflexivity.
  assert (LB : length B = 4%nat) by reflexivity.
  assert (LT : length T = 4%nat) by reflexivity.
  assert (LS : length S = 4%nat) by reflexivity.
  unfold deserialize_field, BYTES_4.
  rewrite (read_int32_app buf pre (code_field_length f)
             (B ++ N ++ T ++ S ++ va ++ post))
    by first [ rewrite Hb, <- ?app_assoc; reflexivity | lia ].
  cbn [bind].
  rewrite (read_int32_app buf (pre ++ A) (strlen n)
             (N ++ T ++ S ++ va ++ post))
    by first [ rewrite Hb, <- ?app_assoc; reflexivity
             | rewrite ?length_app; lia ].
  cbn [bind].
  rewrite (strslice_app buf (pre ++ A ++ B) N (T ++ S ++ va ++ post))
    by first [ rewrite Hb, <- ?app_assoc; reflexivity
             | rewrite ?length_app; lia ].
  cbn [bind].
  rewrite (read_int32_app buf (pre ++ A ++ B ++ N) (type f)
             (S ++ va ++ post))
    by first [ rewrite Hb, <- ?app_assoc; reflexivity
             | rewrite ?length_app; lia ].
  cbn [bind].
  rewrite (read_int32_app buf (pre ++ A ++ B ++ N ++ T) (code_value_size f)
             (va ++ post))
    by first [ rewrite Hb, <- ?app_assoc; reflexivity
             | rewrite ?length_app; lia ].
  cbn [bind]. unfold dynmessage_put_field.
  rewrite put_noop by (left; reflexivity). cbn [bind].
  rewrite (strslice_app buf (pre ++ A ++ B ++ N ++ T ++ S) va post)
    by first [ rewrite Hb, <- ?app_assoc; reflexivity
             | rewrite ?length_app; lia ].
  cbn [bind]. unfold N at 1. rewrite (cstring_bytes n Hp).
  destruct (put_decoded_value m n (type f) va (code_value_size f));
    cbn [bind]; [|reflexivity].
  do 2 f_equal. lia.
Qed.

(** A name [dynmessage_get_field] finds no field for is not in the
    table. *)
Lemma absent_not_contained m h n :
  msg_inv m -> fields_info m = Some h ->
  dynmessage_get_field m (Some n) = no_field ->
  hashmap_contains_key h n = false.
Proof.
  intros I Hm Hg. destruct (hashmap_contains_key h n) eqn:C; [|reflexivity].
  exfalso. destruct (inv_map m I) as (h' & Hm' & W).
  assert (h' = h) by congruence. subst h'.
  apply (contains_in h n W) in C.
  assert (Hin : In n (List.map key (stored m)))
    by (unfold stored; rewrite Hm; exact C).
  destruct (get_field_present m n I Hin) as (f & Hf & _ & _ & Hs).
  rewrite Hg in Hf. subst f. cbn in Hs. lia.
Qed.

Lemma frames_length fs : forall vas,
  Forall carried fs -> Forall2 value_area fs vas ->
  Z.of_nat (length (frames fs vas))
  = fold_right (fun f acc => code_field_length f + acc) 0 fs.
Proof.
  induction fs as [|f fs IH]; intros vas Hc Hv; [reflexivity|].
  inversion Hv as [|? va ? vas' Hva Hvas]; subst.
  apply Forall_cons_iff in Hc. destruct Hc as [[(n & Hn & _) _] Hc].
  cbn [frames fold_right]. rewrite length_app, Nat2Z.inj_add.
  rewrite (field_frame_length f va (ex_intro _ n Hn) Hva), (IH vas' Hc Hvas).
  reflexivity.
Qed.

(** The loop of the decoder over the sub-frames of carried fields with
    names the message does not hold: every field is put back with its
    type, its value and its [seq]. *)
Lemma deserialize_loop_at buf fs : forall vas pre post m,
  buf = pre ++ frames fs vas ++ post ->
  Forall carried fs -> Forall2 value_area fs vas ->
  fold_right (fun f acc => code_field_length f + acc) 0 fs <= INT_MAX ->
  NoDup (List.map name fs) ->
  reachable m ->
  (forall n, In (Some n) (List.map name fs) ->
             dynmessage_get_field m (Some n) = no_field) ->
  field_count m + Z.of_nat (length fs) <= INT_MAX ->
  (forall i d, (i < length fs)%nat ->
               seq (nth i fs d) = field_count m + Z.of_nat i + 1) ->
  exists m',
    Nat.iter (length fs)
      (fun acc => state <- acc ;; deserialize_field buf state)
      (Ok (m, Z.of_nat (length pre)))
    = Ok (m', Z.of_nat (length pre) + Z.of_nat (length (frames fs vas))) /\
    reachable m' /\
    field_count m' = field_count m + Z.of_nat (length fs) /\
    message_name m' = message_name m /\
    (forall f, In f fs -> forall n, name f = Some n ->
               dynmessage_get_field m' (Some n) = f) /\
    (forall n, ~ In (Some n) (List.map name fs) ->
               dynmessage_get_field m' (Some n)
               = dynmessage_get_field m (Some n)).
Proof.
  induction fs as [|f fs IH];
    intros vas pre post m Hb Hc Hv Hmax Hnd R Habs Hcount Hseq.
  - exists m. cbn [length Nat.iter frames]. rewrite !Z.add_0_r.
    split_and; auto. intros f [].
  - inversion Hv as [|? va ? vas' Hva Hvas]; subst vas.
    apply Forall_cons_iff in Hc. destruct Hc as [Cf Cfs].
    cbn [List.map] in Hnd. apply NoDup_cons_iff in Hnd.
    destruct Hnd as [Hfresh Hnd].
    cbn [fold_right] in Hmax. pose proof (sum_lengths_pos fs) as Ps.
    pose proof (code_field_length_pos f) as Pf.
    destruct (carried_value f Cf)
      as (nv & vb & obj & Hval & Hvb & _ & Hty & Hread & Hdec).
    pose proof Cf as [(n & Hn & Hp) _].
    pose proof (reachable_inv m R) as I.
    destruct (inv_map m I) as (h & Hm & W).
    assert (Hnew : hashmap_contains_key h n = false).
    { apply (absent_not_contained m h n I Hm). apply Habs.
      cbn [List.map]. left. exact Hn. }
    cbn [length] in Hcount.
    destruct (put_new_field m h n (type f) obj nv I Hm Hnew Hty) as
      (m1 & Hput & Hget1 & Hfc1 & Hnm1 & Hoth1); [lia | apply Hread |].
    pose proof (reach_put m m1 (Some n) (type f) (Some obj) R Hput) as R1.
    cbn [frames] in Hb.
    assert (Hstep : deserialize_field buf (m, Z.of_nat (length pre))
                    = Ok (m1, Z.of_nat (length (pre ++ field_frame f va)))).
    { rewrite (deserialize_field_at buf pre f va (frames fs vas' ++ post) m n)
        by first [ rewrite Hb, <- ?app_assoc; reflexivity | assumption | lia ].
      destruct Hva as (vb' & Hvb' & Hfirst & Hlen).
      assert (vb' = vb) by congruence. subst vb'.
      rewrite (Hdec va m n Hfirst Hlen), Hput. cbn [bind].
      rewrite length_app, Nat2Z.inj_add.
      rewrite (field_frame_length f va (ex_intro _ n Hn)
                 (ex_intro _ vb (conj Hvb (conj Hfirst Hlen)))).
      reflexivity. }
    destruct (IH vas' (pre ++ field_frame f va) post m1)
      as (m' & Hiter & R' & Hfc' & Hnm' & Hin' & Hout'); auto.
    + rewrite Hb, <- !app_assoc. reflexivity.
    + lia.
    + intros n' Hn'. rewrite Hoth1.
      * apply Habs. cbn [List.map]. right. exact Hn'.
      * intros ->. apply Hfresh. rewrite Hn. exact Hn'.
    + lia.
    + intros i d Hi. rewrite Hfc1.
      specialize (Hseq (Datatypes.S i) d). cbn [nth length] in Hseq.
      rewrite Hseq by lia. lia.
    + exists m'. split_and.
      * cbn [length]. rewrite Nat.iter_succ_r. cbn [bind]. rewrite Hstep.
        rewrite Hiter. cbn [frames]. f_equal. f_equal.
        rewrite !length_app. lia.
      * exact R'.
      * cbn [length]. lia.
      * congruence.
      * intros g [<- | Hg] n' Hn'.
        -- assert (n' = n) by congruence. subst n'.
           rewrite Hout' by (rewrite <- Hn; exact Hfresh).
           rewrite Hget1. destruct f as [fn ft fv fs']. cbn in *.
           specialize (Hseq 0%nat {| name := None; type := 0; value := None;
                                     seq := 0 |}).
           cbn in Hseq. rewrite Hseq by lia. subst fn fv. f_equal. lia.
        -- exact (Hin' g Hg n' Hn').
      * intros n' Hn'. cbn [List.map In] in Hn'.
        rewrite Hout' by tauto. apply Hoth1.
        intros ->. apply Hn'. left. exact Hn.
Qed.

(** *** Serialize, then deserialize *)

Lemma fields_names_nodup m : msg_inv m -> NoDup (List.map name (fields m)).
Proof.
  intros I. destruct (inv_map m I) as (h & Hm & W).
  rewrite (fields_stored m I), map_map.
  assert (E : List.map (fun e => name (Hashmap.value e)) (stored m)
              = List.map Some (List.map key (stored m))).
  { rewrite map_map. apply map_ext_in. intros e He.
    apply (inv_field m I e He). }
  rewrite E. apply Finite.Injective_map_NoDup.
  - intros a b [= ->]. reflexivity.
  - unfold stored. rewrite Hm. exact (wf_nodup h W).
Qed.

Lemma fields_seq_nodup m : msg_inv m -> NoDup (List.map seq (fields m)).
Proof.
  intros I. rewrite (fields_stored m I), map_map.
  rewrite (inv_seq m I). apply seq_range_nodup.
Qed.

Lemma init_absent nm n :
  dynmessage_get_field (dynmessage_init dynmessage_create (Some nm)) (Some n)
  = no_field.
Proof.
  apply get_field_absent; [apply inv_init|].
  unfold stored, dynmessage_init. cbn [fields_info].
  rewrite init_table, entries_emptied. intros [].
Qed.

(** The fields [dynmessage_get_fields] lists are determined by what
    [dynmessage_get_field] answers for their names. *)
Lemma snapshot_determined m sl :
  msg_inv m ->
  Z.of_nat (length sl) = field_count m ->
  (forall i d, (i < length sl)%nat -> seq (nth i sl d) = Z.of_nat i + 1) ->
  (forall f, In f sl -> exists n,
     name f = Some n /\ dynmessage_get_field m (Some n) = f) ->
  dynmessage_get_fields m
  = Ok {| list_ := List.map Some sl; list_length := field_count m |}.
Proof.
  intros I Hlen Hseq Hget.
  destruct (snapshot m I) as (l & sl' & G & Hll & Hl & Hn & P & Hs).
  rewrite G. f_equal. destruct l as [ll len]. cbn in Hll, Hl. subst ll len.
  f_equal. f_equal.
  set (d0 := {| name := None; type := 0; value := None; seq := 0 |}).
  apply (nth_ext _ _ d0 d0); [lia|]. intros i Hi.
  assert (Hi' : (i < length sl)%nat) by lia.
  assert (In1 : In (nth i sl' d0) (fields m)).
  { rewrite <- P. apply nth_In. exact Hi. }
  destruct (Hget (nth i sl d0) (nth_In sl d0 Hi')) as (n & Hname & Hg).
  assert (In2 : In (nth i sl d0) (fields m)).
  { destruct (in_dec string_dec n (List.map key (stored m))) as [Hin|Hout].
    - destruct (get_field_present m n I Hin) as (f & Hf & Hfin & _).
      rewrite Hg in Hf. subst f. exact Hfin.
    - exfalso. rewrite (get_field_absent m n I Hout) in Hg.
      pose proof (Hseq i d0 Hi') as Hsq. rewrite <- Hg in Hsq. cbn in Hsq. lia. }
  apply (NoDup_map_eq seq (fields m)); auto.
  - apply fields_seq_nodup. exact I.
  - rewrite (Hs i d0 Hi), (Hseq i d0 Hi'). reflexivity.
Qed.

(** A message of carried fields comes back from its frame. *)
Lemma roundtrip_carried heap m nm :
  reachable m -> message_name m = Some nm -> plain nm ->
  (forall f, In f (fields m) -> carried f) ->
  0 < field_count m ->
  DYN_MSG_MIN_LEN < code_serialized_len m <= INT_MAX ->
  exists m',
    roundtrip heap m = Ok (Some m') /\
    reachable m' /\
    message_name m' = Some nm /\
    field_count m' = field_count m /\
    dynmessage_get_fields m' = dynmessage_get_fields m.
Proof.
  intros R Hnm Hpl Hc Hk Hlen. pose proof (reachable_inv m R) as I.
  destruct (serialize_frames heap m unset_serdi nm R Hnm Hc Hk Hlen)
    as (sl & vas & G & P & Hn & Hs & Hvas & Hser & _).
  destruct Hlen as [Hmin Hmax].
  set (L := code_serialized_len m) in *.
  set (hdr := frame_header nm (field_count m) L) in *.
  set (buf := hdr ++ frames sl vas) in *.
  assert (V : verify_full_dynmessage (Some buf) L = Ok true).
  { destruct (serialize_header heap m unset_serdi _ Hser)
      as [C | (b & Hb & _ & _ & _ & _ & Hv)]; [discriminate C|].
    cbn [ser_data ser_data_len] in Hb, Hv. injection Hb as <-. exact Hv. }
  assert (Csl : Forall carried sl).
  { apply Forall_forall. intros f Hf. apply Hc. rewrite <- P. exact Hf. }
  assert (HL : L = 16 + strlen nm
                   + fold_right (fun f acc => code_field_length f + acc) 0 sl).
  { unfold L, code_serialized_len. rewrite Hnm.
    rewrite (sum_perm code_field_length sl (fields m) P). reflexivity. }
  pose proof (sum_lengths_pos sl) as Hb.
  assert (Hnl : 0 <= strlen nm) by (unfold strlen; lia).
  pose proof (strlen_bytes nm) as Hnb.
  pose proof (inv_bound m I) as Hfc.
  assert (Lh : Z.of_nat (length hdr) = 16 + strlen nm).
  { unfold hdr, frame_header. rewrite !length_app, !len32.
    cbn [length magic_only]. lia. }
  set (m0 := dynmessage_init dynmessage_create (Some nm)).
  assert (A1 : buf = hdr ++ frames sl vas ++ [])
    by (unfold buf; rewrite app_nil_r; reflexivity).
  assert (A2 : fold_right (fun f acc => code_field_length f + acc) 0 sl
               <= INT_MAX) by lia.
  assert (A3 : NoDup (List.map name sl)).
  { apply (Permutation_NoDup (l := List.map name (fields m))).
    - apply Permutation_map. symmetry. exact P.
    - apply fields_names_nodup. exact I. }
  assert (A4 : reachable m0) by apply reach_init.
  assert (A5 : forall n, In (Some n) (List.map name sl) ->
                         dynmessage_get_field m0 (Some n) = no_field)
    by (intros n _; apply init_absent).
  assert (A6 : field_count m0 + Z.of_nat (length sl) <= INT_MAX)
    by (cbn [m0 dynmessage_init field_count]; lia).
  assert (A7 : forall i d, (i < length sl)%nat ->
                 seq (nth i sl d) = field_count m0 + Z.of_nat i + 1).
  { intros i d Hi. rewrite (Hs i d Hi). cbn [m0 dynmessage_init field_count].
    lia. }
  destruct (deserialize_loop_at buf sl vas hdr [] m0 A1 Csl Hvas A2 A3 A4 A5
              A6 A7) as (m' & Hiter & R' & Hfc' & Hnm' & Hin' & _).
  - exists m'. split_and.
    + unfold roundtrip. rewrite Hser. cbn [bind ser_data ser_data_len].
      fold buf. unfold dynmessage_deserialize_bin. rewrite V.
      cbn [bind deref]. unfold BYTES_8, BYTES_4. unfold INT_MAX in *.
      unfold DYN_MSG_MIN_LEN in *.
      assert (Eb : buf = magic_only ++ Cerializer.serialize_int32 L
                         ++ Cerializer.serialize_int32 (strlen nm)
                         ++ bytes_of_string nm
                         ++ Cerializer.serialize_int32 (field_count m)
                         ++ frames sl vas).
      { unfold buf, hdr, frame_header. rewrite <- !app_assoc. reflexivity. }
      rewrite (read_int32_app buf
                 (magic_only ++ Cerializer.serialize_int32 L) (strlen nm)
                 (bytes_of_string nm
                  ++ Cerializer.serialize_int32 (field_count m)
                  ++ frames sl vas))
        by first [ rewrite Eb, <- ?app_assoc; reflexivity
                 | rewrite ?length_app, ?len32; cbn [length magic_only]; lia
                 | lia ].
      cbn [bind].
      rewrite (strslice_app buf
                 (magic_only ++ Cerializer.serialize_int32 L
                  ++ Cerializer.serialize_int32 (strlen nm))
                 (bytes_of_string nm)
                 (Cerializer.serialize_int32 (field_count m)
                  ++ frames sl vas))
        by first [ rewrite Eb, <- ?app_assoc; reflexivity
                 | rewrite ?length_app, ?len32; cbn [length magic_only]; lia
                 | lia ].
      cbn [bind]. rewrite (cstring_bytes nm Hpl).
      rewrite (read_int32_app buf
                 (magic_only ++ Cerializer.serialize_int32 L
                  ++ Cerializer.serialize_int32 (strlen nm)
                  ++ bytes_of_string nm)
                 (field_count m) (frames sl vas))
        by first [ rewrite Eb, <- ?app_assoc; reflexivity
                 | rewrite ?length_app, ?len32; cbn [length magic_only]; lia
                 | lia ].
      cbn [bind]. fold m0.
      replace (field_count m >? 0) with true
        by (symmetry; apply Z.gtb_lt; lia).
      replace (Z.to_nat (field_count m)) with (length sl) by lia.
      replace (8 + 4 + strlen nm + 4) with (Z.of_nat (length hdr)) by lia.
      rewrite Hiter. reflexivity.
    + exact R'.
    + rewrite Hnm'. reflexivity.
    + rewrite Hfc'. cbn [m0 dynmessage_init field_count]. lia.
    + rewrite G.
      replace (field_count m) with (field_count m')
        by (rewrite Hfc'; cbn [m0 dynmessage_init field_count]; lia).
      apply snapshot_determined.
      * apply reachable_inv. exact R'.
      * rewrite Hfc'. cbn [m0 dynmessage_init field_count]. lia.
      * exact Hs.
      * intros f Hf. rewrite Forall_forall in Csl.
        destruct (Csl f Hf) as [(n & Hname & _) _].
        exists n. split; [exact Hname|]. exact (Hin' f Hf n Hname).
Qed.

(** Two messages with the same list from [dynmessage_get_fields] hold
    the same fields. *)
Lemma same_snapshot_fields m m' :
  msg_inv m -> msg_inv m' ->
  dynmessage_get_fields m' = dynmessage_get_fields m ->
  Permutation (fields m') (fields m).
Proof.
  intros I I' E.
  destruct (snapshot m I) as (l & sl & G & _ & Hl & _ & P & _).
  destruct (snapshot m' I') as (l' & sl' & G' & _ & Hl' & _ & P' & _).
  assert (El : l' = l) by congruence. subst l'.
  assert (Es : sl' = sl).
  { assert (M : List.map Some sl' = List.map Some sl) by congruence.
    clear - M. revert sl M.
    induction sl' as [|x xs IH]; intros [|y ys] M; cbn in M;
      try discriminate; [reflexivity|].
    injection M as -> M. f_equal. exact (IH ys M). }
  subst sl'. rewrite <- P'. exact P.
Qed.

End RoundTrip.

(** * Further properties of the code *)

(** ** slinkedlist.c *)

Section ListProperties.

Import Slinkedlist.
Import SlinkedlistTheory.

(** X1.  Appending the elements of [xs] one after the other to a list
    just created never fails and leaves a list that holds [xs] in the
    order of the calls, [size] their number and [tail] the last node;
    [slinkedlist_to_array] of it is [NULL] when [xs] is empty and else
    an array of exactly these elements in that order. *)
Theorem append_keeps_order {A : Type} (xs : list A) :
  exists l,
    appended xs = Ok l /\ nodes l = xs /\
    size l = Z.of_nat (length xs) /\
    tail l = match xs with [] => Null | _ :: _ => Node (length xs - 1) end /\
    slinkedlist_to_array l
    = Ok (match xs with [] => None | _ :: _ => Some (List.map Some xs) end).
Proof.
  destruct (appended_proper xs) as (l & E & N & P).
  exists l. pose proof (proper_to_array l P) as T.
  destruct P as [Hs Ht]. rewrite N in *. auto.
Qed.

(** X2.  [slinkedlist_prepend] puts the element in front and counts it
    but never writes [tail]: on a list with nodes the list stays
    consistent, and on an empty list [tail] stays [NULL], so that the
    next [slinkedlist_append] dereferences [NULL]. *)
Theorem prepend_leaves_tail {A : Type} (l : slinkedlist A) (x : A) :
  proper l ->
  nodes (slinkedlist_prepend l x) = x :: nodes l /\
  size (slinkedlist_prepend l x) = size l + 1 /\
  (nodes l <> [] -> proper (slinkedlist_prepend l x)) /\
  (nodes l = [] ->
   tail (slinkedlist_prepend l x) = Null /\
   forall y, slinkedlist_append (slinkedlist_prepend l x) y
             = Undef NullDeref).
Proof.
  destruct l as [ns sz tl]. intros [Hs Ht]. cbn [nodes size tail] in Hs, Ht.
  unfold slinkedlist_prepend, proper. cbn [nodes size tail].
  split; [reflexivity|]. split; [reflexivity|]. split.
  - intros Hne. destruct ns as [|d rest]; [congruence|]. subst tl sz.
    cbn [length]. split; [lia|]. f_equal. lia.
  - intros ->. subst tl. split; [reflexivity|]. intros y. reflexivity.
Qed.

Lemma prepend_leaves_tail_witness :
  nodes (slinkedlist_prepend (A := Z) slinkedlist_create 7) = [7] /\
  size (slinkedlist_prepend (A := Z) slinkedlist_create 7) = 0 + 1 /\
  (nodes (A := Z) slinkedlist_create <> [] ->
   proper (slinkedlist_prepend (A := Z) slinkedlist_create 7)) /\
  (nodes (A := Z) slinkedlist_create = [] ->
   tail (slinkedlist_prepend (A := Z) slinkedlist_create 7) = Null /\
   forall y, slinkedlist_append (slinkedlist_prepend slinkedlist_create 7) y
             = Undef NullDeref).
Proof.
  apply (prepend_leaves_tail (A := Z) slinkedlist_create 7).
  split; reflexivity.
Defined.

(** X3.  On a consistent list [slinkedlist_delete_head] returns the
    data of the first node ([NULL] when there is none) and leaves the
    other nodes, in their order, in a consistent list. *)
Theorem delete_head_pops_first {A : Type} (l : slinkedlist A) :
  proper l ->
  exists l',
    slinkedlist_delete_head l = Ok (hd_error (nodes l), l') /\
    nodes l' = List.tl (nodes l) /\ proper l'.
Proof. apply proper_delete_head. Qed.

Lemma delete_head_pops_first_witness :
  exists l',
    slinkedlist_delete_head sample_list = Ok (Some 1, l') /\
    nodes l' = [2; 3] /\ proper l'.
Proof.
  apply (delete_head_pops_first sample_list). split; reflexivity.
Defined.

(** X4.  On a consistent list [slinkedlist_delete_tail] returns the
    data of the last node ([NULL] when there is none) and leaves the
    nodes before it, with [tail] on the new last node. *)
Theorem delete_tail_pops_last {A : Type} (l : slinkedlist A) :
  proper l ->
  exists l',
    slinkedlist_delete_tail l
    = Ok (match nodes l with
          | [] => None
          | d :: rest => Some (last rest d)
          end, l') /\
    nodes l' = removelast (nodes l) /\ proper l'.
Proof. apply proper_delete_tail. Qed.

Lemma delete_tail_pops_last_witness :
  exists l',
    slinkedlist_delete_tail sample_list = Ok (Some 3, l') /\
    nodes l' = [1; 2] /\ proper l'.
Proof.
  apply (delete_tail_pops_last sample_list). split; reflexivity.
Defined.

(** X5.  On a consistent list [slinkedlist_reverse] reverses the order
    of the nodes, keeps the list consistent ([tail] is the old head),
    and done twice gives the list back. *)
Theorem reverse_twice_is_identity {A : Type} (l : slinkedlist A) :
  proper l ->
  nodes (slinkedlist_reverse l) = rev (nodes l) /\
  size (slinkedlist_reverse l) = size l /\
  proper (slinkedlist_reverse l) /\
  slinkedlist_reverse (slinkedlist_reverse l) = l.
Proof.
  intros P. destruct (proper_reverse l P) as (N & P' & R).
  split; [exact N|]. split; [|split; assumption].
  unfold slinkedlist_reverse. destruct (slinkedlist_empty l); reflexivity.
Qed.

Lemma reverse_twice_is_identity_witness :
  nodes (slinkedlist_reverse sample_list) = [3; 2; 1] /\
  size (slinkedlist_reverse sample_list) = 3 /\
  proper (slinkedlist_reverse sample_list) /\
  slinkedlist_reverse (slinkedlist_reverse sample_list) = sample_list.
Proof.
  apply (reverse_twice_is_identity sample_list). split; reflexivity.
Defined.

(** X6.  With references compared by [eqb], on a consistent list
    [slinkedlist_contains] answers 1 exactly for the data of a node,
    and [slinkedlist_delete_data] returns 1 and unlinks the first node
    that holds the data, or returns 0 and changes nothing when no node
    holds it; the list stays consistent. *)
Theorem delete_data_unlinks_first_match {A : Type} (eqb : A -> A -> bool)
    (l : slinkedlist A) (x : A) :
  (forall a b, eqb a b = true <-> a = b) ->
  proper l ->
  (slinkedlist_contains eqb l x = 1 <-> In x (nodes l)) /\
  (slinkedlist_contains eqb l x = 0 <-> ~ In x (nodes l)) /\
  exists r l',
    slinkedlist_delete_data eqb l x = Ok (r, l') /\ proper l' /\
    ((r = 1 /\ exists before after,
        nodes l = before ++ x :: after /\ ~ In x before /\
        nodes l' = before ++ after)
     \/ (r = 0 /\ ~ In x (nodes l) /\ l' = l)).
Proof.
  intros Heq P. pose proof (proper_contains eqb Heq l x P) as C.
  split; [exact C|]. split; [|exact (proper_delete_data eqb Heq l x P)].
  rewrite <- C. unfold slinkedlist_contains.
  destruct (slinkedlist_empty l); [split; [discriminate | reflexivity]|].
  destruct (existsb _ _); split; intros H; try reflexivity;
    try discriminate; exfalso; apply H; reflexivity.
Qed.

Lemma delete_data_unlinks_first_match_witness :
  (slinkedlist_contains Z.eqb sample_list 2 = 1 <-> In 2 (nodes sample_list)) /\
  (slinkedlist_contains Z.eqb sample_list 2 = 0
   <-> ~ In 2 (nodes sample_list)) /\
  exists r l',
    slinkedlist_delete_data Z.eqb sample_list 2 = Ok (r, l') /\ proper l' /\
    ((r = 1 /\ exists before after,
        nodes sample_list = before ++ 2 :: after /\ ~ In 2 before /\
        nodes l' = before ++ after)
     \/ (r = 0 /\ ~ In 2 (nodes sample_list) /\ l' = sample_list)).
Proof.
  apply (delete_data_unlinks_first_match Z.eqb sample_list 2).
  - exact Z.eqb_eq.
  - split; reflexivity.
Defined.

End ListProperties.

(** ** hashmap.c *)

Section MapProperties.

Import Hashmap.
Import HashmapTheory.
Import HashmapLaws.

Lemma sample_map_wf : wf sample_map.
Proof.
  pose proof (init_laws string_word blank_map 4 test_string_equal None) as L.
  destruct L as (W & _).
  - unfold INT_MAX. lia.
  - exact test_string_equal_eq.
  - exact W.
Qed.

Lemma sample_map_entries : entries sample_map = [].
Proof.
  pose proof (init_laws string_word blank_map 4 test_string_equal None) as L.
  destruct L as (_ & E & _).
  - unfold INT_MAX. lia.
  - exact test_string_equal_eq.
  - exact E.
Qed.

Lemma put_or_wf h k v : wf h -> wf (put_or h k v).
Proof.
  intros W. unfold put_or.
  destruct (put_laws h k v W) as (h' & E & W' & _). rewrite E. exact W'.
Qed.

Lemma sample_map2_wf : wf sample_map2.
Proof. unfold sample_map2. do 2 apply put_or_wf. exact sample_map_wf. Qed.

(** X7.  On a well-formed map [hashmap_put] returns, leaves a
    well-formed map in which [hashmap_get] of the key gives the value
    just put, and changes the answer of [hashmap_get] for no other
    key. *)
Theorem put_then_get {K V : Type} (h : hashmap K V) (k : K) (v : V) :
  wf h ->
  exists h',
    hashmap_put h k v = Some h' /\ wf h' /\
    hashmap_get h' k = Some v /\
    hashmap_contains_key h' k = true /\
    forall k', k' <> k ->
      hashmap_get h' k' = hashmap_get h k' /\
      hashmap_contains_key h' k' = hashmap_contains_key h k'.
Proof.
  intros W. destruct (put_laws h k v W) as (h' & E & W' & G & O & _ & P).
  exists h'. split_and; auto.
  - apply (contains_get h' k W'). eauto.
  - intros k' Hne. split; [exact (O k' Hne)|].
    apply eq_true_iff_eq.
    rewrite (contains_get h' k' W'), (contains_get h k' W), (O k' Hne).
    reflexivity.
Qed.

Lemma put_then_get_witness :
  exists h',
    hashmap_put sample_map "a"%string 1 = Some h' /\ wf h' /\
    hashmap_get h' "a"%string = Some 1 /\
    hashmap_contains_key h' "a"%string = true /\
    forall k', k' <> "a"%string ->
      hashmap_get h' k' = hashmap_get sample_map k' /\
      hashmap_contains_key h' k' = hashmap_contains_key sample_map k'.
Proof.
  apply (put_then_get sample_map "a"%string 1). exact sample_map_wf.
Defined.

(** X8.  [hashmap_put] counts a key once: [size] grows by one for a
    key the map did not hold and stays for a key it held, and the keys
    of the result are those of the map plus the key put.  The table is
    doubled only for a new key that [hashmap_rehash_required] reports,
    which needs [size] to equal [capacity]; in every other case the
    capacity stays. *)
Theorem put_counts_key_once {K V : Type} (h : hashmap K V) (k : K) (v : V) :
  wf h ->
  exists h',
    hashmap_put h k v = Some h' /\
    size h' = (if hashmap_contains_key h k then size h else size h + 1) /\
    Permutation (keys h')
      (if hashmap_contains_key h k then keys h else k :: keys h) /\
    capacity h'
    = (if hashmap_contains_key h k then capacity h
       else if hashmap_rehash_required h k =? 0 then capacity h
            else 2 * capacity h) /\
    (capacity h <> size h -> capacity h' = capacity h).
Proof.
  intros W. destruct (put_laws h k v W) as (h' & E & W' & _ & _ & S & P).
  pose proof (put_capacity h k v h' W E) as C.
  exists h'. split_and; auto.
  intros Hne. rewrite C, (rehash_required_zero h k Hne).
  destruct (hashmap_contains_key h k); reflexivity.
Qed.

Lemma put_counts_key_once_witness :
  exists h',
    hashmap_put sample_map2 "a"%string 5 = Some h' /\
    size h'
    = (if hashmap_contains_key sample_map2 "a"%string
       then size sample_map2 else size sample_map2 + 1) /\
    Permutation (keys h')
      (if hashmap_contains_key sample_map2 "a"%string
       then keys sample_map2 else "a"%string :: keys sample_map2) /\
    capacity h'
    = (if hashmap_contains_key sample_map2 "a"%string
       then capacity sample_map2
       else if hashmap_rehash_required sample_map2 "a"%string =? 0
            then capacity sample_map2
            else 2 * capacity sample_map2) /\
    (capacity sample_map2 <> size sample_map2 ->
     capacity h' = capacity sample_map2).
Proof.
  apply (put_counts_key_once sample_map2 "a"%string 5). exact sample_map2_wf.
Defined.

(** X9.  [hashmap_init] with a capacity that is positive as an [int]
    and a key comparison that decides equality gives a well-formed map
    of that capacity that holds nothing: it is empty, no key is found
    in it, and [hashmap_keys], [hashmap_values] and [hashmap_entries]
    return [NULL]. *)
Theorem init_gives_empty_map {K V : Type} (deref : K -> Z)
    (h0 : hashmap K V) (c : Z) (eqb : K -> K -> bool)
    (hash : option (K -> Z)) :
  0 < c <= INT_MAX ->
  (forall k1 k2, eqb k1 k2 = true <-> k1 = k2) ->
  let h := hashmap_init deref h0 c (Some eqb) hash in
  wf h /\ capacity h = c /\ size h = 0 /\
  hashmap_empty h = true /\ hashmap_keys h = None /\
  hashmap_values h = None /\ hashmap_entries h = None /\
  forall k, hashmap_get h k = None /\ hashmap_contains_key h k = false.
Proof.
  intros Hc Heq h.
  destruct (init_laws deref h0 c eqb hash Hc Heq) as (W & E & C & S).
  fold h in W, E, C, S.
  destruct (empty_laws h W E) as (H1 & H2 & H3 & H4 & H5).
  split_and; auto.
Qed.

Lemma init_gives_empty_map_witness :
  wf sample_map /\ capacity sample_map = 4 /\ size sample_map = 0 /\
  hashmap_empty sample_map = true /\ hashmap_keys sample_map = None /\
  hashmap_values sample_map = None /\ hashmap_entries sample_map = None /\
  forall k, hashmap_get sample_map k = None /\
            hashmap_contains_key sample_map k = false.
Proof.
  apply (init_gives_empty_map string_word blank_map 4 test_string_equal None).
  - unfold INT_MAX. lia.
  - exact test_string_equal_eq.
Defined.

(** X10.  [hashmap_clear] of a well-formed map leaves a well-formed
    map of the same capacity that holds nothing. *)
Theorem clear_empties_map {K V : Type} (h : hashmap K V) :
  wf h ->
  wf (hashmap_clear h) /\
  capacity (hashmap_clear h) = capacity h /\
  size (hashmap_clear h) = 0 /\
  hashmap_keys (hashmap_clear h) = None /\
  forall k, hashmap_get (hashmap_clear h) k = None /\
            hashmap_contains_key (hashmap_clear h) k = false.
Proof.
  intros W. destruct (clear_laws h W) as (W' & E & C).
  destruct (empty_laws _ W' E) as (_ & H2 & _ & _ & H5).
  split_and; auto.
Qed.

Lemma clear_empties_map_witness :
  wf (hashmap_clear sample_map2) /\
  capacity (hashmap_clear sample_map2) = capacity sample_map2 /\
  size (hashmap_clear sample_map2) = 0 /\
  hashmap_keys (hashmap_clear sample_map2) = None /\
  forall k, hashmap_get (hashmap_clear sample_map2) k = None /\
            hashmap_contains_key (hashmap_clear sample_map2) k = false.
Proof. apply (clear_empties_map sample_map2). exact sample_map2_wf. Defined.

(** X11.  On a well-formed map that is not empty, [hashmap_keys],
    [hashmap_values] and [hashmap_entries] list the same entries in
    the same order; the list has [size] elements, no key occurs twice
    in it, a key is listed exactly when [hashmap_contains_key] finds
    it, and an entry is listed exactly when [hashmap_get] of its key
    gives its value.  On an empty map all three return [NULL]. *)
Theorem listings_enumerate_map {K V : Type} (h : hashmap K V) :
  wf h ->
  (size h = 0 ->
   hashmap_keys h = None /\ hashmap_values h = None /\
   hashmap_entries h = None) /\
  (size h <> 0 ->
   exists es,
     hashmap_entries h = Some es /\
     hashmap_keys h = Some (List.map key es) /\
     hashmap_values h = Some (List.map value es) /\
     Z.of_nat (length es) = size h /\
     NoDup (List.map key es) /\
     (forall k, In k (List.map key es) <-> hashmap_contains_key h k = true) /\
     (forall e, In e es <-> hashmap_get h (key e) = Some (value e))).
Proof.
  intros W.
  destruct (listing_laws h W) as (Hk & Hv & He & Hl & Hn & Hc & Hg).
  rewrite Hk, Hv, He. split.
  - intros ->. auto.
  - intros Hne. apply Z.eqb_neq in Hne. rewrite Hne.
    exists (entries h). unfold keys in *. rewrite length_map in Hl.
    split_and; auto.
Qed.

Lemma listings_enumerate_map_witness :
  (size sample_map2 = 0 ->
   hashmap_keys sample_map2 = None /\ hashmap_values sample_map2 = None /\
   hashmap_entries sample_map2 = None) /\
  (size sample_map2 <> 0 ->
   exists es,
     hashmap_entries sample_map2 = Some es /\
     hashmap_keys sample_map2 = Some (List.map key es) /\
     hashmap_values sample_map2 = Some (List.map value es) /\
     Z.of_nat (length es) = size sample_map2 /\
     NoDup (List.map key es) /\
     (forall k, In k (List.map key es)
                <-> hashmap_contains_key sample_map2 k = true) /\
     (forall e, In e es
                <-> hashmap_get sample_map2 (key e) = Some (value e))).
Proof. apply (listings_enumerate_map sample_map2). exact sample_map2_wf. Defined.

(** X12.  [hashmap_remove] of a key a well-formed map holds returns
    the entry of that key, with the value [hashmap_get] gave, and
    leaves a well-formed map with one entry less in which the key is no
    longer found and every other key is found as before. *)
Theorem remove_takes_entry_out {K V : Type} (h : hashmap K V) (k : K) :
  wf h -> hashmap_contains_key h k = true ->
  exists e h',
    hashmap_remove h k = Ok (Some e, h') /\
    key e = k /\ hashmap_get h k = Some (value e) /\
    wf h' /\ size h' = size h - 1 /\
    hashmap_get h' k = None /\ hashmap_contains_key h' k = false /\
    forall k', k' <> k -> hashmap_get h' k' = hashmap_get h k'.
Proof.
  intros W C.
  destruct (remove_present h k W C)
    as (e & h' & R & Hk & G & W' & G' & C' & O & S).
  exists e, h'. split_and; auto.
Qed.

Lemma remove_takes_entry_out_witness :
  exists e h',
    hashmap_remove sample_map2 "a"%string = Ok (Some e, h') /\
    key e = "a"%string /\
    hashmap_get sample_map2 "a"%string = Some (value e) /\
    wf h' /\ size h' = size sample_map2 - 1 /\
    hashmap_get h' "a"%string = None /\
    hashmap_contains_key h' "a"%string = false /\
    forall k', k' <> "a"%string ->
      hashmap_get h' k' = hashmap_get sample_map2 k'.
Proof.
  apply (remove_takes_entry_out sample_map2 "a"%string).
  - exact sample_map2_wf.
  - vm_compute. reflexivity.
Defined.

(** X13.  [hashmap_remove] of a key a well-formed map does not hold
    returns [NULL] and leaves the map as it is, except when the bucket
    of the key is a list that earlier removals have emptied and the map
    still holds other entries: then the head of that list, which is
    [NULL], is dereferenced. *)
Theorem remove_of_absent_key {K V : Type} (h : hashmap K V) (k : K) :
  wf h -> hashmap_contains_key h k = false ->
  match table_at h (hash_func h k mod capacity h) with
  | Some [] =>
      hashmap_remove h k
      = (if hashmap_empty h then Ok (None, h) else Undef NullDeref)
  | _ => hashmap_remove h k = Ok (None, h)
  end.
Proof. apply remove_absent. Qed.

Lemma remove_of_absent_key_witness :
  match table_at sample_map2
          (hash_func sample_map2 "c"%string mod capacity sample_map2) with
  | Some [] =>
      hashmap_remove sample_map2 "c"%string
      = (if hashmap_empty sample_map2 then Ok (None, sample_map2)
         else Undef NullDeref)
  | _ => hashmap_remove sample_map2 "c"%string = Ok (None, sample_map2)
  end.
Proof.
  apply (remove_of_absent_key sample_map2 "c"%string).
  - exact sample_map2_wf.
  - vm_compute. reflexivity.
Defined.

(** X14.  Removing the only key of a bucket leaves the emptied list in
    the table; when the map still holds another entry, removing the
    same key once more dereferences the [NULL] head of that list. *)
Theorem remove_twice_faults {K V : Type} (h : hashmap K V) (k : K)
    (e : hashmap_entry K V) :
  wf h ->
  table_at h (hash_func h k mod capacity h) = Some [e] ->
  key e = k -> 1 < size h ->
  exists h',
    hashmap_remove h k = Ok (Some e, h') /\
    hashmap_remove h' k = Undef NullDeref.
Proof.
  intros W Hs Hk Hsz.
  assert (Hne : hashmap_empty h = false)
    by (unfold hashmap_empty; apply Z.eqb_neq; lia).
  assert (Heq : key_equal h (key e) k = true) by (apply (wf_eq h W), Hk).
  pose proof (offset_range h k (wf_cap h W)) as Ho.
  set (o := hash_func h k mod capacity h) in *.
  exists (set_size (set_table_at h o (Some [])) (size h - 1)). split.
  - unfold hashmap_remove. rewrite Hne. fold o. rewrite Hs.
    cbn [unlink_entry]. rewrite Heq. reflexivity.
  - unfold hashmap_remove, hashmap_empty.
    cbn [size set_size set_table_at hash_func capacity].
    replace (size h - 1 =? 0) with false by (symmetry; apply Z.eqb_neq; lia).
    fold o. unfold table_at. cbn [table set_size set_table_at].
    rewrite nth_set_nth by (rewrite (wf_len h W); lia).
    rewrite Nat.eqb_refl. reflexivity.
Qed.

Lemma remove_twice_faults_witness :
  exists h',
    hashmap_remove sample_map2 "a"%string
    = Ok (Some {| key := "a"%string; value := 1 |}, h') /\
    hashmap_remove h' "a"%string = Undef NullDeref.
Proof.
  apply (remove_twice_faults sample_map2 "a"%string
           {| key := "a"%string; value := 1 |}).
  - exact sample_map2_wf.
  - vm_compute. reflexivity.
  - reflexivity.
  - vm_compute. reflexivity.
Defined.

End MapProperties.

(** ** dynmessage.c *)

Section MessageProperties.

Import Hashmap.
Import HashmapTheory.
Import Dynmessage.
Import DynmessageCerializer.
Import DynmessageLaws.
Import CodecLaws.
Import FrameLaws.

Lemma names_stored m n :
  msg_inv m ->
  (In (Some n) (List.map name (fields m)) <-> In n (List.map key (stored m))).
Proof.
  intros I. rewrite (fields_stored m I), !in_map_iff. split.
  - intros (f & Hn & Hf). apply in_map_iff in Hf.
    destruct Hf as (e & <- & He). exists e. split; [|exact He].
    destruct (inv_field m I e He) as (N & _). congruence.
  - intros (e & <- & He). exists (Hashmap.value e).
    split; [apply (inv_field m I e He) | now apply in_map].
Qed.

(** X15.  In a message built by the public operations under
    word-sized names, and for a word-sized name (seven characters or
    more, which [default_hash_func] reads within the string):
    [dynmessage_get_field] of a name no field has fills the descriptor
    with a [NULL] name, [NO_TYPE], a [NULL] value and [seq] -1, and of
    the name of a field it gives that field, whose [seq] is between 1
    and [field_count]; so for these names [seq] is -1 exactly when the
    message does not hold the name. *)
Theorem get_field_of_absent_name (m : dynamicmessage) (n : string) :
  built m -> word_sized n ->
  (~ In (Some n) (List.map name (fields m)) ->
   dynmessage_get_field m (Some n)
   = {| name := None; type := NO_TYPE; value := None; seq := -1 |}) /\
  (In (Some n) (List.map name (fields m)) ->
   In (dynmessage_get_field m (Some n)) (fields m) /\
   name (dynmessage_get_field m (Some n)) = Some n /\
   1 <= seq (dynmessage_get_field m (Some n)) <= field_count m) /\
  (seq (dynmessage_get_field m (Some n)) = -1
   <-> ~ In (Some n) (List.map name (fields m))).
Proof.
  intros B _. pose proof (reachable_inv m (built_reachable m B)) as I.
  assert (A : ~ In (Some n) (List.map name (fields m)) ->
              dynmessage_get_field m (Some n)
              = {| name := None; type := NO_TYPE; value := None; seq := -1 |}).
  { intros H. apply get_field_absent; [exact I|].
    intros C. apply H. now apply names_stored. }
  assert (P : In (Some n) (List.map name (fields m)) ->
              In (dynmessage_get_field m (Some n)) (fields m) /\
              name (dynmessage_get_field m (Some n)) = Some n /\
              1 <= seq (dynmessage_get_field m (Some n)) <= field_count m).
  { intros H. apply (names_stored m n I) in H.
    destruct (get_field_present m n I H) as (f & -> & Hf & Hn & Hs). auto. }
  split; [exact A|]. split; [exact P|]. split.
  - intros Hs C. apply P in C. lia.
  - intros H. rewrite (A H). reflexivity.
Qed.

Lemma sized_message_fields :
  fields sized_message
  = [ {| name := Some "altitude"%string; type := UNSIGNED_INT16_TYPE;
         value := Some (uint16_value 300); seq := 2 |};
      {| name := Some "callsign"%string; type := STRING_TYPE;
         value := Some (string_value "kestrel"); seq := 3 |};
      {| name := Some "velocity"%string; type := INT32_TYPE;
         value := Some (int32_value 7); seq := 1 |} ].
Proof. vm_compute. reflexivity. Qed.

Lemma get_field_of_absent_name_witness :
  dynmessage_get_field sized_message (Some "airspeed"%string)
  = {| name := None; type := NO_TYPE; value := None; seq := -1 |} /\
  (In (dynmessage_get_field sized_message (Some "altitude"%string))
      (fields sized_message) /\
   name (dynmessage_get_field sized_message (Some "altitude"%string))
   = Some "altitude"%string /\
   1 <= seq (dynmessage_get_field sized_message (Some "altitude"%string))
     <= field_count sized_message) /\
  (seq (dynmessage_get_field sized_message (Some "airspeed"%string)) = -1
   <-> ~ In (Some "airspeed"%string)
          (List.map name (fields sized_message))).
Proof.
  assert (W1 : word_sized "airspeed") by (unfold word_sized; cbn; lia).
  assert (W2 : word_sized "altitude") by (unfold word_sized; cbn; lia).
  destruct (get_field_of_absent_name sized_message "airspeed"%string
              sized_message_built W1) as (A1 & _ & E1).
  destruct (get_field_of_absent_name sized_message "altitude"%string
              sized_message_built W2) as (_ & P2 & _).
  split; [|split; [|exact E1]].
  - apply A1. rewrite sized_message_fields. cbn [List.map name In].
    intros [C | [C | [C | []]]]; discriminate C.
  - apply P2. rewrite sized_message_fields. cbn [List.map name In].
    left. reflexivity.
Defined.

(** X16.  On a message built under word-sized names,
    [dynmessage_put_field_and_value] with a word-sized name the message
    does not hold, a type in the valid range and an object the type can
    read (and room left in [field_count]) returns; the message then
    holds a field of that name and type with the value read and with
    [seq] = the old [field_count] + 1, [field_count] is one more, and
    the name of the message and what [dynmessage_get_field] gives for
    every other word-sized name are as before. *)
Theorem put_adds_new_field (m : dynamicmessage)
    (h : hashmap string dyn_field) (n : string) (ty : dyn_field_type)
    (obj : c_object) (nv : dyn_field_value) :
  built m ->
  word_sized n ->
  fields_info m = Some h ->
  hashmap_contains_key h n = false ->
  valid_type ty ->
  field_count m < INT_MAX ->
  read_value ty obj no_value = Ok nv ->
  exists m',
    dynmessage_put_field_and_value m (Some n) ty (Some obj) = Ok m' /\
    built m' /\
    dynmessage_get_field m' (Some n)
    = {| name := Some n; type := ty; value := Some nv;
         seq := field_count m + 1 |} /\
    field_count m' = field_count m + 1 /\
    message_name m' = message_name m /\
    (forall n', word_sized n' -> n' <> n ->
       dynmessage_get_field m' (Some n') = dynmessage_get_field m (Some n')).
Proof.
  intros B Hn Hm Hc Hty Hlt Hread.
  pose proof (built_reachable m B) as R.
  destruct (put_new_field m h n ty obj nv (reachable_inv m R) Hm Hc Hty Hlt
              Hread) as (m' & P & G & C & N & O).
  exists m'. split_and; auto.
  exact (built_put m m' n ty (Some obj) B Hn P).
Qed.

Lemma put_adds_new_field_witness :
  exists m',
    dynmessage_put_field_and_value sized_message (Some "airspeed"%string)
      ENUMERATION_TYPE (Some (Obj_int 4 5)) = Ok m' /\
    built m' /\
    dynmessage_get_field m' (Some "airspeed"%string)
    = {| name := Some "airspeed"%string; type := ENUMERATION_TYPE;
         value := Some (enum_value 5);
         seq := field_count sized_message + 1 |} /\
    field_count m' = field_count sized_message + 1 /\
    message_name m' = message_name sized_message /\
    (forall n', word_sized n' -> n' <> "airspeed"%string ->
       dynmessage_get_field m' (Some n')
       = dynmessage_get_field sized_message (Some n')).
Proof.
  apply (put_adds_new_field sized_message sized_table "airspeed"%string
           ENUMERATION_TYPE (Obj_int 4 5) (enum_value 5)).
  - exact sized_message_built.
  - unfold word_sized. cbn. lia.
  - exact sized_table_fields.
  - vm_compute. reflexivity.
  - unfold valid_type, ENUMERATION_TYPE, STRING_TYPE. lia.
  - vm_compute. reflexivity.
  - reflexivity.
Defined.

(** X17.  A message built by the public operations has a name, and the
    value of each of its fields is one that [update_field_value] read
    for the type of that very field; in particular a field of type
    [STRING_TYPE] holds a string, so the [string_value] member the
    serializer reads is the member that was written. *)
Theorem stored_values_fit_types (m : dynamicmessage) :
  reachable m ->
  (exists nm, message_name m = Some nm) /\
  forall f, In f (fields m) ->
    exists nv, value f = Some nv /\ storable (type f) nv /\
      (type f = STRING_TYPE ->
       exists s, nv = string_value s /\ string_member f = Ok s).
Proof.
  intros R. destruct (reachable_storable m R) as [N S].
  split; [exact N|]. intros f Hf. destruct (S f Hf) as (nv & Hv & Hs).
  exists nv. split_and; auto. intros Hty. rewrite Hty in Hs.
  destruct (storable_string nv Hs) as (s & ->). exists s.
  split; [reflexivity|]. unfold string_member. rewrite Hv. reflexivity.
Qed.

Lemma stored_values_fit_types_witness :
  (exists nm, message_name sample_message = Some nm) /\
  forall f, In f (fields sample_message) ->
    exists nv, value f = Some nv /\ storable (type f) nv /\
      (type f = STRING_TYPE ->
       exists s, nv = string_value s /\ string_member f = Ok s).
Proof.
  apply (stored_values_fit_types sample_message).
  exact sample_message_reachable.
Defined.

End MessageProperties.

(** ** cerializer.c *)

Section CodecProperties.

Import Cerializer.
Import CodecLaws.

(** X18.  For every argument, in range or not, the decoders give back
    what the encoders kept of it: the low 16, 32 or 64 bits, read as
    unsigned by the unsigned decoders and as two's complement by the
    signed ones.  The encoders write 2, 4 or 8 bytes, each in 0..255. *)
Theorem codec_keeps_low_bits (k : int_kind) (x : Z) :
  unpack k (pack k x)
  = (if kind_signed k then sext (kind_bits k) x else wrap (kind_bits k) x) /\
  Z.of_nat (length (pack k x)) * 8 = kind_bits k /\
  Forall is_byte (pack k x).
Proof.
  split; [apply unpack_pack_any|]. exact (pack_is_field k x).
Qed.

(** X19.  Encoding what a decoder read gives the bytes back: on a
    buffer of the width of the kind, with bytes in 0..255,
    [serialize_...] of [deserialize_...] of the buffer is the buffer. *)
Theorem encode_after_decode (k : int_kind) (buf : list Z) :
  is_field k buf -> pack k (unpack k buf) = buf.
Proof. apply pack_unpack_field. Qed.

Lemma encode_after_decode_witness :
  pack I16 (unpack I16 [0xFF; 0xFE]) = [0xFF; 0xFE].
Proof.
  apply (encode_after_decode I16 [0xFF; 0xFE]).
  split; [reflexivity|]. repeat constructor; unfold is_byte; lia.
Defined.

End CodecProperties.

(** ** dynmessage_cerializer.c *)

Section FrameProperties.

Import Dynmessage.
Import DynmessageCerializer.
Import DynmessageLaws.
Import CodecLaws.
Import FrameLaws.

(** X20.  On an input of at least [data_len] bytes
    [verify_full_dynmessage] answers, and accepts exactly when
    [data_len] is at least 4, the first four bytes are the magic
    constant and, if [data_len] is at least 8, the length field read
    as an [int] is at most [data_len].  [dynmessage_deserialize_bin]
    returns [NULL] exactly for the inputs that are not accepted, and
    for a [NULL] input. *)
Theorem decoder_gate (bytes : list Z) (data_len : Z) :
  Forall is_byte (firstn 8 bytes) ->
  data_len <= Z.of_nat (length bytes) ->
  exists b,
    verify_full_dynmessage (Some bytes) data_len = Ok b /\
    (b = true <-> frame_accepted bytes data_len) /\
    (dynmessage_deserialize_bin (Some bytes) data_len = Ok None
     <-> ~ frame_accepted bytes data_len) /\
    dynmessage_deserialize_bin None data_len = Ok None.
Proof.
  intros Hb Hl. destruct (verify_accepts bytes data_len Hb Hl) as (b & V & A).
  exists b. split; [exact V|]. split; [exact A|]. split; [|reflexivity].
  split.
  - intros D. destruct b.
    + exfalso. exact (verified_not_null _ _ V D).
    + intros C. apply A in C. discriminate.
  - intros N. unfold dynmessage_deserialize_bin. rewrite V.
    destruct b; [|reflexivity]. exfalso. apply N, A. reflexivity.
Qed.

Lemma decoder_gate_witness :
  exists b,
    verify_full_dynmessage (Some magic_only) 4 = Ok b /\
    (b = true <-> frame_accepted magic_only 4) /\
    (dynmessage_deserialize_bin (Some magic_only) 4 = Ok None
     <-> ~ frame_accepted magic_only 4) /\
    dynmessage_deserialize_bin None 4 = Ok None.
Proof.
  apply (decoder_gate magic_only 4).
  - repeat constructor; unfold is_byte; lia.
  - simpl. lia.
Defined.

Lemma decoded_sample_eq :
  dynmessage_deserialize_bin (Some unknown_type_frame) 72
  = Ok (Some decoded_sample).
Proof.
  unfold decoded_sample.
  destruct (dynmessage_deserialize_bin (Some unknown_type_frame) 72)
    as [[m|]|why] eqn:E; [reflexivity | |];
    assert (C : match dynmessage_deserialize_bin
                        (Some unknown_type_frame) 72 with
                | Ok (Some _) => true
                | _ => false
                end = true) by (vm_compute; reflexivity);
    rewrite E in C; discriminate.
Qed.

(** X21.  A message [dynmessage_deserialize_bin] returns whose fields
    have word-sized names is one the public operations build under
    word-sized names: after [dynmessage_init] the decoder changes it by
    [dynmessage_put_field_and_value] calls only, and every name these
    calls hash is the name of a field of the message returned.  So it
    has a name, every field of it is named, has a type in the valid
    range and a value read for that type, and [dynmessage_get_fields]
    lists its fields in the order of their [seq], 1 to
    [field_count]. *)
Theorem decoded_message_is_built (data : option (list Z)) (data_len : Z)
    (m : dynamicmessage) :
  dynmessage_deserialize_bin data data_len = Ok (Some m) ->
  (forall f n, In f (fields m) -> name f = Some n -> word_sized n) ->
  built m /\
  (exists nm, message_name m = Some nm) /\
  (forall f, In f (fields m) -> sound_field f) /\
  exists l sl,
    dynmessage_get_fields m = Ok l /\
    list_length l = field_count m /\
    list_ l = List.map Some sl /\
    Permutation sl (fields m) /\
    List.map seq sl = seq_range (Z.to_nat (field_count m)).
Proof.
  intros D Hw. pose proof (decoded_reachable data data_len m D) as R.
  split; [exact (reachable_names_built m R Hw)|].
  split; [apply (reachable_storable m R)|].
  split; [intros f Hf; exact (reachable_sound m f R Hf)|].
  destruct (snapshot m (reachable_inv m R))
    as (l & sl & G & Hlen & Hl & Hn & P & Hs).
  exists l, sl. split_and; auto.
  rewrite <- Hn, Nat2Z.id. exact (seq_in_order sl Hs).
Qed.

Lemma decoded_message_is_built_witness :
  built decoded_sample /\
  (exists nm, message_name decoded_sample = Some nm) /\
  (forall f, In f (fields decoded_sample) -> sound_field f) /\
  exists l sl,
    dynmessage_get_fields decoded_sample = Ok l /\
    list_length l = field_count decoded_sample /\
    list_ l = List.map Some sl /\
    Permutation sl (fields decoded_sample) /\
    List.map seq sl = seq_range (Z.to_nat (field_count decoded_sample)).
Proof.
  apply (decoded_message_is_built (Some unknown_type_frame) 72
           decoded_sample).
  - exact decoded_sample_eq.
  - assert (E : fields decoded_sample
                = [ {| name := Some "sequence"%string; type := INT32_TYPE;
                       value := Some (int32_value 7); seq := 1 |} ])
      by (vm_compute; reflexivity).
    intros f n Hf Hn. rewrite E in Hf. cbn [In] in Hf.
    destruct Hf as [<- | []]. cbn [name] in Hn.
    assert (En : "sequence"%string = n) by congruence.
    rewrite <- En. unfold word_sized. cbn. lia.
Defined.

(** X22.  For a message built by the public operations that has
    fields, [calc_dynmessage_serialized_len] returns
    16 + the length of the message name + for each field
    16 + the length of its name + [DYN_FIELD_TYPE_SER_SIZE[type]]
    (+ the length of the string for a [STRING_TYPE] field), as long as
    that sum fits an [int].  The table gives 4 for [ENUMERATION_TYPE],
    2 for the two 8-bit types, 4 for the two 16-bit types, 8 for the
    two 32-bit types, 4 for [INT64_TYPE], 8 for [UNSIGNED_INT64_TYPE]
    and 0 for the two floating-point types and for [STRING_TYPE]. *)
Theorem computed_length_formula (m : dynamicmessage) :
  reachable m -> 0 < field_count m ->
  code_serialized_len m <= INT_MAX ->
  calc_dynmessage_serialized_len m = Ok (code_serialized_len m) /\
  List.map (fun ty => nth (Z.to_nat ty) DYN_FIELD_TYPE_SER_SIZE 0)
    [ENUMERATION_TYPE; INT8_TYPE; UNSIGNED_INT8_TYPE; INT16_TYPE;
     UNSIGNED_INT16_TYPE; INT32_TYPE; UNSIGNED_INT32_TYPE; INT64_TYPE;
     UNSIGNED_INT64_TYPE; FLOAT32_TYPE; FLOAT64_TYPE; STRING_TYPE]
  = [4; 2; 2; 4; 4; 8; 8; 4; 8; 0; 0; 0].
Proof.
  intros R Hc Hb. split; [now apply calc_formula | reflexivity].
Qed.

Lemma computed_length_formula_witness :
  calc_dynmessage_serialized_len sample_message
  = Ok (code_serialized_len sample_message) /\
  List.map (fun ty => nth (Z.to_nat ty) DYN_FIELD_TYPE_SER_SIZE 0)
    [ENUMERATION_TYPE; INT8_TYPE; UNSIGNED_INT8_TYPE; INT16_TYPE;
     UNSIGNED_INT16_TYPE; INT32_TYPE; UNSIGNED_INT32_TYPE; INT64_TYPE;
     UNSIGNED_INT64_TYPE; FLOAT32_TYPE; FLOAT64_TYPE; STRING_TYPE]
  = [4; 2; 2; 4; 4; 8; 8; 4; 8; 0; 0; 0].
Proof.
  apply (computed_length_formula sample_message).
  - exact sample_message_reachable.
  - vm_compute. reflexivity.
  - vm_compute. intros C. discriminate C.
Defined.

Lemma sample_serdi_eq :
  dynmessage_serialize_bin zero_heap sample_message unset_serdi
  = Ok sample_serdi.
Proof. vm_compute. reflexivity. Qed.

(** X23.  Whatever [dynmessage_serialize_bin] emits passes the gate of
    the decoder: when it returns it has either left [serdi] as it was,
    or set [ser_data] to a buffer of exactly [ser_data_len] bytes,
    where [ser_data_len] is the length
    [calc_dynmessage_serialized_len] computed and exceeds 32, that
    starts with the magic constant followed by that length, and
    [verify_full_dynmessage] accepts the buffer. *)
Theorem emitted_frame_passes_gate (heap : nat -> Z) (m : dynamicmessage)
    (serdi serdi' : serialized_data_info) :
  dynmessage_serialize_bin heap m serdi = Ok serdi' ->
  serdi' = serdi \/
  exists buf,
    ser_data serdi' = Some buf /\
    Z.of_nat (length buf) = ser_data_len serdi' /\
    DYN_MSG_MIN_LEN < ser_data_len serdi' /\
    calc_dynmessage_serialized_len m = Ok (ser_data_len serdi') /\
    firstn 8 buf
    = magic_only ++ Cerializer.serialize_int32 (ser_data_len serdi') /\
    verify_full_dynmessage (Some buf) (ser_data_len serdi') = Ok true.
Proof. apply serialize_header. Qed.

Lemma emitted_frame_passes_gate_witness :
  sample_serdi = unset_serdi \/
  exists buf,
    ser_data sample_serdi = Some buf /\
    Z.of_nat (length buf) = ser_data_len sample_serdi /\
    DYN_MSG_MIN_LEN < ser_data_len sample_serdi /\
    calc_dynmessage_serialized_len sample_message
    = Ok (ser_data_len sample_serdi) /\
    firstn 8 buf
    = magic_only ++ Cerializer.serialize_int32 (ser_data_len sample_serdi) /\
    verify_full_dynmessage (Some buf) (ser_data_len sample_serdi) = Ok true.
Proof.
  apply (emitted_frame_passes_gate zero_heap sample_message unset_serdi
           sample_serdi).
  exact sample_serdi_eq.
Defined.

End FrameProperties.

(** ** dynmessage_cerializer.c: frames written and read back *)

Section RoundTripProperties.

Import Dynmessage.
Import DynmessageCerializer.
Import DynmessageLaws.
Import FrameLaws.
Import RoundTrip.

Lemma carried_sample_built : built carried_sample.
Proof.
  apply build_built; [|vm_compute; reflexivity].
  repeat constructor; unfold word_sized, strlen; cbn; lia.
Qed.

Lemma carried_sample_fields :
  forall f, In f (fields carried_sample) -> carried f.
Proof.
  assert (E : fields carried_sample
              = [ {| name := Some "kind_tag"%string; type := ENUMERATION_TYPE;
                     value := Some (enum_value 3); seq := 1 |};
                  {| name := Some "hostname"%string; type := STRING_TYPE;
                     value := Some (string_value "node"); seq := 3 |};
                  {| name := Some "port_num"%string;
                     type := UNSIGNED_INT16_TYPE;
                     value := Some (uint16_value 8080); seq := 2 |} ])
    by (vm_compute; reflexivity).
  intros f Hf. rewrite E in Hf. cbn [In] in Hf.
  destruct Hf as [<- | [<- | [<- | []]]]; unfold carried, plain;
    cbn [name value type]; (split; [eexists; split; [reflexivity|]|]);
    try (split; [reflexivity|]); try lia;
    cbn; repeat constructor; lia.
Qed.

(** X24.  A message built by the public operations under word-sized
    names whose name has no NUL and whose fields are all carried (types
    [ENUMERATION_TYPE], [UNSIGNED_INT16_TYPE], [INT32_TYPE],
    [UNSIGNED_INT32_TYPE], [UNSIGNED_INT64_TYPE], [STRING_TYPE], values
    within the width written, names and strings without NUL), with at
    least one field and a computed length above 32 that fits an [int],
    comes back from its frame whatever the allocated block held:
    [dynmessage_serialize_bin] emits a frame, and
    [dynmessage_deserialize_bin] of that frame returns a message, built
    under word-sized names as well, with the same name, the same
    [field_count] and the same list of fields (name, type, value,
    [seq]) from [dynmessage_get_fields]. *)
Theorem carried_message_round_trip (heap : nat -> Z) (m : dynamicmessage)
    (nm : string) :
  built m -> message_name m = Some nm -> plain nm ->
  (forall f, In f (fields m) -> carried f) ->
  0 < field_count m ->
  DYN_MSG_MIN_LEN < code_serialized_len m <= INT_MAX ->
  exists m',
    roundtrip heap m = Ok (Some m') /\
    built m' /\
    message_name m' = Some nm /\
    field_count m' = field_count m /\
    dynmessage_get_fields m' = dynmessage_get_fields m.
Proof.
  intros B Hnm Hpl Hc Hk Hlen. pose proof (built_reachable m B) as R.
  destruct (roundtrip_carried heap m nm R Hnm Hpl Hc Hk Hlen)
    as (m' & Hrt & R' & Hnm' & Hfc & Hg).
  exists m'. split_and; auto.
  apply (reachable_names_built m' R'). intros f n Hf Hn.
  apply (built_names m B f n); [|exact Hn].
  apply (Permutation_in f
           (same_snapshot_fields m m' (reachable_inv m R)
              (reachable_inv m' R') Hg)).
  exact Hf.
Qed.

Lemma carried_message_round_trip_witness :
  exists m',
    roundtrip stale_heap carried_sample = Ok (Some m') /\
    built m' /\
    message_name m' = Some "hello"%string /\
    field_count m' = field_count carried_sample /\
    dynmessage_get_fields m' = dynmessage_get_fields carried_sample.
Proof.
  apply (carried_message_round_trip stale_heap carried_sample
           "hello"%string).
  - exact carried_sample_built.
  - vm_compute. reflexivity.
  - unfold plain. cbn. repeat constructor; lia.
  - exact carried_sample_fields.
  - vm_compute. reflexivity.
  - split.
    + vm_compute. reflexivity.
    + vm_compute. intros C. discriminate C.
Defined.

(** X25.  The frame [dynmessage_serialize_bin] emits for such a
    message is laid out as follows: the magic constant, the total
    length, the length of the message name, the name, [field_count],
    and then for each field in the order of its [seq], 1 to
    [field_count], the length of the sub-frame, the length of the field
    name, the name, the type ordinal, the size of the value area and
    the value area.  The value area has [DYN_FIELD_TYPE_SER_SIZE[type]]
    bytes (the length of the string on top for [STRING_TYPE]); it
    starts with the bytes of the value, and the bytes after them are
    those the allocated block held at these places. *)
Theorem emitted_frame_layout (heap : nat -> Z) (m : dynamicmessage)
    (serdi : serialized_data_info) (nm : string) :
  built m -> message_name m = Some nm ->
  (forall f, In f (fields m) -> carried f) ->
  0 < field_count m ->
  DYN_MSG_MIN_LEN < code_serialized_len m <= INT_MAX ->
  exists sl,
    dynmessage_get_fields m
    = Ok {| list_ := List.map Some sl; list_length := field_count m |} /\
    Permutation sl (fields m) /\
    List.map seq sl = seq_range (Z.to_nat (field_count m)) /\
    let block := malloc_bytes heap (code_serialized_len m) in
    let vas := areas_in (skipn (Z.to_nat (16 + strlen nm)) block) sl in
    Forall2 value_area sl vas /\
    dynmessage_serialize_bin heap m serdi
    = Ok {| ser_data :=
              Some (frame_header nm (field_count m) (code_serialized_len m)
                    ++ frames sl vas);
            ser_data_len := code_serialized_len m |}.
Proof.
  intros B Hnm Hc Hk Hlen.
  destruct (serialize_frames heap m serdi nm (built_reachable m B) Hnm Hc Hk
              Hlen)
    as (sl & vas & G & P & Hn & Hs & Hvas & Hser & Evas).
  exists sl. split; [exact G|]. split; [exact P|]. split.
  - rewrite <- Hn, Nat2Z.id. exact (seq_in_order sl Hs).
  - cbv zeta. rewrite <- Evas. split; [exact Hvas | exact Hser].
Qed.

Lemma emitted_frame_layout_witness :
  exists sl,
    dynmessage_get_fields carried_sample
    = Ok {| list_ := List.map Some sl;
            list_length := field_count carried_sample |} /\
    Permutation sl (fields carried_sample) /\
    List.map seq sl = seq_range (Z.to_nat (field_count carried_sample)) /\
    let block := malloc_bytes stale_heap (code_serialized_len carried_sample) in
    let vas := areas_in (skipn (Z.to_nat (16 + strlen "hello")) block) sl in
    Forall2 value_area sl vas /\
    dynmessage_serialize_bin stale_heap carried_sample unset_serdi
    = Ok {| ser_data :=
              Some (frame_header "hello"%string (field_count carried_sample)
                      (code_serialized_len carried_sample)
                    ++ frames sl vas);
            ser_data_len := code_serialized_len carried_sample |}.
Proof.
  apply (emitted_frame_layout stale_heap carried_sample unset_serdi
           "hello"%string).
  - exact carried_sample_built.
  - vm_compute. reflexivity.
  - exact carried_sample_fields.
  - vm_compute. reflexivity.
  - split.
    + vm_compute. reflexivity.
    + vm_compute. intros C. discriminate C.
Defined.

End RoundTripProperties.

(** ** cerializer.c: floating-point values that are not ordinary *)

Section FloatProperties.

Import Float754.

Lemma normalize_down_infinity fuel : forall shift,
  normalize_down fuel (S754_infinity false) shift = Undef Diverges.
Proof.
  induction fuel as [|fuel IH]; intros shift; cbn [normalize_down].
  - reflexivity.
  - change (SFleb ld_two (S754_infinity false)) with true. cbv iota.
    change (ld_div (S754_infinity false) ld_two) with (S754_infinity false).
    apply IH.
Qed.

(** X27.  The floating-point encoders on the values that are not
    ordinary numbers.  A zero of either sign is written as all-zero
    bytes, and all-zero bytes are read as +0, so the sign of -0 is
    lost.  On an infinity the condition of the first normalisation
    loop of [pack754] stays true, half of infinity being infinity:
    whatever the number of turns allowed, the loop has not ended (in C
    its [int] counter overflows on the way).  On a NaN both loops are
    skipped and a NaN is converted to [long long], which is
    undefined. *)
Theorem float_special_values (s : bool) :
  serialize_float32 (S754_zero s) = Ok [0; 0; 0; 0] /\
  serialize_float64 (S754_zero s) = Ok [0; 0; 0; 0; 0; 0; 0; 0] /\
  deserialize_float32 [0; 0; 0; 0] = S754_zero false /\
  deserialize_float64 [0; 0; 0; 0; 0; 0; 0; 0] = S754_zero false /\
  (forall fuel shift,
     normalize_down fuel (S754_infinity false) shift = Undef Diverges) /\
  serialize_float32 (S754_infinity s) = Undef Diverges /\
  serialize_float64 (S754_infinity s) = Undef Diverges /\
  serialize_float32 S754_nan = Undef BadConversion /\
  serialize_float64 S754_nan = Undef BadConversion.
Proof.
  split; [destruct s; vm_compute; reflexivity|].
  split; [destruct s; vm_compute; reflexivity|].
  split; [vm_compute; reflexivity|].
  split; [vm_compute; reflexivity|].
  split; [intros fuel shift; apply normalize_down_infinity|].
  assert (P : forall bits expbits,
            pack754 (S754_infinity s) bits expbits = Undef Diverges).
  { intros bits expbits. unfold pack754. destruct s.
    - change (SFeqb (S754_infinity true) ld_zero) with false. cbv iota.
      change (SFltb (S754_infinity true) ld_zero) with true. cbv iota.
      change (SFopp (S754_infinity true)) with (S754_infinity false).
      rewrite normalize_down_infinity. reflexivity.
    - change (SFeqb (S754_infinity false) ld_zero) with false. cbv iota.
      change (SFltb (S754_infinity false) ld_zero) with false. cbv iota.
      rewrite normalize_down_infinity. reflexivity. }
  split; [unfold serialize_float32, pack754_32;
          change (to_ldouble (S754_infinity s)) with (S754_infinity s);
          rewrite P; reflexivity|].
  split; [unfold serialize_float64, pack754_64;
          change (to_ldouble (S754_infinity s)) with (S754_infinity s);
          rewrite P; reflexivity|].
  split; vm_compute; reflexivity.
Qed.

End FloatProperties.
(** ** hashmap.c, dynmessage.c: the word the hash reads at a name *)

Section NameProperties.

Import Hashmap.
Import Dynmessage.

Lemma le_value_zero bs : le_value (bs ++ [0]) = le_value bs.
Proof.
  induction bs as [|b r IH]; cbn [app le_value]; [reflexivity|].
  rewrite IH. reflexivity.
Qed.

(** X28.  The word [default_hash_func] reads at a name of seven
    characters or more is determined by the characters of the name:
    whatever bytes follow the terminator, it is the value of the first
    eight bytes of the string, which [string_word] gives.  So the
    caller's name and the copy [strdup] makes of it hash alike. *)
Theorem sized_name_word (b : name_buffer) :
  word_sized (chars b) -> buffer_word b = string_word (chars b).
Proof.
  unfold word_sized, buffer_word, string_word. intros H.
  pose proof (RoundTrip.strlen_bytes (chars b)) as L.
  set (bs := bytes_of_string (chars b)) in *.
  rewrite firstn_app.
  destruct (Nat.eq_dec (length bs) 7) as [E|E].
  - rewrite E. change (firstn (8 - 7) (0 :: after b)) with [0].
    rewrite (firstn_all2 (n := 8) bs) by lia. apply le_value_zero.
  - replace (8 - length bs)%nat with 0%nat by lia.
    change (firstn 0 (0 :: after b)) with (@nil Z).
    rewrite app_nil_r. reflexivity.
Qed.

Lemma sized_name_word_witness :
  buffer_word {| chars := "velocity"; after := [1; 2; 3] |}
  = string_word "velocity".
Proof.
  apply (sized_name_word {| chars := "velocity"; after := [1; 2; 3] |}).
  unfold word_sized. cbn. lia.
Defined.

(** X29.  For a shorter name the word depends on the bytes after the
    terminator.  The name ["a"] followed by other strings and the name
    ["a"] followed by zero bytes are equal for [test_string_equal] and
    have different words; in the table [dynmessage_init] sets up
    (seventeen buckets, the default hash), after [hashmap_put] under
    the second, [hashmap_contains_key] and [hashmap_get] find the entry
    with the second and miss it with the first. *)
Theorem short_name_misses_its_copy :
  buffer_equal literal_a copied_a = true /\
  buffer_word literal_a <> buffer_word copied_a /\
  exists h,
    hashmap_put names_map copied_a 1 = Some h /\
    hashmap_contains_key h copied_a = true /\
    hashmap_get h copied_a = Some 1 /\
    hashmap_contains_key h literal_a = false /\
    hashmap_get h literal_a = None.
Proof.
  split; [reflexivity|]. split; [vm_compute; discriminate|].
  destruct (hashmap_put names_map copied_a 1) as [h|] eqn:E.
  - exists h. split; [reflexivity|].
    assert (C : match hashmap_put names_map copied_a 1 with
                | Some h =>
                    hashmap_contains_key h copied_a
                    && match hashmap_get h copied_a with
                       | Some v => v =? 1
                       | None => false
                       end
                    && negb (hashmap_contains_key h literal_a)
                    && match hashmap_get h literal_a with
                       | Some _ => false
                       | None => true
                       end
                | None => false
                end = true) by (vm_compute; reflexivity).
    rewrite E in C. apply andb_true_iff in C. destruct C as [C C4].
    apply andb_true_iff in C. destruct C as [C C3].
    apply andb_true_iff in C. destruct C as [C1 C2].
    split; [exact C1|]. split.
    + destruct (hashmap_get h copied_a) as [v|]; [|discriminate].
      apply Z.eqb_eq in C2. now subst.
    + split; [now apply negb_true_iff in C3|].
      destruct (hashmap_get h literal_a); [discriminate | reflexivity].
  - assert (C : match hashmap_put names_map copied_a 1 with
                | Some _ => true
                | None => false
                end = true) by (vm_compute; reflexivity).
    rewrite E in C. discriminate.
Qed.

End NameProperties.
